(** * dax.processor_parser: selection grammar, input registry, parameter
      matrix and existing-work reconciliation

    A shallow embedding of [src/dax/processor_parser.py] (class
    [ProcessorParser]) and the properties its specification states about it.

    Conventions of the embedding.
    - Python exceptions are values of [PyError]; a function that can raise
      returns [result A].
    - A [dict] whose iteration order the code relies on ([inputs],
      [iteration_map]) is an insertion-ordered association list with the
      update-in-place semantics of Python 3.7+ dictionaries; a [dict] that is
      only looked up or compared with [==] (a parameter row, a recorded input
      mapping) is a [gmap].
    - [iteration_sources] is a Python [set]; its members are a [gset string].
      The order in which Python enumerates a set of strings is fixed by their
      hashes, not by insertion, so every function that loops over the set
      takes the enumeration as a duplicate-free list.
    - Strings are ASCII strings; [bytes] values and their decoded text are
      identified, except where the code compares a [str] with a [bytes]
      value: they are never equal in Python 3, and the model says so
      ([get_input_value]). *)

From Stdlib Require Import ZArith Ascii.
From stdpp Require Import base decidable option list strings gmap fin_maps.

Local Open Scope Z_scope.

(** ** Exceptions and the error monad *)

Inductive PyError : Type :=
  | KeyError
  | IndexError
  | TypeError
  | UnboundLocalError
  | ValueError (msg : string).

#[global] Instance PyError_eq_dec : EqDecision PyError.
Proof. solve_decision. Defined.

Inductive result (A : Type) : Type :=
  | Ok (a : A)
  | Raise (e : PyError).

Arguments Ok {A} a.
Arguments Raise {A} e.

#[global] Instance result_ret : MRet result := fun A a => Ok a.
#[global] Instance result_bind : MBind result := fun A B f r =>
  match r with
  | Ok a => f a
  | Raise e => Raise e
  end.

#[global] Instance result_fmap : FMap result := fun A B f r =>
  match r with
  | Ok a => Ok (f a)
  | Raise e => Raise e
  end.

#[global] Instance result_eq_dec {A} `{EqDecision A} : EqDecision (result A).
Proof. solve_decision. Defined.

Definition raises {A} (r : result A) : Prop := ∃ e, r = Raise e.

(** [d[k]] on a [gmap]-modelled dictionary. *)
Definition getitem {V} (d : gmap string V) (k : string) : result V :=
  match d !! k with
  | Some v => Ok v
  | None => Raise KeyError
  end.

(** [l[i]] on a list, for a non-negative index. *)
Definition index {A} (l : list A) (i : nat) : result A :=
  match l !! i with
  | Some v => Ok v
  | None => Raise IndexError
  end.

(** A [for] loop that threads a state and whose body can raise. *)
Fixpoint for_each {S A} (body : S → A → result S) (st : S) (l : list A)
  : result S :=
  match l with
  | [] => Ok st
  | x :: l' => st' ← body st x; for_each body st' l'
  end.

(** A [for] loop (or comprehension) that appends one result per element. *)
Fixpoint traverse {A B} (f : A → result B) (l : list A) : result (list B) :=
  match l with
  | [] => Ok []
  | x :: l' => y ← f x; ys ← traverse f l'; Ok (y :: ys)
  end.

(** [l[i]] for a possibly negative index. *)
Definition index_Z {A} (l : list A) (i : Z) : result A :=
  if decide (0 ≤ i) then index l (Z.to_nat i)
  else if decide (- Z.of_nat (length l) ≤ i) then
    index l (Z.to_nat (Z.of_nat (length l) + i))
  else Raise IndexError.

(** ** Insertion-ordered dictionaries *)

Module Dict.

Definition t (V : Type) : Type := list (string * V).

Fixpoint get {V} (d : t V) (k : string) : option V :=
  match d with
  | [] => None
  | (k', v) :: d' => if decide (k' = k) then Some v else get d' k
  end.

(** [d[k] = v]: an existing key keeps its position. *)
Fixpoint set {V} (k : string) (v : V) (d : t V) : t V :=
  match d with
  | [] => [(k, v)]
  | (k', v') :: d' =>
      if decide (k' = k) then (k, v) :: d' else (k', v') :: set k v d'
  end.

Definition getitem {V} (d : t V) (k : string) : result V :=
  match get d k with
  | Some v => Ok v
  | None => Raise KeyError
  end.

Definition keys {V} (d : t V) : list string := d.*1.

End Dict.

(** ** String primitives used by the grammar *)

Module Str.

(** [s.find(c)]: [None] stands for [-1]. *)
Fixpoint find (c : ascii) (s : string) : option nat :=
  match s with
  | EmptyString => None
  | String c' s' =>
      if decide (c' = c) then Some O else S <$> find c s'
  end.

(** [s[:n]] *)
Fixpoint prefix (n : nat) (s : string) : string :=
  match n, s with
  | O, _ => EmptyString
  | S _, EmptyString => EmptyString
  | S n', String c s' => String c (prefix n' s')
  end.

(** [s[n:]] *)
Fixpoint suffix (n : nat) (s : string) : string :=
  match n, s with
  | O, _ => s
  | S _, EmptyString => EmptyString
  | S n', String _ s' => suffix n' s'
  end.

(** [s[a:b]] for non-negative [a], [b]; empty when [b <= a]. *)
Definition slice (a b : nat) (s : string) : string :=
  prefix (b - a) (suffix a s).

(** Characters removed by [str.strip()] with no argument. *)
Definition is_space (c : ascii) : bool :=
  let n := nat_of_ascii c in
  ((9 <=? n)%nat && (n <=? 13)%nat) || ((28 <=? n)%nat && (n <=? 32)%nat).

Fixpoint lstrip (s : string) : string :=
  match s with
  | EmptyString => EmptyString
  | String c s' => if is_space c then lstrip s' else s
  end.

Fixpoint rstrip (s : string) : string :=
  match s with
  | EmptyString => EmptyString
  | String c s' =>
      match rstrip s' with
      | EmptyString => if is_space c then EmptyString else String c EmptyString
      | r => String c r
      end
  end.

Definition strip (s : string) : string := rstrip (lstrip s).

(** [s.split(sep)] for a one-character separator. *)
Fixpoint split (sep : ascii) (s : string) : list string :=
  match s with
  | EmptyString => [EmptyString]
  | String c s' =>
      if decide (c = sep) then EmptyString :: split sep s'
      else match split sep s' with
           | [] => [String c EmptyString]
           | w :: ws => String c w :: ws
           end
  end.

End Str.

(** ** 4.1 Selection grammar *)

Definition select_namespace : list string :=
  ["foreach"; "one"; "some"; "all"; "from"].

Definition select_session_namespace : list string :=
  ["current"; "prior"; "prior-with"; "first"; "first-with"].

Definition malformed : PyError := ValueError "statement is malformed".

Definition _get_args (statement : string) : result (list string) :=
  match Str.find "(" statement, Str.find ")" statement with
  | None, None => Ok [statement]
  | Some leftindex, Some rightindex =>
      Ok (Str.prefix leftindex statement ::
          map Str.strip
              (Str.split "," (Str.slice (S leftindex) rightindex statement)))
  | _, _ => Raise malformed
  end.

Definition _parse_select (statement : option string) : result (list string) :=
  let statement := default "foreach" statement in
  _get_args (Str.strip statement).

Record SelectSessionParameters : Type := {
  mode : string;
  delta : Z
}.

#[global] Instance SelectSessionParameters_eq_dec :
  EqDecision SelectSessionParameters.
Proof. solve_decision. Defined.

(** [sys.maxsize] on a 64-bit build. *)
Definition maxsize : Z := 2 ^ 63 - 1.

Section Grammar.

(** The built-in [int(str)]: [None] when it raises [ValueError]. *)
Variable py_int : string → option Z.

Definition int_of (s : string) : result Z :=
  match py_int s with
  | Some z => Ok z
  | None => Raise (ValueError "invalid literal for int()")
  end.

(** [delta] is bound in three branches only; any other mode token reaches
    the constructor call with [delta] unbound. *)
Definition _parse_session_select (statement : option string)
  : result SelectSessionParameters :=
  let statement := default "current" statement in
  args ← _get_args (Str.strip statement);
  a0 ← index args 0;
  delta ←
    (if decide (a0 = "current") then Ok 0
     else if decide (a0 ∈ ["prior"; "prior-with"]) then
       a1 ← index args 1; int_of a1
     else if decide (a0 ∈ ["first"; "first-with"]) then Ok maxsize
     else Raise UnboundLocalError);
  Ok {| mode := a0; delta := delta |}.

End Grammar.

(** ** 3. Data model *)

(** A declared resource: [r['required']] after the parser has filled in the
    default. *)
Record Resource : Type := {
  resource : string;
  varname : option string;
  res_required : bool
}.

(** One entry of [inputs]. *)
Record InputSpec : Type := {
  types : list string;
  select : list string;
  select_session : SelectSessionParameters;
  artefact_type : string;
  needs_qc : bool;
  resources : list Resource;
  required : bool
}.

(** A cell of a parameter row: [None], an artefact path, or (for
    multi-valued inputs) a list of those. *)
Inductive Value : Type :=
  | VAtom (a : option string)
  | VList (l : list (option string)).

#[global] Instance Value_eq_dec : EqDecision Value.
Proof. solve_decision. Defined.

Abbreviation VNone := (VAtom None).
Abbreviation VStr s := (VAtom (Some s)).

(** A parameter row is a Python [dict]; rows are compared with [==]. *)
Abbreviation Row := (gmap string Value).

(** An object of the imaging store (scan or assessor), reduced to the
    queries the parser makes: [full_path()], [type()], [label()],
    [info().get('quality')], the labels of [resources()] and
    [get_inputs()] ([None] when the inputs field is empty). *)
Record Entity : Type := {
  full_path : string;
  type_ : string;
  label : string;
  quality : option string;
  resource_labels : list string;
  get_inputs : option (gmap string string)
}.

#[global] Instance Entity_eq_dec : EqDecision Entity.
Proof. solve_decision. Defined.

Record Session : Type := {
  creation_timestamp_ : Z;
  scans : list Entity;
  assessors : list Entity
}.

#[global] Instance Session_eq_dec : EqDecision Session.
Proof. solve_decision. Defined.

Record ParserArtefact : Type := {
  pa_path : string;
  pa_resources : gmap string string;
  entity : Entity
}.

(** ** 4.2 Input registry *)

(** The two registries filled while the inputs are parsed. *)
Record Registry : Type := {
  iteration_sources : gset string;
  iteration_map : Dict.t string
}.

Definition empty_registry : Registry :=
  {| iteration_sources := ∅; iteration_map := [] |}.

Definition add_source (name : string) (reg : Registry) : Registry :=
  {| iteration_sources := {[name]} ∪ iteration_sources reg;
     iteration_map := iteration_map reg |}.

Definition add_mapping (name ref : string) (reg : Registry) : Registry :=
  {| iteration_sources := iteration_sources reg;
     iteration_map := Dict.set name ref (iteration_map reg) |}.

(** The chain of [if]/[elif] has no final [else]: any other first token
    falls through and nothing is registered. *)
Definition _register_iteration_references
    (name : string) (iteration_args : list string) (reg : Registry)
  : result Registry :=
  a0 ← index iteration_args 0;
  if decide (a0 = "foreach") then
    if decide (length iteration_args = 1%nat) then Ok (add_source name reg)
    else a1 ← index iteration_args 1; Ok (add_mapping name a1 reg)
  else if decide (a0 = "one") then Ok (add_source name reg)
  else if decide (a0 = "all") then Ok (add_source name reg)
  else if decide (a0 = "from") then
    a1 ← index iteration_args 1; Ok (add_mapping name a1 reg)
  else Ok reg.

Definition _register_input_types
    (input_types : list string) (inputs_by_type : gmap string (gset string))
    (name : string) : gmap string (gset string) :=
  foldl (λ ibt t, <[t := {[name]} ∪ default ∅ (ibt !! t)]> ibt)
        inputs_by_type input_types.

(** A declared input as the specification document gives it.  [y_types] is
    the [types] field of a scan and the [proctypes] field of an assessor;
    [yr_required] is [None] when the resource has no [required] key.
    [y_select_session] is [None] when the entry has no [select-session]
    key and [Some None] when the key is there and holds the null value:
    [parse_inputs] reads both as no statement, [is_longitudinal] does
    not. *)
Record YamlResource : Type := {
  yr_resource : string;
  yr_varname : option string;
  yr_required : option bool
}.

Record YamlInput : Type := {
  y_name : string;
  y_select : option string;
  y_select_session : option (option string);
  y_types : string;
  y_needs_qc : option bool;
  y_resources : list YamlResource
}.

Record XnatSection : Type := {
  x_scans : list YamlInput;
  x_assessors : list YamlInput;
  x_filters : option (list (string * string))
}.

(** Everything [parse_inputs] accumulates.  [ps_last_r] is the local variable
    [r] of the resource loops: it stays bound after a loop ends, and the
    assessor branch reads it after its loop. *)
Record ParseState : Type := {
  ps_inputs : Dict.t InputSpec;
  ps_inputs_by_type : gmap string (gset string);
  ps_registry : Registry;
  ps_prior_session_count : Z;
  ps_last_r : option bool
}.

Definition fill_required (r : YamlResource) : Resource :=
  {| resource := yr_resource r;
     varname := yr_varname r;
     res_required := default true (yr_required r) |}.

Definition split_types (s : string) : list string :=
  map Str.strip (Str.split "," s).

Definition last_bound (rs : list Resource) (r : option bool) : option bool :=
  match last rs with
  | Some x => Some (res_required x)
  | None => r
  end.

Section Registry.

Variable py_int : string → option Z.

Definition parse_scan (st : ParseState) (s : YamlInput) : result ParseState :=
  let name := y_name s in
  parsed_select ← _parse_select (y_select s);
  parsed_session_select ←
    _parse_session_select py_int (default None (y_select_session s));
  reg ← _register_iteration_references name parsed_select (ps_registry st);
  let types := split_types (y_types s) in
  let ibt := _register_input_types types (ps_inputs_by_type st) name in
  let rs := fill_required <$> y_resources s in
  let artefact_required := existsb res_required rs in
  Ok {| ps_inputs :=
          Dict.set name
            {| types := types; select := parsed_select;
               select_session := parsed_session_select;
               artefact_type := "scan";
               needs_qc := default false (y_needs_qc s);
               resources := rs; required := artefact_required |}
            (ps_inputs st);
        ps_inputs_by_type := ibt;
        ps_registry := reg;
        ps_prior_session_count :=
          Z.max (ps_prior_session_count st) (delta parsed_session_select);
        ps_last_r := last_bound rs (ps_last_r st) |}.

(** In the assessor loop the update of [artefact_required] sits after the
    resource loop, so it reads the [required] flag of whichever resource
    [r] was bound to last. *)
Definition parse_assessor (st : ParseState) (a : YamlInput)
  : result ParseState :=
  let name := y_name a in
  parsed_select ← _parse_select (y_select a);
  parsed_session_select ←
    _parse_session_select py_int (default None (y_select_session a));
  reg ← _register_iteration_references name parsed_select (ps_registry st);
  let types := split_types (y_types a) in
  let ibt := _register_input_types types (ps_inputs_by_type st) name in
  let rs := fill_required <$> y_resources a in
  let r := last_bound rs (ps_last_r st) in
  artefact_required ←
    match r with
    | Some b => Ok b
    | None => Raise UnboundLocalError
    end;
  Ok {| ps_inputs :=
          Dict.set name
            {| types := types; select := parsed_select;
               select_session := parsed_session_select;
               artefact_type := "assessor";
               needs_qc := default false (y_needs_qc a);
               resources := rs; required := artefact_required |}
            (ps_inputs st);
        ps_inputs_by_type := ibt;
        ps_registry := reg;
        ps_prior_session_count :=
          Z.max (ps_prior_session_count st) (delta parsed_session_select);
        ps_last_r := r |}.

Definition initial_state : ParseState :=
  {| ps_inputs := []; ps_inputs_by_type := ∅;
     ps_registry := empty_registry;
     ps_prior_session_count := 0; ps_last_r := None |}.

Definition parse_inputs (xnat : option XnatSection) : result ParseState :=
  match xnat with
  | None =>
      Raise (ValueError "yaml processor is missing xnat keyword contents")
  | Some xnat =>
      st ← for_each parse_scan initial_state (x_scans xnat);
      for_each parse_assessor st (x_assessors xnat)
  end.

End Registry.

(** [e.get('select-session', 'current') != 'current']: a key that holds the
    null value is there, so the default is not taken and the comparison
    is of [None] with a string. *)
Definition is_longitudinal (xnat : XnatSection) : bool :=
  existsb (λ e, bool_decide (default (Some "current") (y_select_session e)
                             ≠ Some "current"))
          (x_scans xnat ++ x_assessors xnat).

(** ** 4.3 Artefact catalogue *)

Definition catalogue_entity (arts : gmap string ParserArtefact) (cart : Entity)
  : gmap string ParserArtefact :=
  <[full_path cart :=
      {| pa_path := full_path cart;
         pa_resources := list_to_map ((λ l, (l, l)) <$> resource_labels cart);
         entity := cart |}]> arts.

Definition parse_artefacts (csesses : list Session)
  : gmap string ParserArtefact :=
  foldl (λ arts csess,
           foldl catalogue_entity
                 (foldl catalogue_entity arts (scans csess))
                 (assessors csess))
        ∅ csesses.

(** ** 4.4 Artefact-to-input mapper *)

Section Mapper.

(** [utilities.extract_exp(expression).match(type)]. *)
Variable regex_match : string → string → bool.

(** The session an input draws from; [None] when a [prior] offset is past
    the end of the sequence. *)
Definition governing_session (csesses : list Session) (iv : InputSpec)
  : result (option Session) :=
  let ss := select_session iv in
  if decide (mode ss ∈ ["prior"; "prior-with"]) then
    if decide (Z.of_nat (length csesses) ≤ delta ss) then Ok None
    else Some <$> index_Z csesses (delta ss)
  else if decide (mode ss ∈ ["first"; "first-with"]) then
    Some <$> index_Z csesses (-1)
  else Some <$> index csesses 0.

(** The inner loop over the type expressions of one input, for one scan:
    the first matching expression decides and ends the loop. *)
Fixpoint match_scan (iv : InputSpec) (cscan : Entity)
    (expressions : list string) : result (list string) :=
  match expressions with
  | [] => Ok []
  | expression :: rest =>
      if regex_match expression (type_ cscan) then
        s0 ← index (select iv) 0;
        if bool_decide (s0 = "all") && bool_decide (quality cscan = Some "unusable")
        then Ok []
        else Ok [full_path cscan]
      else match_scan iv cscan rest
  end.

Definition candidates_in (iv : InputSpec) (csess : Session)
  : result (list string) :=
  from_scans ← traverse (λ cscan, match_scan iv cscan (types iv)) (scans csess);
  let from_assessors :=
    full_path <$>
      filter (λ cassr, type_ cassr ∈ types iv) (assessors csess) in
  Ok (concat from_scans ++ from_assessors).

Definition map_artefacts_to_inputs
    (csesses : list Session) (inputs : Dict.t InputSpec)
  : result (gmap string (list string)) :=
  for_each
    (λ abi '(i, iv),
       csess ← governing_session csesses iv;
       match csess with
       | None => Ok abi
       | Some csess =>
           found ← candidates_in iv csess;
           Ok (<[i := default [] (abi !! i) ++ found]> abi)
       end)
    (list_to_map ((λ k, (k, [])) <$> Dict.keys inputs))
    inputs.

End Mapper.

(** ** 4.5 Parameter matrix generator *)

(** The gate: [false] when the function returns the empty matrix at once. *)
Fixpoint inputs_present (items : Dict.t InputSpec)
    (artefacts_by_input : gmap string (list string)) : result bool :=
  match items with
  | [] => Ok true
  | (i, iv) :: rest =>
      c ← getitem artefacts_by_input i;
      if bool_decide (length c = 0%nat) && required iv then Ok false
      else inputs_present rest artefacts_by_input
  end.

(** [[list().append(None)]] is [[None]], since [append] returns [None]. *)
Definition sanitise (c : list string) : list (option string) :=
  if decide (length c = 0%nat) then [None] else Some <$> c.

Definition sanitised_inputs (inputs : Dict.t InputSpec)
    (artefacts_by_input : gmap string (list string))
  : result (gmap string (list (option string))) :=
  for_each (λ san '(i, _),
              c ← getitem artefacts_by_input i;
              Ok (<[i := sanitise c]> san))
           ∅ inputs.

(** A candidate list read as a column of row cells. *)
Definition cells (c : list (option string)) : list Value := VAtom <$> c.

(** [(v1, v2) = v.split('/')] *)
Definition split_reference (v : string) : result (string * string) :=
  match Str.split "/" v with
  | [v1; v2] => Ok (v1, v2)
  | _ => Raise (ValueError "wrong number of values to unpack")
  end.

(** The column of a [from] dependent: one entry per governing candidate
    whose entity has a recorded input mapping. *)
Definition from_column (artefacts : gmap string ParserArtefact)
    (from_artefacts : list (option string)) (v2 : string)
  : result (list Value) :=
  entries ←
    traverse
      (λ fa,
         match fa with
         | None => Raise KeyError
         | Some path =>
             a ← getitem artefacts path;
             match get_inputs (entity a) with
             | None => Ok []
             | Some from_inputs =>
                 x ← getitem from_inputs v2; Ok [VStr x]
             end
         end)
      from_artefacts;
  Ok (concat entries).

(** One pass of the loop over [iteration_map] for the source [i]: the name
    and the column the entry attaches, if it is governed by [i]. *)
Definition attach (inputs : Dict.t InputSpec)
    (artefacts : gmap string ParserArtefact)
    (san : gmap string (list (option string)))
    (i : string) (kv : string * string)
  : result (option (string * list Value)) :=
  let '(k, v) := kv in
  ik ← Dict.getitem inputs k;
  sk ← index (select ik) 0;
  if decide (sk = "foreach") then
    if decide (v = i) then
      col ← getitem san k; Ok (Some (k, cells col))
    else Ok None
  else
    '(v1, v2) ← split_reference v;
    if decide (v1 = i) then
      from_artefacts ← getitem san v1;
      col ← from_column artefacts from_artefacts v2;
      Ok (Some (k, col))
    else Ok None.

(** The loop over [iteration_map] for the source [i], whose own column is
    [cur]: the names the dimension spans ([mapped_inputs]) and its columns,
    the source first and its dependents in map order. *)
Definition combined_input_vector (inputs : Dict.t InputSpec)
    (iteration_map : Dict.t string)
    (artefacts : gmap string ParserArtefact)
    (san : gmap string (list (option string)))
    (i : string) (cur : list Value)
  : result (list string * list (list Value)) :=
  attached ← traverse (attach inputs artefacts san i) iteration_map;
  Ok (i :: (omap id attached).*1, cur :: (omap id attached).*2).

(** [min(len(e) for e in combined_input_vector)] *)
Definition min_entry_count (combined : list (list Value)) : result nat :=
  match length <$> combined with
  | [] => Raise (ValueError "min() arg is an empty sequence")
  | n :: ns => Ok (foldl Nat.min n ns)
  end.

(** The transposition: row [r] takes entry [r] of every column. *)
Definition merged_input_vector (combined : list (list Value)) (n : nat)
  : result (list (list Value)) :=
  traverse (λ row, traverse (λ col, index col row) combined) (seq 0 n).

(** The dimension contributed by the iteration source [i]: the input names
    it spans and its row fragments.  A select function outside the four
    handled leaves the dimension [None]; that only fails later, when the
    product unpacks it.  The count of [some] is the string that [_get_args]
    produced, so [min] compares an [int] with a [str]. *)
Definition source_dimension (inputs : Dict.t InputSpec)
    (iteration_map : Dict.t string)
    (artefacts : gmap string ParserArtefact)
    (san : gmap string (list (option string)))
    (i : string)
  : result (list string * option (list (list Value))) :=
  iv ← Dict.getitem inputs i;
  select_fn ← index (select iv) 0;
  if decide (select_fn = "foreach") then
    cur ← getitem san i;
    '(mapped_inputs, combined) ←
      combined_input_vector inputs iteration_map artefacts san i (cells cur);
    n ← min_entry_count combined;
    merged ← merged_input_vector combined n;
    Ok (mapped_inputs, Some merged)
  else if decide (select_fn = "all") then
    cur ← getitem san i; Ok ([i], Some [[VList cur]])
  else if decide (select_fn = "some") then
    cur ← getitem san i; _ ← index (select iv) 1; Raise TypeError
  else if decide (select_fn = "one") then
    cur ← getitem san i; Ok ([i], Some [cells (take 1 cur)])
  else if decide (select_fn = "from") then
    _ ← traverse (attach inputs artefacts san i) iteration_map;
    Raise TypeError
  else Ok ([i], None).

(** [itertools.product] over the unpacked dimensions: the leftmost
    dimension varies slowest. *)
Fixpoint product {A} (dims : list (list A)) : list (list A) :=
  match dims with
  | [] => [[]]
  | d :: ds => x ← d; (x ::.) <$> product ds
  end.

(** [row[matrix_headers[j]] = r[j]] for every header index [j]. *)
Fixpoint build_row (headers : list string) (r : list Value) (row : Row)
  : result Row :=
  match headers, r with
  | [], _ => Ok row
  | _ :: _, [] => Raise IndexError
  | h :: hs, x :: r' => build_row hs r' (<[h := x]> row)
  end.

Definition unpack_dimensions (dims : list (option (list (list Value))))
  : result (list (list (list Value))) :=
  match mapM id dims with
  | Some ds => Ok ds
  | None => Raise TypeError
  end.

Definition generate_parameter_matrix
    (inputs : Dict.t InputSpec)
    (iteration_sources : list string)
    (iteration_map : Dict.t string)
    (artefacts : gmap string ParserArtefact)
    (artefacts_by_input : gmap string (list string))
  : result (list Row) :=
  present ← inputs_present inputs artefacts_by_input;
  if negb present then Ok []
  else
    san ← sanitised_inputs inputs artefacts_by_input;
    dimensions ←
      traverse (source_dimension inputs iteration_map artefacts san)
               iteration_sources;
    let all_inputs := dimensions.*1 in
    input_dimension_map ← unpack_dimensions dimensions.*2;
    let matrix := (λ x, concat x) <$> product input_dimension_map in
    let matrix_headers := concat all_inputs in
    traverse (λ r, build_row matrix_headers r ∅) matrix.

(** ** 4.6 Consistency filter *)

Definition parse_match_filters (xnat : XnatSection) : list (list string) :=
  match x_filters xnat with
  | None => []
  | Some filters =>
      omap (λ '(type, inputs),
              if decide (type = "match") then Some (Str.split "," inputs)
              else None)
           filters
  end.

(** The recorded inputs of an entity are keyed by [bytes]: the generator
    looks a name up encoded and decodes what it finds, the reconciler
    decodes keys and values.  Here the child name is looked up as the [str]
    it is, and a [str] equals no [bytes] key: the lookup fails whatever the
    mapping records. *)
Definition get_input_value (input_name : string) (parameter : Row)
    (artefacts : gmap string ParserArtefact) : result Value :=
  match Str.find "/" input_name with
  | None => getitem parameter input_name
  | Some _ =>
      '(parent_name, child_name) ← split_reference input_name;
      parent_val ← getitem parameter parent_name;
      path ← match parent_val with
             | VAtom (Some path) => Ok path
             | VAtom None => Raise KeyError
             | VList _ => Raise TypeError
             end;
      parent_art ← getitem artefacts path;
      match get_inputs (entity parent_art) with
      | None => Raise TypeError
      | Some parent_inputs => Raise KeyError
      end
  end.

(** The inner loop of one filter: [false] at the first value that differs
    from the first one. *)
Fixpoint all_equal (first_val : Value) (others : list string)
    (parameter : Row) (artefacts : gmap string ParserArtefact)
  : result bool :=
  match others with
  | [] => Ok true
  | cur_input :: rest =>
      cur_val ← get_input_value cur_input parameter artefacts;
      if decide (cur_val ≠ first_val) then Ok false
      else all_equal first_val rest parameter artefacts
  end.

Definition filter_holds (parameter : Row)
    (artefacts : gmap string ParserArtefact) (cur_filter : list string)
  : result bool :=
  name ← index cur_filter 0;
  first_val ← get_input_value name parameter artefacts;
  all_equal first_val (drop 1 cur_filter) parameter artefacts.

(** Every filter is evaluated for every row: the [break] leaves the inner
    loop only. *)
Definition filter_matrix (parameter_matrix : list Row)
    (match_filters : list (list string))
    (artefacts : gmap string ParserArtefact) : result (list Row) :=
  kept ←
    traverse
      (λ cur_param,
         verdicts ← traverse (filter_holds cur_param artefacts) match_filters;
         Ok (if forallb id verdicts then [cur_param] else []))
      parameter_matrix;
  Ok (concat kept).

(** ** 4.7 Existing-work reconciler *)

(** The recorded mapping with keys and values decoded, as a row. *)
Definition decoded (inputs : gmap string string) : Row :=
  (λ v, VStr v) <$> inputs.

(** One pass of the inner loop: the entity joins the list of every row its
    mapping equals. *)
Definition pair_entity (casr : Entity) (inputs : gmap string string)
    (parameter_matrix : list Row) (assessors : list (list Entity))
  : list (list Entity) :=
  zip_with (λ p found, if decide (decoded inputs = p) then found ++ [casr]
                       else found)
           parameter_matrix assessors.

(** The loop over the entities of the target type; [None] is the early
    [return list()]. *)
Fixpoint reconcile (casrs : list Entity) (parameter_matrix : list Row)
    (assessors : list (list Entity)) : option (list (list Entity)) :=
  match casrs with
  | [] => Some assessors
  | casr :: rest =>
      match get_inputs casr with
      | None => None
      | Some inputs =>
          reconcile rest parameter_matrix
                    (pair_entity casr inputs parameter_matrix assessors)
      end
  end.

Definition of_type (proc_type : string) (l : list Entity) : list Entity :=
  filter (λ a, type_ a = proc_type) l.

Definition compare_to_existing (csesses : list Session) (proc_type : string)
    (parameter_matrix : list Row) : result (list (Row * list Entity)) :=
  csess ← index csesses 0;
  match reconcile (of_type proc_type (assessors csess)) parameter_matrix
                  (replicate (length parameter_matrix) []) with
  | None => Ok []
  | Some assessors => Ok (zip parameter_matrix assessors)
  end.

(** ** The parser object and [parse_session] *)

Record ProcessorParser : Type := {
  inputs : Dict.t InputSpec;
  registry : Registry;
  prior_session_count : Z;
  match_filters : list (list string);
  proctype : string;
  is_longitudinal_ : bool
}.

(** What [parse_session] stores on the parser when it completes. *)
Record ParsedSession : Type := {
  artefacts : gmap string ParserArtefact;
  artefacts_by_input : gmap string (list string);
  parameter_matrix : list Row;
  assessor_parameter_map : list (Row * list Entity)
}.

Definition not_ordered : PyError :=
  ValueError "session param is not ordered by datetime".

(** The loop over adjacent pairs at the head of [parse_session]. *)
Fixpoint check_order (sessions : list Session) : result unit :=
  match sessions with
  | a :: (b :: _) as rest =>
      if decide (creation_timestamp_ a < creation_timestamp_ b)
      then Raise not_ordered
      else check_order rest
  | _ => Ok ()
  end.

(** [sessions.index(csess)] *)
Fixpoint list_index (sessions : list Session) (csess : Session) : result nat :=
  match sessions with
  | [] => Raise (ValueError "is not in list")
  | s :: rest =>
      if decide (s = csess) then Ok O else S <$> list_index rest csess
  end.

Section Parser.

Variable py_int : string → option Z.
Variable regex_match : string → string → bool.
(** The order in which the interpreter enumerates a set of strings. *)
Variable set_iter : gset string → list string.

(** [__init__], with the process type given by the caller. *)
Definition init (xnat : option XnatSection) (proctype : string)
  : result ProcessorParser :=
  st ← parse_inputs py_int xnat;
  Ok {| inputs := ps_inputs st;
        registry := ps_registry st;
        prior_session_count := ps_prior_session_count st;
        match_filters := from_option parse_match_filters [] xnat;
        proctype := proctype;
        is_longitudinal_ := from_option is_longitudinal false xnat |}.

Definition parse_session (self : ProcessorParser) (csess : Session)
    (sessions : list Session) : result ParsedSession :=
  _ ← check_order sessions;
  relevant_sessions ←
    (if negb (is_longitudinal_ self) then Ok [csess]
     else ix ← list_index sessions csess; Ok (drop ix sessions));
  let artefacts := parse_artefacts relevant_sessions in
  artefacts_by_input ←
    map_artefacts_to_inputs regex_match relevant_sessions (inputs self);
  parameter_matrix ←
    generate_parameter_matrix
      (inputs self)
      (set_iter (iteration_sources (registry self)))
      (iteration_map (registry self))
      artefacts artefacts_by_input;
  parameter_matrix ←
    filter_matrix parameter_matrix (match_filters self) artefacts;
  assessor_parameter_map ←
    compare_to_existing relevant_sessions (proctype self) parameter_matrix;
  Ok {| artefacts := artefacts;
        artefacts_by_input := artefacts_by_input;
        parameter_matrix := parameter_matrix;
        assessor_parameter_map := assessor_parameter_map |}.

End Parser.

(** ** Resource variables *)

(** One entry of [variables_to_inputs]: the input that declares the
    variable and the resource it names. *)
Record VariableInput : Type := {
  vi_input : string;
  vi_resource : string
}.

#[global] Instance VariableInput_eq_dec : EqDecision VariableInput.
Proof. solve_decision. Defined.

(** The inner loop of [parse_variables]: a resource without a variable name,
    or with an empty one, is passed over. *)
Definition resource_variables (ik : string)
    (acc : gmap string VariableInput) (rs : list Resource)
  : gmap string VariableInput :=
  foldl (λ acc r,
           match varname r with
           | Some v =>
               if decide (v = "") then acc
               else <[v := {| vi_input := ik; vi_resource := resource r |}]> acc
           | None => acc
           end)
        acc rs.

Definition parse_variables (inputs : Dict.t InputSpec)
  : gmap string VariableInput :=
  foldl (λ acc '(ik, iv), resource_variables ik acc (resources iv)) ∅ inputs.

(** ** Mode check of the document checker *)

(** [sep.join(l)] *)
Fixpoint join (sep : string) (l : list string) : string :=
  match l with
  | [] => ""
  | [x] => x
  | x :: rest => x +:+ sep +:+ join sep rest
  end.

(** The format string [bad_mode], filled in. *)
Definition bad_mode
    (input_category input_name keyword mode valid_mode_str : string) : string :=
  "Error: " +:+ input_category +:+ " '" +:+ input_name +:+ "': '" +:+ keyword
  +:+ "' has an invalid value '" +:+ mode +:+ "'. It must be one of "
  +:+ valid_mode_str.

(** [keyword_yaml] is the declared input, read as a mapping from field names
    to strings; [valid_modes] the names of a namespace.  The value is
    compared as a whole with those names. *)
Definition _check_valid_mode
    (input_category input_name keyword : string) (valid_modes : list string)
    (keyword_yaml : gmap string string) : list string :=
  match keyword_yaml !! keyword with
  | None => []
  | Some mode =>
      if decide (mode ∈ valid_modes) then []
      else [bad_mode input_category input_name keyword mode
              (join ", " ((λ x, "'" +:+ x +:+ "'") <$> valid_modes))]
  end.

(** * Vocabulary of the specification *)

(** Every declared input has an entry in the candidate mapping, as in the
    mapping [map_artefacts_to_inputs] builds. *)
Definition covers (inputs : Dict.t InputSpec)
    (abi : gmap string (list string)) : Prop :=
  ∀ j jv, (j, jv) ∈ inputs → is_Some (abi !! j).

(** The entities whose recorded mapping, once decoded, is equal to the row
    [p] as a whole mapping. *)
Definition matching (p : Row) (casrs : list Entity) : list Entity :=
  filter (λ casr, decoded <$> get_inputs casr = Some p) casrs.

(** The sequence never rises from an earlier position to a later one; in a
    strictly descending sequence it always falls. *)
Definition non_increasing (sessions : list Session) : Prop :=
  ∀ i j a b, (i < j)%nat → sessions !! i = Some a → sessions !! j = Some b →
             creation_timestamp_ b ≤ creation_timestamp_ a.

Definition strictly_descending (sessions : list Session) : Prop :=
  ∀ i j a b, (i < j)%nat → sessions !! i = Some a → sessions !! j = Some b →
             creation_timestamp_ b < creation_timestamp_ a.

(** The computation does not end in the ordering error. *)
Definition quiet {A} (r : result A) : Prop := r ≠ Raise not_ordered.

(** A directive string is well formed when its parentheses come as a pair or
    not at all. *)
Definition well_formed (statement : string) : Prop :=
  is_Some (Str.find "(" statement) ↔ is_Some (Str.find ")" statement).

(** A duplicate-free listing of the members of a set: what a loop over the
    set can see. *)
Definition enumerates (l : list string) (s : gset string) : Prop :=
  NoDup l ∧ ∀ x, x ∈ l ↔ x ∈ s.

(** The row that assigns [a] to [s1] and [b] to [s2]. *)
Definition row2 (s1 s2 a b : string) : Row :=
  <[s2 := VStr b]> (<[s1 := VStr a]> ∅).

(** All combinations of one candidate of [s1] and one of [s2]: those of the
    first candidate of [s1] come first, each block in the order of [c2]. *)
Definition lexicographic (s1 s2 : string) (c1 c2 : list string) : list Row :=
  a ← c1; b ← c2; [row2 s1 s2 a b].

(** What a row holds for an optional source without candidates: the null
    value, or under [all] the one-element list that holds it. *)
Definition null_cell (select_fn : string) : Value :=
  if decide (select_fn = "all") then VList [None] else VNone.

(** Membership in the two registries, and the directives that lead there:
    an ungrouped [foreach], [one] or [all] on one side, a grouped [foreach]
    or [from] on the other. *)
Definition is_source (name : string) (reg : Registry) : Prop :=
  name ∈ iteration_sources reg.

Definition is_dependent (name : string) (reg : Registry) : Prop :=
  is_Some (Dict.get (iteration_map reg) name).

Definition source_directive (args : list string) : Prop :=
  args = ["foreach"] ∨ args !! 0%nat = Some "one" ∨ args !! 0%nat = Some "all".

Definition dependent_directive (args : list string) : Prop :=
  (args !! 0%nat = Some "foreach" ∧ length args ≠ 1%nat)
  ∨ args !! 0%nat = Some "from".

(** Where the registries [reg] put the input [y]. *)
Definition classified (reg : Registry) (y : YamlInput) : Prop :=
  ∃ args,
    _parse_select (y_select y) = Ok args
    ∧ (source_directive args →
       is_source (y_name y) reg ∧ ¬ is_dependent (y_name y) reg)
    ∧ (dependent_directive args →
       is_dependent (y_name y) reg ∧ ¬ is_source (y_name y) reg)
    ∧ (¬ source_directive args → ¬ dependent_directive args →
       ¬ is_source (y_name y) reg ∧ ¬ is_dependent (y_name y) reg).

(** * Worked inputs *)

Definition session_at (t : Z) : Session :=
  {| creation_timestamp_ := t; scans := []; assessors := [] |}.

(** A parser with no declared input. *)
Definition bare_parser : ProcessorParser :=
  {| inputs := []; registry := empty_registry; prior_session_count := 0;
     match_filters := []; proctype := "proc"; is_longitudinal_ := false |}.

(** A scan input with one required resource and the default session. *)
Definition scan_input (name : string) (select : option string) : YamlInput :=
  {| y_name := name; y_select := select; y_select_session := None;
     y_types := "T1"; y_needs_qc := None;
     y_resources :=
       [{| yr_resource := "NIFTI"; yr_varname := Some "t1";
           yr_required := None |}] |}.

(** The specification that declares the single scan [T1] with [some(2)]. *)
Definition some_spec : XnatSection :=
  {| x_scans := [scan_input "T1" (Some "some(2)")];
     x_assessors := []; x_filters := None |}.

(** An input record as the matrix generator reads it. *)
Definition input_with (select : list string) (required : bool) : InputSpec :=
  {| types := ["T1"]; select := select;
     select_session := {| mode := "current"; delta := 0 |};
     artefact_type := "scan"; needs_qc := false; resources := [];
     required := required |}.

(** The specification that declares the scans [A] and [B] in this order,
    both with the default [foreach]. *)
Definition two_spec : XnatSection :=
  {| x_scans := [scan_input "A" None; scan_input "B" None];
     x_assessors := []; x_filters := None |}.

Definition candidates_AB : gmap string (list string) :=
  <["A" := ["a1"; "a2"; "a3"]]> {["B" := ["b1"; "b2"]]}.

(** An assessor of type [proc] and a session that holds it. *)
Definition assessor_with (name : string) (recorded : option (gmap string string))
  : Entity :=
  {| full_path := name; type_ := "proc"; label := name; quality := None;
     resource_labels := []; get_inputs := recorded |}.

Definition session_with (found : list Entity) : Session :=
  {| creation_timestamp_ := 0; scans := []; assessors := found |}.

(** [C] is read from the recorded inputs of [A]: [from(A/t1)]; it is not
    required. *)
Definition inputs_A_from_C : Dict.t InputSpec :=
  [("A", input_with ["foreach"] true);
   ("C", input_with ["from"; "A/t1"] false)].

(** The catalogue that holds the assessor [a1], whose recorded input [t1]
    is [p1]. *)
Definition catalogue_a1 : gmap string ParserArtefact :=
  {["a1" := {| pa_path := "a1"; pa_resources := ∅;
               entity := assessor_with "a1" (Some {["t1" := "p1"]}) |}]}.

(** The consistency filter of the specification's example: [A] and [B] must
    agree. *)
Definition filter_AB : list (list string) := [["A"; "B"]].

(** One declared input [A] with the given select arguments. *)
Definition only_A (select : list string) (required : bool)
  : Dict.t InputSpec :=
  [("A", input_with select required)].

(** Two required [foreach] inputs, [A] before [B]. *)
Definition inputs_AB : Dict.t InputSpec :=
  [("A", input_with ["foreach"] true); ("B", input_with ["foreach"] true)].

(** [B] iterates with [A]: [foreach(A)]. *)
Definition inputs_A_with_B : Dict.t InputSpec :=
  [("A", input_with ["foreach"] true);
   ("B", input_with ["foreach"; "A"] true)].

Definition sanitised_AB : gmap string (list (option string)) :=
  <["A" := [Some "a1"; Some "a2"; Some "a3"]]>
    {["B" := [Some "b1"; Some "b2"]]}.

(** A string of whitespace only. *)
Definition blank (s : string) : Prop := Str.lstrip s = "".

(** The scan entry that declares only its [select] field. *)
Definition select_field (statement : string) : gmap string string :=
  {["select" := statement]}.

(** The names a specification declares, scans first. *)
Definition declared_names (xnat : XnatSection) : list string :=
  y_name <$> (x_scans xnat ++ x_assessors xnat).

(** The record [parse_inputs] stores for the declared input [y] of the given
    kind, but for its session policy and its [required] flag. *)
Definition stored_as (kind : string) (y : YamlInput) (iv : InputSpec) : Prop :=
  _parse_select (y_select y) = Ok (select iv)
  ∧ artefact_type iv = kind
  ∧ types iv = split_types (y_types y)
  ∧ needs_qc iv = default false (y_needs_qc y)
  ∧ resources iv = fill_required <$> y_resources y.

(** A specification with the scan [A] and the assessor [asr], which reads
    two resources, the last one optional. *)
Definition scan_and_assessor : XnatSection :=
  {| x_scans := [scan_input "A" None];
     x_assessors :=
       [{| y_name := "asr"; y_select := Some "from(A/t1)";
           y_select_session := None; y_types := "proc_v1";
           y_needs_qc := Some true;
           y_resources :=
             [{| yr_resource := "OUT"; yr_varname := Some "out";
                 yr_required := Some true |};
              {| yr_resource := "LOG"; yr_varname := None;
                 yr_required := Some false |}] |}];
     x_filters := None |}.

(** The identities of the artefacts of a session, scans first. *)
Definition session_paths (csess : Session) : list string :=
  full_path <$> (scans csess ++ assessors csess).

(** A scan of the given type and a session that holds scans. *)
Definition scan_of (name type : string) : Entity :=
  {| full_path := name; type_ := type; label := name; quality := None;
     resource_labels := ["NIFTI"]; get_inputs := None |}.

Definition session_of_scans (t : Z) (found : list Entity) : Session :=
  {| creation_timestamp_ := t; scans := found; assessors := [] |}.

(** Literal comparison standing for the type expressions. *)
Definition same_type (expression type : string) : bool :=
  bool_decide (expression = type).

(** An input that reads the session [d] places before the current one. *)
Definition prior_input (d : Z) : InputSpec :=
  {| types := ["T1"]; select := ["foreach"];
     select_session := {| mode := "prior"; delta := d |};
     artefact_type := "scan"; needs_qc := false; resources := [];
     required := true |}.

(** A session with three scans, the first and the last of type [T1]. *)
Definition three_scans : Session :=
  session_of_scans 2 [scan_of "s1" "T1"; scan_of "s2" "T2"; scan_of "s3" "T1"].

(** The name [name] is registered under the type [t]. *)
Definition registered_type (ibt : gmap string (gset string))
    (t name : string) : Prop :=
  ∃ names, ibt !! t = Some names ∧ name ∈ names.

(** A filter name that refers to a cell of the row itself, not to a
    recorded input of the artefact in that cell. *)
Definition plain (name : string) : Prop := Str.find "/" name = None.

(** The row holds one and the same value under all names of the group. *)
Definition agrees (p : Row) (group : list string) : Prop :=
  ∀ a b, a ∈ group → b ∈ group → p !! a = p !! b.

(** Rows over the inputs [A] and [B]. *)
Definition row_AB (a b : string) : Row := row2 "A" "B" a b.

(** A longitudinal parser with no declared input. *)
Definition history_parser : ProcessorParser :=
  {| inputs := []; registry := empty_registry; prior_session_count := 0;
     match_filters := []; proctype := "proc"; is_longitudinal_ := true |}.

(** The number of row fragments an iteration source without dependents
    contributes: one per candidate under [foreach], one when it has no
    candidate, and one under any other select function. *)
Definition dimension_size (inputs : Dict.t InputSpec)
    (abi : gmap string (list string)) (s : string) : nat :=
  match Dict.get inputs s, abi !! s with
  | Some sv, Some c =>
      if decide (select sv !! 0%nat = Some "foreach")
      then Nat.max 1 (length c) else 1%nat
  | _, _ => 0%nat
  end.

(** The product of the sizes of the listed sources. *)
Definition matrix_size (inputs : Dict.t InputSpec)
    (abi : gmap string (list string)) (sources : list string) : nat :=
  foldr (λ s n, (dimension_size inputs abi s * n)%nat) 1%nat sources.

(** * Properties *)

(** ** The error monad *)

Lemma bind_Ok_inv {A B} (r : result A) (f : A → result B) (b : B) :
  r ≫= f = Ok b → ∃ a, r = Ok a ∧ f a = Ok b.
Proof. destruct r as [a|e]; [eauto | discriminate]. Qed.

Lemma getitem_Some {V} (d : gmap string V) (k : string) (v : V) :
  d !! k = Some v → getitem d k = Ok v.
Proof. unfold getitem. by intros ->. Qed.

Lemma getitem_Ok_inv {V} (d : gmap string V) (k : string) (v : V) :
  getitem d k = Ok v → d !! k = Some v.
Proof. unfold getitem. destruct (d !! k); naive_solver. Qed.

Lemma index_Some {A} (l : list A) (i : nat) (x : A) :
  l !! i = Some x → index l i = Ok x.
Proof. unfold index. by intros ->. Qed.

Lemma Dict_getitem_Some {V} (d : Dict.t V) (k : string) (v : V) :
  Dict.get d k = Some v → Dict.getitem d k = Ok v.
Proof. unfold Dict.getitem. by intros ->. Qed.

(** ** The gate of the matrix generator *)

Section Gate.

Context (inputs : Dict.t InputSpec) (abi : gmap string (list string)).

Lemma inputs_present_false i iv :
  covers inputs abi →
  (i, iv) ∈ inputs → required iv = true → abi !! i = Some [] →
  inputs_present inputs abi = Ok false.
Proof.
  unfold covers. induction inputs as [|[j jv] rest IH]; intros Hcov Hin Hreq Hi.
  - by apply elem_of_nil in Hin.
  - simpl. destruct (Hcov j jv) as [c Hc]; [left|].
    rewrite (getitem_Some _ _ _ Hc). simpl.
    apply elem_of_cons in Hin as [Heq|Hin].
    + injection Heq as <- <-. rewrite Hi in Hc. injection Hc as <-.
      by rewrite Hreq.
    + destruct (bool_decide (length c = 0%nat) && required jv); [done|].
      apply IH; [|done..]. intros k kv Hk. apply (Hcov k kv). by right.
Qed.

End Gate.

(** C1.  When some required input has no candidate, the generator returns
    the empty matrix, as a normal return value: [Ok []], not an exception.
    The candidate mapping has an entry for every declared input. *)
Theorem generate_parameter_matrix_gate
    (inputs : Dict.t InputSpec) (iteration_sources : list string)
    (iteration_map : Dict.t string)
    (artefacts : gmap string ParserArtefact)
    (artefacts_by_input : gmap string (list string))
    (i : string) (iv : InputSpec) :
  covers inputs artefacts_by_input →
  (i, iv) ∈ inputs →
  required iv = true →
  artefacts_by_input !! i = Some [] →
  generate_parameter_matrix inputs iteration_sources iteration_map
                            artefacts artefacts_by_input = Ok [].
Proof.
  intros Hcov Hin Hreq Hi. unfold generate_parameter_matrix.
  by rewrite (inputs_present_false _ _ i iv).
Qed.

Lemma for_each_invariant {S A} (P : S → Prop) (body : S → A → result S)
    (l : list A) (st st' : S) :
  (∀ s x s', P s → body s x = Ok s' → P s') →
  P st → for_each body st l = Ok st' → P st'.
Proof.
  intros Hstep. revert st. induction l as [|x l IH]; simpl; intros st HP Hrun.
  - by injection Hrun as <-.
  - apply bind_Ok_inv in Hrun as (s1 & Hbody & Hrun). eauto.
Qed.

(** The mapping built by the mapper has an entry for every declared input,
    so the matrix generator never misses a key on it. *)
Lemma map_artefacts_to_inputs_covers regex_match csesses inputs abi :
  map_artefacts_to_inputs regex_match csesses inputs = Ok abi →
  covers inputs abi.
Proof.
  unfold map_artefacts_to_inputs, covers. intros Hrun j jv Hin.
  assert (Hj : j ∈ Dict.keys inputs).
  { unfold Dict.keys. apply list_elem_of_fmap. by exists (j, jv). }
  revert Hrun.
  apply (for_each_invariant (λ m : gmap string (list string), is_Some (m !! j))).
  - intros m [k kv] m' Hm Hbody.
    apply bind_Ok_inv in Hbody as ([cs|] & _ & Hbody).
    + apply bind_Ok_inv in Hbody as (found & _ & Hbody). injection Hbody as <-.
      destruct (decide (k = j)) as [->|Hne].
      * rewrite lookup_insert_eq. eauto.
      * by rewrite lookup_insert_ne.
    + by injection Hbody as <-.
  - apply elem_of_dom. rewrite dom_list_to_map_L. apply elem_of_list_to_set.
    rewrite <- list_fmap_compose. apply list_elem_of_fmap. by exists j.
Qed.

(** In the pipeline the gate needs no assumption on the mapping: it is the
    one the mapper has just built. *)
Lemma gate_after_mapping regex_match csesses inputs sources imap artefacts
    abi i iv :
  map_artefacts_to_inputs regex_match csesses inputs = Ok abi →
  (i, iv) ∈ inputs → required iv = true → abi !! i = Some [] →
  generate_parameter_matrix inputs sources imap artefacts abi = Ok [].
Proof.
  intros Hmap Hin Hreq Hi. unfold generate_parameter_matrix.
  rewrite (inputs_present_false inputs abi i iv);
    eauto using map_artefacts_to_inputs_covers.
Qed.

(** ** Reconciliation *)

Lemma zip_with_twice {A B} (f g : A → B → B) (m : list A) (acc : list B) :
  zip_with g m (zip_with f m acc) = zip_with (λ p x, g p (f p x)) m acc.
Proof.
  revert acc. induction m as [|p m IH]; intros [|x acc]; simpl; [done..|].
  by rewrite IH.
Qed.

Lemma reconcile_all_retrieved casrs (m : list Row) acc :
  (∀ casr, casr ∈ casrs → is_Some (get_inputs casr)) →
  length acc = length m →
  reconcile casrs m acc =
    Some (zip_with (λ p found, found ++ matching p casrs) m acc).
Proof.
  revert acc. induction casrs as [|casr rest IH]; intros acc Hall Hlen; simpl.
  - f_equal. revert acc Hlen.
    induction m as [|p m IHm]; intros [|x acc] Hlen; simplify_eq/=; [done|].
    unfold matching at 1. rewrite filter_nil, app_nil_r. f_equal. by apply IHm.
  - destruct (Hall casr) as [inputs Hin]; [left|]. rewrite Hin.
    rewrite IH.
    + unfold pair_entity. rewrite zip_with_twice. f_equal.
      apply zip_with_ext; [|done..]. intros p found.
      unfold matching. rewrite filter_cons, Hin. simpl.
      destruct (decide (decoded inputs = p)) as [->|Hne].
      * rewrite decide_True by done. by rewrite <- app_assoc.
      * rewrite decide_False by congruence. done.
    + intros c Hc. apply Hall. by right.
    + unfold pair_entity. rewrite length_zip_with. lia.
Qed.

Lemma reconcile_not_retrieved casrs (m : list Row) acc casr :
  casr ∈ casrs → get_inputs casr = None → reconcile casrs m acc = None.
Proof.
  revert acc. induction casrs as [|c rest IH]; intros acc Hin Hnone.
  - by apply elem_of_nil in Hin.
  - simpl. apply elem_of_cons in Hin as [<-|Hin]; [by rewrite Hnone|].
    destruct (get_inputs c); [by apply IH | done].
Qed.

Lemma zip_fresh_columns (f : Row → list Entity) (m : list Row) :
  zip m (zip_with (λ p found, found ++ f p) m (replicate (length m) [])) =
  (λ p, (p, f p)) <$> m.
Proof. induction m as [|p m IH]; simpl; [done|]. by rewrite IH. Qed.

(** C7.  Reconciliation pairs every candidate row, in order, with exactly
    the entities of the target type whose recorded mapping equals the row as
    a whole mapping (same keys, same values): one entry per row, holding all
    of its matches.  The mapping {T1: p1} matches the row {T1: p1} and does
    not match the row {T1: p1, T2: p2}.  Every entity of the target type has
    a retrievable mapping here; the other case is C8. *)
Theorem compare_to_existing_exact
    (csess : Session) (rest : list Session) (proc_type : string)
    (parameter_matrix : list Row) :
  Forall (λ casr, is_Some (get_inputs casr))
         (of_type proc_type (assessors csess)) →
  compare_to_existing (csess :: rest) proc_type parameter_matrix =
    Ok ((λ p, (p, matching p (of_type proc_type (assessors csess))))
          <$> parameter_matrix)
  ∧ (∀ casr p,
       casr ∈ matching p (of_type proc_type (assessors csess)) ↔
       casr ∈ assessors csess ∧ type_ casr = proc_type ∧
       ∃ inputs, get_inputs casr = Some inputs ∧
                 dom p = dom inputs ∧
                 ∀ k v, inputs !! k = Some v → p !! k = Some (VStr v))
  ∧ decoded {["T1" := "p1"]} = {["T1" := VStr "p1"]}
  ∧ decoded {["T1" := "p1"]} ≠ <["T2" := VStr "p2"]> {["T1" := VStr "p1"]}.
Proof.
  intros Hall. split; [|split; [|split]].
  - unfold compare_to_existing. simpl.
    rewrite reconcile_all_retrieved.
    + by rewrite zip_fresh_columns.
    + intros casr Hin. by eapply Forall_forall in Hall.
    + by rewrite length_replicate.
  - intros casr p. unfold matching, of_type.
    rewrite !list_elem_of_filter. split.
    + intros (Heq & Hty & Hin). split; [done|]. split; [done|].
      destruct (get_inputs casr) as [inputs|]; [|done].
      injection Heq as <-. exists inputs. split; [done|]. split.
      * unfold decoded. by rewrite dom_fmap_L.
      * intros k v Hk. unfold decoded. by rewrite lookup_fmap, Hk.
    + intros (Hin & Hty & inputs & Hget & Hdom & Hval).
      split; [|done]. rewrite Hget. simpl. f_equal. apply map_eq. intros k.
      unfold decoded. rewrite lookup_fmap.
      destruct (inputs !! k) as [v|] eqn:Hk; simpl.
      * symmetry. by apply Hval.
      * symmetry. apply not_elem_of_dom. rewrite Hdom.
        by apply not_elem_of_dom.
  - unfold decoded. by rewrite map_fmap_singleton.
  - unfold decoded. rewrite map_fmap_singleton. intros Heq.
    apply (f_equal (λ m : Row, m !! "T2")) in Heq.
    by rewrite lookup_insert_eq, lookup_singleton_ne in Heq.
Qed.

(** C8.  If one entity of the target type has no retrievable mapping, the
    whole reconciliation returns the empty list: no row is paired. *)
Theorem compare_to_existing_fail_closed
    (csess : Session) (rest : list Session) (proc_type : string)
    (parameter_matrix : list Row) (casr : Entity) :
  casr ∈ assessors csess →
  type_ casr = proc_type →
  get_inputs casr = None →
  compare_to_existing (csess :: rest) proc_type parameter_matrix = Ok [].
Proof.
  intros Hin Hty Hnone. unfold compare_to_existing. simpl.
  rewrite (reconcile_not_retrieved _ _ _ casr); [done| |done].
  unfold of_type. by apply list_elem_of_filter.
Qed.

(** ** The ordering check of [parse_session] *)

Lemma non_increasing_cons a l :
  non_increasing (a :: l) ↔
  Forall (λ b, creation_timestamp_ b ≤ creation_timestamp_ a) l
  ∧ non_increasing l.
Proof.
  unfold non_increasing. split.
  - intros H. split.
    + apply Forall_lookup. intros j b Hb. by apply (H O (S j) a b); [lia|..].
    + intros i j x y Hij Hx Hy. by apply (H (S i) (S j)); [lia|..].
  - intros [Hhd Htl] [|i] [|j] x y Hij Hx Hy; try lia; simpl in *.
    + injection Hx as <-. by eapply Forall_lookup in Hhd.
    + apply (Htl i j); [lia|done..].
Qed.

Lemma check_order_cases sessions :
  check_order sessions = Ok () ∨ check_order sessions = Raise not_ordered.
Proof.
  induction sessions as [|a [|b l] IH]; simpl; [by left..|].
  destruct (decide _); [by right | done].
Qed.

Lemma check_order_Ok_iff sessions :
  check_order sessions = Ok () ↔ non_increasing sessions.
Proof.
  induction sessions as [|a [|b l] IH].
  - split; [|done]. by intros _ i j a b _ Hi.
  - split; [|done]. intros _. apply non_increasing_cons. split; [done|].
    by intros i j x y _ Hi.
  - change (check_order (a :: b :: l)) with
      (if decide (creation_timestamp_ a < creation_timestamp_ b)
       then Raise not_ordered else check_order (b :: l)).
    rewrite (non_increasing_cons a). destruct (decide _) as [Hlt|Hge].
    + split; [done|]. intros [Hhd _]. inversion Hhd; lia.
    + rewrite IH. split; [|by intros [_ ?]].
      intros Htl. split; [|done].
      apply non_increasing_cons in Htl as [Hb _].
      apply Forall_cons. split; [lia|].
      eapply Forall_impl; [exact Hb|]. simpl. intros; lia.
Qed.

Lemma strictly_descending_non_increasing sessions :
  strictly_descending sessions → non_increasing sessions.
Proof. intros H i j a b Hij Ha Hb. specialize (H i j a b Hij Ha Hb). lia. Qed.

(** ** No later stage raises the ordering error *)

Lemma quiet_Ok {A} (a : A) : quiet (Ok a).
Proof. done. Qed.

Lemma quiet_Raise {A} (e : PyError) : e ≠ not_ordered → quiet (@Raise A e).
Proof. unfold quiet. congruence. Qed.

Lemma quiet_bind {A B} (r : result A) (f : A → result B) :
  quiet r → (∀ a, quiet (f a)) → quiet (r ≫= f).
Proof.
  intros Hr Hf. destruct r as [a|e]; [apply Hf|].
  unfold quiet in *. simpl. congruence.
Qed.

Lemma quiet_fmap {A B} (r : result A) (f : A → B) : quiet r → quiet (f <$> r).
Proof. destruct r; unfold quiet; simpl; congruence. Qed.

Lemma quiet_traverse {A B} (f : A → result B) (l : list A) :
  (∀ x, quiet (f x)) → quiet (traverse f l).
Proof.
  intros Hf. induction l as [|x l IH]; simpl; [done|].
  apply quiet_bind; [done|]. intros y. apply quiet_bind; [done|]. done.
Qed.

Lemma quiet_for_each {S A} (body : S → A → result S) (l : list A) (st : S) :
  (∀ s x, quiet (body s x)) → quiet (for_each body st l).
Proof.
  intros Hb. revert st. induction l as [|x l IH]; simpl; intros st; [done|].
  by apply quiet_bind.
Qed.

Ltac quiet_step :=
  match goal with
  | |- quiet (Ok _) => apply quiet_Ok
  | |- quiet (Raise _) => apply quiet_Raise; discriminate
  | |- quiet (_ ≫= _) => apply quiet_bind; [|intros ?]
  | |- quiet (_ <$> _) => apply quiet_fmap
  | |- quiet (traverse _ _) => apply quiet_traverse; intros ?
  | |- quiet (for_each _ _ _) => apply quiet_for_each; intros ? ?
  | |- quiet (match ?x with _ => _ end) => destruct x
  | |- quiet (let _ := _ in _) => simpl
  end.

Ltac quiet := repeat quiet_step.

Lemma quiet_getitem {V} (d : gmap string V) k : quiet (getitem d k).
Proof. unfold getitem. quiet. Qed.

Lemma quiet_index {A} (l : list A) i : quiet (index l i).
Proof. unfold index. quiet. Qed.

Lemma quiet_index_Z {A} (l : list A) i : quiet (index_Z l i).
Proof. unfold index_Z. quiet; apply quiet_index. Qed.

Lemma quiet_Dict_getitem {V} (d : Dict.t V) k : quiet (Dict.getitem d k).
Proof. unfold Dict.getitem. quiet. Qed.

Create HintDb quiet.

#[local] Hint Resolve quiet_getitem quiet_index quiet_index_Z
  quiet_Dict_getitem : quiet.

Ltac quiet_auto := quiet; eauto with quiet.

Lemma quiet_list_index sessions csess : quiet (list_index sessions csess).
Proof.
  induction sessions as [|s l IH]; simpl; [quiet|].
  destruct (decide _); [quiet | by apply quiet_fmap].
Qed.

Lemma quiet_map_artefacts_to_inputs regex_match csesses inputs :
  quiet (map_artefacts_to_inputs regex_match csesses inputs).
Proof.
  unfold map_artefacts_to_inputs, governing_session, candidates_in.
  quiet_auto.
  induction (types _) as [|e es IH]; simpl; quiet_auto.
Qed.

Lemma quiet_inputs_present inputs abi : quiet (inputs_present inputs abi).
Proof. induction inputs as [|[i iv] rest IH]; simpl; quiet_auto. Qed.

Lemma quiet_attach inputs artefacts san i kv :
  quiet (attach inputs artefacts san i kv).
Proof. unfold attach, split_reference, from_column. quiet_auto. Qed.

Lemma quiet_source_dimension inputs imap artefacts san i :
  quiet (source_dimension inputs imap artefacts san i).
Proof.
  unfold source_dimension, combined_input_vector, min_entry_count,
    merged_input_vector.
  quiet_auto; apply quiet_attach.
Qed.

Lemma quiet_build_row headers r row : quiet (build_row headers r row).
Proof.
  revert r row. induction headers as [|h hs IH]; intros [|x r] row; simpl;
    quiet_auto.
Qed.

Lemma quiet_generate_parameter_matrix inputs sources imap artefacts abi :
  quiet (generate_parameter_matrix inputs sources imap artefacts abi).
Proof.
  unfold generate_parameter_matrix, sanitised_inputs, unpack_dimensions.
  quiet_auto;
    auto using quiet_inputs_present, quiet_source_dimension, quiet_build_row.
Qed.

Lemma quiet_get_input_value name parameter artefacts :
  quiet (get_input_value name parameter artefacts).
Proof. unfold get_input_value, split_reference. quiet_auto. Qed.

Lemma quiet_filter_matrix matrix filters artefacts :
  quiet (filter_matrix matrix filters artefacts).
Proof.
  unfold filter_matrix, filter_holds. quiet_auto;
    auto using quiet_get_input_value.
  induction (drop 1 _) as [|n ns IH]; simpl; quiet_auto;
    auto using quiet_get_input_value.
Qed.

Lemma quiet_compare_to_existing csesses proc_type matrix :
  quiet (compare_to_existing csesses proc_type matrix).
Proof. unfold compare_to_existing. quiet_auto. Qed.

(** C6, as the code has it.  [parse_session] raises the ordering error
    exactly when the timestamps rise somewhere in the sequence, and it does
    so whatever the parser, the session of interest and the stores hold: no
    later stage has run.  A sequence that never rises, a strictly descending
    one in particular, does not meet the error; equal neighbouring
    timestamps are accepted. *)
Theorem parse_session_ordering
    (regex_match : string → string → bool)
    (set_iter : gset string → list string)
    (self : ProcessorParser) (csess : Session) (sessions : list Session) :
  (¬ non_increasing sessions →
   parse_session regex_match set_iter self csess sessions = Raise not_ordered)
  ∧ (non_increasing sessions →
     parse_session regex_match set_iter self csess sessions ≠ Raise not_ordered)
  ∧ (strictly_descending sessions →
     parse_session regex_match set_iter self csess sessions ≠ Raise not_ordered).
Proof.
  assert (Hquiet : non_increasing sessions →
    quiet (parse_session regex_match set_iter self csess sessions)).
  { intros Hord. apply check_order_Ok_iff in Hord.
    unfold parse_session. rewrite Hord. simpl.
    quiet_auto;
      auto using quiet_list_index, quiet_map_artefacts_to_inputs,
        quiet_generate_parameter_matrix, quiet_filter_matrix,
        quiet_compare_to_existing. }
  split; [|split].
  - intros Hord. unfold parse_session.
    destruct (check_order_cases sessions) as [Hok|Hraise].
    + by apply check_order_Ok_iff in Hok.
    + by rewrite Hraise.
  - exact Hquiet.
  - intros Hdesc. by apply Hquiet, strictly_descending_non_increasing.
Qed.

(** Against C6 as stated.  Equal neighbouring timestamps are not strictly
    descending, and [parse_session] accepts them: it runs to completion. *)
Lemma equal_timestamps_accepted :
  ¬ strictly_descending [session_at 5; session_at 5]
  ∧ parse_session (λ _ _, false) elements bare_parser (session_at 5)
                  [session_at 5; session_at 5]
    = Ok {| artefacts := ∅; artefacts_by_input := ∅;
            parameter_matrix := [∅];
            assessor_parameter_map := [(∅, [])] |}.
Proof.
  split; [|reflexivity].
  intros H.
  pose proof (H 0%nat 1%nat (session_at 5) (session_at 5)) as Hlt.
  simpl in Hlt. specialize (Hlt ltac:(lia) eq_refl eq_refl). lia.
Qed.

(** ** The selection grammar and the registry *)

Lemma get_args_nonempty statement args :
  _get_args statement = Ok args → ∃ token, args !! 0%nat = Some token.
Proof.
  unfold _get_args.
  destruct (Str.find "(" statement), (Str.find ")" statement);
    intros Heq; simplify_eq; eauto.
Qed.

Lemma get_args_well_formed statement :
  well_formed statement → ∃ args, _get_args statement = Ok args.
Proof.
  unfold well_formed, _get_args.
  destruct (Str.find "(" statement), (Str.find ")" statement);
    intros [H1 H2]; eauto.
  - destruct H1 as [? ?]; [eauto | done].
  - destruct H2 as [? ?]; [eauto | done].
Qed.

Lemma get_args_malformed statement :
  ¬ well_formed statement → _get_args statement = Raise malformed.
Proof.
  unfold well_formed, _get_args.
  destruct (Str.find "(" statement), (Str.find ")" statement);
    intros H; try done; exfalso; apply H; split; eauto.
Qed.

Lemma register_unrecognised name args token reg :
  args !! 0%nat = Some token →
  token ∉ ["foreach"; "one"; "all"; "from"] →
  _register_iteration_references name args reg = Ok reg.
Proof.
  intros Hargs Hout. unfold _register_iteration_references.
  rewrite (index_Some _ _ _ Hargs). simpl.
  repeat (destruct (decide _) as [->|?];
          [exfalso; apply Hout; rewrite !elem_of_cons; tauto|]).
  done.
Qed.

(** C5, as the code has it.  A well-formed artefact-select string is
    accepted by the parser whatever its mode token; when the token is
    outside the recognised set, registration accepts it too and leaves both
    registries as they were: it raises nothing. *)
Theorem unrecognised_select_mode_is_ignored
    (statement name : string) (reg : Registry) :
  well_formed (Str.strip statement) →
  ∃ args token,
    _parse_select (Some statement) = Ok args
    ∧ args !! 0%nat = Some token
    ∧ (token ∉ select_namespace →
       _register_iteration_references name args reg = Ok reg).
Proof.
  intros Hwf. unfold _parse_select. simpl.
  destruct (get_args_well_formed _ Hwf) as [args Hargs].
  destruct (get_args_nonempty _ _ Hargs) as [token Htok].
  exists args, token. split; [done|]. split; [done|].
  intros Hout. apply (register_unrecognised _ _ token); [done|].
  intros Hin. apply Hout. unfold select_namespace.
  rewrite !elem_of_cons, elem_of_nil in *. tauto.
Qed.

(** Against C5 as stated.  The token [bogus] is well formed and
    unrecognised: the select parser returns it and registration returns
    normally, nothing registered; as a session-select token it does not get
    past the parser. *)
Lemma unrecognised_mode_not_rejected :
  ("bogus" ∉ select_namespace)
  ∧ ("bogus" ∉ select_session_namespace)
  ∧ _parse_select (Some "bogus") = Ok ["bogus"]
  ∧ _register_iteration_references "T1" ["bogus"] empty_registry
    = Ok empty_registry
  ∧ _parse_session_select (λ _, None) (Some "bogus") = Raise UnboundLocalError.
Proof.
  unfold select_namespace, select_session_namespace.
  repeat split; try reflexivity;
    rewrite !elem_of_cons, elem_of_nil; intros H;
    repeat destruct H as [H|H]; discriminate || done.
Qed.

(** *** Classification of the recognised directives *)

Lemma Dict_get_set {V} (d : Dict.t V) k v k' :
  Dict.get (Dict.set k v d) k' =
  if decide (k = k') then Some v else Dict.get d k'.
Proof.
  induction d as [|[j w] d IH]; simpl.
  - done.
  - destruct (decide (j = k)) as [->|Hjk]; simpl.
    + by destruct (decide (k = k')).
    + rewrite IH. destruct (decide (j = k')) as [->|Hjk'].
      * by rewrite decide_False by done.
      * done.
Qed.

Lemma add_source_spec name reg n :
  (is_source n (add_source name reg) ↔ n = name ∨ is_source n reg)
  ∧ (is_dependent n (add_source name reg) ↔ is_dependent n reg).
Proof.
  unfold is_source, is_dependent, add_source. simpl.
  rewrite elem_of_union, elem_of_singleton. done.
Qed.

Lemma add_mapping_spec name ref reg n :
  (is_source n (add_mapping name ref reg) ↔ is_source n reg)
  ∧ (is_dependent n (add_mapping name ref reg) ↔ n = name ∨ is_dependent n reg).
Proof.
  unfold is_source, is_dependent, add_mapping. simpl. split; [done|].
  rewrite Dict_get_set. destruct (decide (name = n)) as [->|Hne].
  - split; [by left | eauto].
  - split; [by right | by intros [->|?]].
Qed.

(** What one registration does: exactly one of three things. *)
Lemma register_effect name args reg reg' :
  _register_iteration_references name args reg = Ok reg' →
  (source_directive args ∧ ¬ dependent_directive args
   ∧ reg' = add_source name reg)
  ∨ (dependent_directive args ∧ ¬ source_directive args
     ∧ ∃ ref, reg' = add_mapping name ref reg)
  ∨ (¬ source_directive args ∧ ¬ dependent_directive args ∧ reg' = reg).
Proof.
  unfold _register_iteration_references, source_directive, dependent_directive.
  destruct args as [|a0 rest]; [done|]. simpl.
  destruct (decide (a0 = "foreach")) as [->|Hn1].
  - destruct rest as [|a1 rest]; simpl.
    + intros [= <-]. left. split; [by left|]. split; [|done].
      intros [[_ ?]|[=]]. done.
    + intros [= <-]. right. left. split; [by left|]. split; [|by eexists].
      intros [[=]|[[=]|[=]]].
  - destruct (decide (a0 = "one")) as [->|Hn2].
    { intros [= <-]. left. split; [by right; left|]. split; [|done].
      intros [[[=] _]|[=]]. }
    destruct (decide (a0 = "all")) as [->|Hn3].
    { intros [= <-]. left. split; [by right; right|]. split; [|done].
      intros [[[=] _]|[=]]. }
    destruct (decide (a0 = "from")) as [->|Hn4].
    { destruct rest as [|a1 rest]; simpl; [done|].
      intros [= <-]. right. left. split; [by right|]. split; [|by eexists].
      intros [[=]|[[=]|[=]]]. }
    intros [= <-]. right. right. split; [|split; [|done]].
    + intros [[=]|[[=]|[=]]]; congruence.
    + intros [[[=] _]|[=]]; congruence.
Qed.

Lemma parse_scan_registers py_int st s st' :
  parse_scan py_int st s = Ok st' →
  ∃ args, _parse_select (y_select s) = Ok args
          ∧ _register_iteration_references (y_name s) args (ps_registry st)
            = Ok (ps_registry st').
Proof.
  unfold parse_scan. intros Hrun.
  apply bind_Ok_inv in Hrun as (args & Hargs & Hrun).
  apply bind_Ok_inv in Hrun as (ss & _ & Hrun).
  apply bind_Ok_inv in Hrun as (reg & Hreg & [= <-]).
  by exists args.
Qed.

Lemma parse_assessor_registers py_int st a st' :
  parse_assessor py_int st a = Ok st' →
  ∃ args, _parse_select (y_select a) = Ok args
          ∧ _register_iteration_references (y_name a) args (ps_registry st)
            = Ok (ps_registry st').
Proof.
  unfold parse_assessor. intros Hrun.
  apply bind_Ok_inv in Hrun as (args & Hargs & Hrun).
  apply bind_Ok_inv in Hrun as (ss & _ & Hrun).
  apply bind_Ok_inv in Hrun as (reg & Hreg & Hrun).
  apply bind_Ok_inv in Hrun as (req & _ & [= <-]).
  by exists args.
Qed.

Section Loop.

Context (body : ParseState → YamlInput → result ParseState).

Hypothesis body_registers : ∀ st y st',
  body st y = Ok st' →
  ∃ args, _parse_select (y_select y) = Ok args
          ∧ _register_iteration_references (y_name y) args (ps_registry st)
            = Ok (ps_registry st').

(** A loop over inputs with distinct names that are in neither registry at
    the start classifies each of them and leaves every other name alone. *)
Lemma loop_classifies l st st' :
  for_each body st l = Ok st' →
  NoDup (y_name <$> l) →
  (∀ y, y ∈ l → ¬ is_source (y_name y) (ps_registry st)
                ∧ ¬ is_dependent (y_name y) (ps_registry st)) →
  (∀ n, n ∉ y_name <$> l →
        (is_source n (ps_registry st') ↔ is_source n (ps_registry st))
        ∧ (is_dependent n (ps_registry st') ↔ is_dependent n (ps_registry st)))
  ∧ ∀ y, y ∈ l → classified (ps_registry st') y.
Proof.
  revert st. induction l as [|y l IH]; intros st Hrun Hnd Hfresh.
  - injection Hrun as <-. split; [done|]. by intros y ?%elem_of_nil.
  - simpl in Hrun. apply bind_Ok_inv in Hrun as (st1 & Hstep & Hrun).
    rewrite fmap_cons in Hnd. apply NoDup_cons in Hnd as [Hy Hnd].
    destruct (body_registers _ _ _ Hstep) as (args & Hargs & Hreg).
    destruct (Hfresh y ltac:(left)) as [Hns Hnd0].
    assert (Hother : ∀ n, n ≠ y_name y →
      (is_source n (ps_registry st1) ↔ is_source n (ps_registry st))
      ∧ (is_dependent n (ps_registry st1) ↔ is_dependent n (ps_registry st))).
    { intros n Hn.
      destruct (register_effect _ _ _ _ Hreg)
        as [(_ & _ & ->)|[(_ & _ & ref & ->)|(_ & _ & ->)]].
      - destruct (add_source_spec (y_name y) (ps_registry st) n). tauto.
      - destruct (add_mapping_spec (y_name y) ref (ps_registry st) n). tauto.
      - done. }
    assert (Hhere : classified (ps_registry st1) y).
    { exists args. split; [done|].
      destruct (register_effect _ _ _ _ Hreg)
        as [(Hs & Hd & ->)|[(Hd & Hs & ref & ->)|(Hs & Hd & ->)]].
      - destruct (add_source_spec (y_name y) (ps_registry st) (y_name y)).
        tauto.
      - destruct (add_mapping_spec (y_name y) ref (ps_registry st) (y_name y)).
        tauto.
      - tauto. }
    destruct (IH st1 Hrun Hnd) as [Hrest Hclass].
    { intros z Hz. destruct (Hfresh z ltac:(by right)) as [? ?].
      destruct (Hother (y_name z)); [|tauto].
      intros Heq. apply Hy. rewrite <- Heq. apply list_elem_of_fmap. eauto. }
    split.
    + intros n Hn. rewrite fmap_cons, not_elem_of_cons in Hn.
      destruct Hn as [Hn1 Hn2].
      destruct (Hrest n Hn2), (Hother n Hn1). tauto.
    + intros z [->|Hz]%elem_of_cons; [|by apply Hclass].
      destruct (Hrest (y_name y) Hy) as [Hs Hd].
      destruct Hhere as (args' & Hargs' & H1 & H2 & H3).
      exists args'. split; [done|]. tauto.
Qed.

End Loop.

(** For a specification that parses and declares each name once, every
    input is classified by its directive alone: an ungrouped [foreach], a
    [one] or an [all] input is an iteration source only; a grouped
    [foreach] or a [from] input is a dependent only; any other input, a
    [some(count)] one included, is in neither registry. *)
Lemma parse_inputs_classifies py_int xnat st :
  parse_inputs py_int (Some xnat) = Ok st →
  NoDup (y_name <$> (x_scans xnat ++ x_assessors xnat)) →
  ∀ y, y ∈ x_scans xnat ++ x_assessors xnat → classified (ps_registry st) y.
Proof.
  unfold parse_inputs. intros Hrun Hnd y Hy.
  apply bind_Ok_inv in Hrun as (st1 & Hscans & Hasrs).
  rewrite fmap_app in Hnd. apply NoDup_app in Hnd as (Hnd1 & Hdisj & Hnd2).
  destruct (loop_classifies _ (parse_scan_registers py_int) _ _ _ Hscans Hnd1)
    as [Hrest1 Hclass1].
  { intros z _. unfold is_source, is_dependent. simpl.
    split; [apply not_elem_of_empty | by intros [? ?]]. }
  destruct (loop_classifies _ (parse_assessor_registers py_int) _ _ _ Hasrs Hnd2)
    as [Hrest2 Hclass2].
  { intros z Hz.
    assert (Hfresh : y_name z ∉ y_name <$> x_scans xnat).
    { intros Hin. apply (Hdisj _ Hin). apply list_elem_of_fmap. eauto. }
    destruct (Hrest1 _ Hfresh) as [Hs Hd]. rewrite Hs, Hd.
    unfold is_source, is_dependent. simpl.
    split; [apply not_elem_of_empty | by intros [? ?]]. }
  apply elem_of_app in Hy as [Hy|Hy]; [|by apply Hclass2].
  destruct (Hclass1 y Hy) as (args & Hargs & H1 & H2 & H3).
  assert (Hfresh : y_name y ∉ y_name <$> x_assessors xnat).
  { intros Hin. apply (Hdisj (y_name y)); [|done].
    apply list_elem_of_fmap. eauto. }
  destruct (Hrest2 _ Hfresh) as [Hs Hd].
  exists args. split; [done|]. tauto.
Qed.

(** C3 at a [some(count)] input.  The specification parses, [T1] is a
    declared input, and it is in neither registry.  C4 meets the same
    missing branch. *)
Theorem some_input_is_unclassified (py_int : string → option Z) :
  ∃ st,
    parse_inputs py_int (Some some_spec) = Ok st
    ∧ Dict.keys (ps_inputs st) = ["T1"]
    ∧ select <$> Dict.get (ps_inputs st) "T1" = Some ["some"; "2"]
    ∧ ("T1" ∉ iteration_sources (ps_registry st))
    ∧ Dict.get (iteration_map (ps_registry st)) "T1" = None.
Proof.
  eexists. split; [reflexivity|]. repeat split; try reflexivity.
  simpl. apply not_elem_of_empty.
Qed.

(** C4 at [some(2)] with the single candidate [p1].  The count reaches the
    generator as the string [2].  Through the parser the input is never an
    iteration source, so the matrix is one row without the key [T1]; with
    [T1] handed over as a source the comparison of the candidate count with
    that string raises. *)
Theorem some_directive_not_applied (py_int : string → option Z) :
  ∃ st,
    parse_inputs py_int (Some some_spec) = Ok st
    ∧ required <$> Dict.get (ps_inputs st) "T1" = Some true
    ∧ (∀ enumeration,
         enumerates enumeration (iteration_sources (ps_registry st)) →
         generate_parameter_matrix (ps_inputs st) enumeration
           (iteration_map (ps_registry st)) ∅ {["T1" := ["p1"]]} = Ok [∅])
    ∧ generate_parameter_matrix (ps_inputs st) ["T1"]
        (iteration_map (ps_registry st)) ∅ {["T1" := ["p1"]]}
      = Raise TypeError.
Proof.
  eexists. split; [reflexivity|]. split; [reflexivity|]. split.
  - intros [|x enumeration] [_ Hmem]; [reflexivity|].
    exfalso. apply (not_elem_of_empty (C:=gset string) x), Hmem. by left.
  - reflexivity.
Qed.

(** ** Loops that collect results *)

Lemma traverse_Ok_iff {A B} (f : A → result B) (l : list A) (ys : list B) :
  traverse f l = Ok ys ↔ Forall2 (λ x y, f x = Ok y) l ys.
Proof.
  revert ys. induction l as [|x l IH]; intros ys; simpl.
  - split; [by intros [= <-]; constructor | by inversion 1].
  - split.
    + intros Hrun. apply bind_Ok_inv in Hrun as (y & Hy & Hrun).
      apply bind_Ok_inv in Hrun as (ys' & Hys & [= <-]).
      constructor; [done|]. by apply IH.
    + inversion 1 as [|? y ? ys' Hy Hys]; subst.
      rewrite Hy. simpl. apply IH in Hys. by rewrite Hys.
Qed.

Lemma traverse_pure {A B} (f : A → result B) (g : A → B) (l : list A) :
  (∀ x, x ∈ l → f x = Ok (g x)) → traverse f l = Ok (g <$> l).
Proof.
  intros Hf. apply traverse_Ok_iff. apply Forall2_fmap_r, Forall_Forall2_diag.
  by apply Forall_forall.
Qed.

Lemma traverse_nil_inv {A B} (f : A → result B) (ys : list B) :
  traverse f [] = Ok ys → ys = [].
Proof. by intros [= <-]. Qed.

(** ** Truncation to the shortest column *)

Lemma foldl_min_le (n : nat) (ns : list nat) :
  (foldl Nat.min n ns ≤ n)%nat ∧ Forall (λ k, (foldl Nat.min n ns ≤ k)%nat) ns.
Proof.
  revert n. induction ns as [|k ns IH]; intros n; simpl; [by split|].
  destruct (IH (n `min` k)%nat) as [Hle Hall]. split; [lia|].
  constructor; [lia | done].
Qed.

Lemma foldl_min_elem (n : nat) (ns : list nat) :
  foldl Nat.min n ns ∈ n :: ns.
Proof.
  revert n. induction ns as [|k ns IH]; intros n; simpl; [by left|].
  specialize (IH (n `min` k)%nat).
  apply elem_of_cons in IH as [Heq|Hin].
  - rewrite Heq. destruct (Nat.min_spec n k) as [[_ ->]|[_ ->]];
      [by left | by right; left].
  - by do 2 right.
Qed.

Lemma min_entry_count_spec combined n :
  min_entry_count combined = Ok n →
  Forall (λ col, (n ≤ length col)%nat) combined
  ∧ Exists (λ col, length col = n) combined.
Proof.
  unfold min_entry_count. destruct combined as [|col cols]; [done|].
  simpl. intros [= <-].
  destruct (foldl_min_le (length col) (length <$> cols)) as [Hhd Htl].
  split.
  - constructor; [done|]. rewrite Forall_fmap in Htl. exact Htl.
  - pose proof (foldl_min_elem (length col) (length <$> cols)) as Hin.
    apply elem_of_cons in Hin as [Heq|Hin].
    + by left.
    + right. apply list_elem_of_fmap in Hin as (c & Hc & Hin).
      apply Exists_exists. by exists c.
Qed.

Lemma min_entry_count_cons col cols :
  ∃ n, min_entry_count (col :: cols) = Ok n.
Proof. unfold min_entry_count. simpl. eauto. Qed.

(** Row [row] of the transposition, when every column reaches it. *)
Lemma fragment_in_range (combined : list (list Value)) (row : nat) :
  Forall (λ col, (row < length col)%nat) combined →
  ∃ frag, traverse (λ col, index col row) combined = Ok frag.
Proof.
  induction 1 as [|col cols Hlt _ [frag IH]]; simpl; [eauto|].
  apply lookup_lt_is_Some_2 in Hlt as [x Hx].
  rewrite (index_Some _ _ _ Hx), IH. simpl. eauto.
Qed.

Lemma merged_input_vector_total combined n :
  Forall (λ col, (n ≤ length col)%nat) combined →
  ∃ merged, merged_input_vector combined n = Ok merged.
Proof.
  intros Hle. unfold merged_input_vector.
  assert (Hrows : ∀ row, row ∈ seq 0 n →
            ∃ frag, traverse (λ col : list Value, index col row) combined
                    = Ok frag).
  { intros row Hrow. apply elem_of_seq in Hrow. apply fragment_in_range.
    eapply Forall_impl; [exact Hle|]. simpl. intros; lia. }
  induction (seq 0 n) as [|row rows IH]; simpl; [eauto|].
  destruct (Hrows row) as [frag ->]; [by left|].
  destruct IH as [merged ->]; [|simpl; eauto].
  intros r Hr. apply Hrows. by right.
Qed.

Lemma merged_input_vector_spec combined n merged :
  merged_input_vector combined n = Ok merged →
  length merged = n
  ∧ ∀ k frag, merged !! k = Some frag →
              Forall2 (λ col x, col !! k = Some x) combined frag.
Proof.
  unfold merged_input_vector. intros Hrun.
  apply traverse_Ok_iff in Hrun. split.
  - apply Forall2_length in Hrun. by rewrite length_seq in Hrun.
  - intros k frag Hk.
    destruct (Forall2_lookup_r _ _ _ _ _ Hrun Hk) as (row & Hrow & Hfrag).
    apply lookup_seq in Hrow as [-> _]. simpl in Hfrag.
    apply traverse_Ok_iff in Hfrag.
    eapply Forall2_impl; [exact Hfrag|]. simpl. intros col x.
    unfold index. destruct (col !! k); naive_solver.
Qed.

(** C9.  For a [foreach] source whose columns (its own candidates and one
    column per attached dependent) were built, whatever their lengths, the
    dimension is returned without error; it has exactly as many fragments
    as the shortest column has entries, and fragment [k] holds entry [k] of
    every column, in column order.  Entries past that length are dropped. *)
Theorem foreach_dimension_truncates
    (inputs : Dict.t InputSpec) (iteration_map : Dict.t string)
    (artefacts : gmap string ParserArtefact)
    (san : gmap string (list (option string)))
    (i : string) (iv : InputSpec) (cur : list (option string))
    (mapped_inputs : list string) (combined : list (list Value)) :
  Dict.get inputs i = Some iv →
  select iv !! 0%nat = Some "foreach" →
  san !! i = Some cur →
  combined_input_vector inputs iteration_map artefacts san i (cells cur)
    = Ok (mapped_inputs, combined) →
  ∃ merged n,
    source_dimension inputs iteration_map artefacts san i
      = Ok (mapped_inputs, Some merged)
    ∧ length merged = n
    ∧ Forall (λ col, (n ≤ length col)%nat) combined
    ∧ Exists (λ col, length col = n) combined
    ∧ ∀ k, (k < n)%nat →
           ∃ frag, merged !! k = Some frag
                   ∧ Forall2 (λ col x, col !! k = Some x) combined frag.
Proof.
  intros Hi Hsel Hcur Hcomb. unfold source_dimension.
  rewrite (Dict_getitem_Some _ _ _ Hi). simpl.
  rewrite (index_Some _ _ _ Hsel). simpl.
  rewrite (getitem_Some _ _ _ Hcur). simpl. rewrite Hcomb. simpl.
  assert (∃ n, min_entry_count combined = Ok n) as [n Hn].
  { unfold combined_input_vector in Hcomb.
    apply bind_Ok_inv in Hcomb as (attached & _ & [= _ <-]).
    apply min_entry_count_cons. }
  rewrite Hn. simpl.
  destruct (min_entry_count_spec _ _ Hn) as [Hle Hex].
  destruct (merged_input_vector_total _ _ Hle) as [merged Hm].
  rewrite Hm. simpl.
  destruct (merged_input_vector_spec _ _ _ Hm) as [Hlen Hfrag].
  exists merged, n. repeat split; try done.
  intros k Hk. rewrite <- Hlen in Hk.
  apply lookup_lt_is_Some_2 in Hk as [frag Hk]. eauto.
Qed.

(** ** The gate passes, the candidates are sanitised *)

Lemma Dict_get_elem_of {V} (d : Dict.t V) k v :
  Dict.get d k = Some v → (k, v) ∈ d.
Proof.
  induction d as [|[k' v'] d IH]; simpl; [done|].
  destruct (decide (k' = k)) as [->|Hne]; [intros [= ->]; by left|].
  intros Hget. right. by apply IH.
Qed.

Lemma inputs_present_true inputs (abi : gmap string (list string)) :
  covers inputs abi →
  (∀ j jv, (j, jv) ∈ inputs → required jv = true → abi !! j ≠ Some []) →
  inputs_present inputs abi = Ok true.
Proof.
  unfold covers. induction inputs as [|[j jv] rest IH]; intros Hcov Hreq;
    simpl; [done|].
  destruct (Hcov j jv) as [c Hc]; [left|].
  rewrite (getitem_Some _ _ _ Hc). simpl.
  destruct (bool_decide (length c = 0%nat)) eqn:Hlen,
           (required jv) eqn:Hr; simpl.
  - apply bool_decide_eq_true in Hlen. destruct c; [|done].
    by destruct (Hreq j jv ltac:(left) Hr).
  - apply IH; intros k kv Hk; [apply (Hcov k kv) | apply (Hreq k kv)];
      by right.
  - apply IH; intros k kv Hk; [apply (Hcov k kv) | apply (Hreq k kv)];
      by right.
  - apply IH; intros k kv Hk; [apply (Hcov k kv) | apply (Hreq k kv)];
      by right.
Qed.

Lemma sanitise_for_each inputs (abi : gmap string (list string))
    (acc : gmap string (list (option string))) :
  covers inputs abi →
  ∃ san,
    for_each (λ san '(i, _), c ← getitem abi i; Ok (<[i := sanitise c]> san))
             acc inputs = Ok san
    ∧ ∀ i, san !! i = if decide (i ∈ Dict.keys inputs)
                      then sanitise <$> abi !! i else acc !! i.
Proof.
  unfold covers. revert acc.
  induction inputs as [|[j jv] rest IH]; intros acc Hcov; simpl.
  - exists acc. split; [done|]. intros i. unfold Dict.keys. by simpl.
  - destruct (Hcov j jv) as [c Hc]; [left|].
    rewrite (getitem_Some _ _ _ Hc). simpl.
    destruct (IH (<[j := sanitise c]> acc)) as (san & Hrun & Hsan).
    { intros k kv Hk. apply (Hcov k kv). by right. }
    exists san. split; [done|]. intros i. rewrite Hsan.
    unfold Dict.keys in *. simpl.
    destruct (decide (i ∈ rest.*1)) as [Hin|Hnin].
    + rewrite decide_True by (by right). done.
    + destruct (decide (i = j)) as [->|Hne].
      * rewrite decide_True by (by left). by rewrite lookup_insert_eq, Hc.
      * rewrite decide_False by (by intros [?|?]%elem_of_cons).
        by rewrite lookup_insert_ne.
Qed.

Lemma sanitised_inputs_spec inputs (abi : gmap string (list string)) :
  covers inputs abi →
  ∃ san,
    sanitised_inputs inputs abi = Ok san
    ∧ ∀ i iv c, Dict.get inputs i = Some iv → abi !! i = Some c →
                san !! i = Some (sanitise c).
Proof.
  intros Hcov. destruct (sanitise_for_each inputs abi ∅ Hcov) as (san & Hrun & Hsan).
  exists san. split; [done|]. intros i iv c Hi Hc. rewrite Hsan.
  rewrite decide_True, Hc; [done|].
  unfold Dict.keys. apply list_elem_of_fmap. exists (i, iv).
  split; [done|]. by apply Dict_get_elem_of.
Qed.

Lemma sanitise_nonempty c : c ≠ [] → sanitise c = Some <$> c.
Proof. unfold sanitise. by destruct c. Qed.

Lemma sanitise_empty : sanitise [] = [None].
Proof. done. Qed.

(** ** Independent [foreach] sources *)

Lemma traverse_app {A B} (f : A → result B) l1 l2 y1 y2 :
  traverse f l1 = Ok y1 → traverse f l2 = Ok y2 →
  traverse f (l1 ++ l2) = Ok (y1 ++ y2).
Proof. rewrite !traverse_Ok_iff. apply Forall2_app. Qed.

(** A [foreach] source with no dependent contributes one single-cell
    fragment per candidate. *)
Lemma foreach_alone inputs artefacts san s iv cur :
  Dict.get inputs s = Some iv →
  select iv !! 0%nat = Some "foreach" →
  san !! s = Some cur →
  source_dimension inputs [] artefacts san s
    = Ok ([s], Some ((λ x, [VAtom x]) <$> cur)).
Proof.
  intros Hs Hsel Hcur. unfold source_dimension.
  rewrite (Dict_getitem_Some _ _ _ Hs). simpl.
  rewrite (index_Some _ _ _ Hsel). simpl.
  rewrite (getitem_Some _ _ _ Hcur). simpl.
  destruct (merged_input_vector_total [cells cur] (length (cells cur)))
    as [merged Hm]; [by repeat constructor|].
  rewrite Hm. simpl.
  destruct (merged_input_vector_spec _ _ _ Hm) as [Hlen Hfrag].
  do 3 f_equal. apply list_eq. intros k.
  rewrite list_lookup_fmap.
  destruct (merged !! k) as [frag|] eqn:Hk.
  - apply Hfrag in Hk.
    apply Forall2_cons_inv_l in Hk as (x & rest & Hx & Hrest & ->).
    apply Forall2_nil_inv_l in Hrest as ->.
    unfold cells in Hx. rewrite list_lookup_fmap in Hx.
    destruct (cur !! k); simplify_eq/=. done.
  - apply lookup_ge_None in Hk. unfold cells in Hlen.
    rewrite length_fmap in Hlen. rewrite lookup_ge_None_2; [done|lia].
Qed.

Lemma rows_of_two s1 s2 (c1 c2 : list string) :
  traverse (λ r, build_row [s1; s2] r ∅)
           ((λ x, concat x) <$>
              product [(λ x, [VAtom x]) <$> (Some <$> c1);
                       (λ x, [VAtom x]) <$> (Some <$> c2)])
  = Ok (lexicographic s1 s2 c1 c2).
Proof.
  unfold lexicographic. induction c1 as [|a c1 IH]; [done|].
  cbn [product fmap list_fmap]. rewrite !bind_cons, fmap_app.
  apply traverse_app; [|exact IH]. clear IH.
  induction c2 as [|b c2 IH]; [done|].
  cbn [product fmap list_fmap] in *. rewrite !bind_cons in *.
  cbn [fmap list_fmap app] in *. cbn [traverse]. rewrite IH. done.
Qed.

Lemma bind_lookup_blocks {A B} (f : A → list B) (l : list A) (n i j : nat) x :
  (∀ y, length (f y) = n) → l !! i = Some x → (j < n)%nat →
  (l ≫= f) !! (i * n + j)%nat = f x !! j.
Proof.
  intros Hlen. revert i. induction l as [|y l IH]; intros i Hi Hj; [done|].
  rewrite bind_cons. destruct i as [|i]; simpl in Hi.
  - injection Hi as ->. rewrite lookup_app_l by (rewrite Hlen; lia). done.
  - rewrite lookup_app_r by (rewrite Hlen; lia). rewrite Hlen.
    replace (S i * n + j - n)%nat with (i * n + j)%nat by lia. by apply IH.
Qed.

Lemma length_bind_blocks {A B} (f : A → list B) (l : list A) (n : nat) :
  (∀ y, length (f y) = n) → length (l ≫= f) = (length l * n)%nat.
Proof.
  intros Hlen. induction l as [|y l IH]; [done|].
  rewrite bind_cons, length_app, Hlen, IH. simpl. lia.
Qed.

Lemma row2_inj s1 s2 a b a' b' :
  s1 ≠ s2 → row2 s1 s2 a b = row2 s1 s2 a' b' → a = a' ∧ b = b'.
Proof.
  intros Hne Heq. unfold row2 in Heq. split.
  - apply (f_equal (λ m : Row, m !! s1)) in Heq.
    rewrite !(lookup_insert_ne _ s2 s1), !lookup_insert_eq in Heq
      by congruence.
    congruence.
  - apply (f_equal (λ m : Row, m !! s2)) in Heq.
    rewrite !lookup_insert_eq in Heq. congruence.
Qed.

(** C2, as the code has it.  Two distinct ungrouped [foreach] sources with
    non-empty candidate lists of lengths [m] and [n] and no dependents give
    exactly [m * n] rows: the combination of candidate [i] of the first
    source in the enumeration with candidate [j] of the second is row
    [i * n + j], and distinct pairs of candidates give distinct rows.  The
    first criterion of the order is the order in which the source set is
    enumerated, the second the order of the candidates.  The result is a
    function of the arguments. *)
Theorem independent_foreach_product
    (inputs : Dict.t InputSpec) (artefacts : gmap string ParserArtefact)
    (artefacts_by_input : gmap string (list string))
    (s1 s2 : string) (iv1 iv2 : InputSpec) (c1 c2 : list string) :
  covers inputs artefacts_by_input →
  (∀ j jv, (j, jv) ∈ inputs → required jv = true →
           artefacts_by_input !! j ≠ Some []) →
  s1 ≠ s2 →
  Dict.get inputs s1 = Some iv1 → select iv1 = ["foreach"] →
  Dict.get inputs s2 = Some iv2 → select iv2 = ["foreach"] →
  artefacts_by_input !! s1 = Some c1 → c1 ≠ [] →
  artefacts_by_input !! s2 = Some c2 → c2 ≠ [] →
  generate_parameter_matrix inputs [s1; s2] [] artefacts artefacts_by_input
    = Ok (lexicographic s1 s2 c1 c2)
  ∧ length (lexicographic s1 s2 c1 c2) = (length c1 * length c2)%nat
  ∧ (∀ i j a b, c1 !! i = Some a → c2 !! j = Some b →
       lexicographic s1 s2 c1 c2 !! (i * length c2 + j)%nat
         = Some (row2 s1 s2 a b))
  ∧ (∀ a b a' b', row2 s1 s2 a b = row2 s1 s2 a' b' → a = a' ∧ b = b').
Proof.
  intros Hcov Hgate Hne Hs1 Hsel1 Hs2 Hsel2 Hc1 Hn1 Hc2 Hn2.
  assert (Hblock : ∀ a : string,
            length (c2 ≫= λ b, [row2 s1 s2 a b]) = length c2).
  { intros a. rewrite (length_bind_blocks _ _ 1%nat); [lia|done]. }
  split; [|split; [|split]].
  - unfold generate_parameter_matrix.
    rewrite (inputs_present_true _ _ Hcov Hgate). simpl.
    destruct (sanitised_inputs_spec _ _ Hcov) as (san & -> & Hsan). simpl.
    pose proof (Hsan _ _ _ Hs1 Hc1) as Hsan1.
    pose proof (Hsan _ _ _ Hs2 Hc2) as Hsan2.
    rewrite sanitise_nonempty in Hsan1, Hsan2 by done.
    rewrite (foreach_alone _ _ _ _ iv1 _ Hs1) by (by rewrite ?Hsel1).
    simpl.
    rewrite (foreach_alone _ _ _ _ iv2 _ Hs2) by (by rewrite ?Hsel2).
    simpl. apply rows_of_two.
  - unfold lexicographic.
    by rewrite (length_bind_blocks _ _ (length c2)).
  - intros i j a b Ha Hb. unfold lexicographic.
    rewrite (bind_lookup_blocks _ _ (length c2) i j a); [|done..|].
    + rewrite <- (Nat.add_0_r j), <- (Nat.mul_1_r j).
      rewrite (bind_lookup_blocks _ _ 1%nat j 0%nat b); [done..|lia].
    + by apply lookup_lt_Some in Hb.
  - intros a b a' b'. by apply row2_inj.
Qed.

(** Against C2 as stated.  The scans [A] and [B] are registered in this
    order; the source set is {A, B}, and [B, A] is one of its two
    enumerations.  Under it the rows
    come with [B] as the slow dimension, not in the order of registration.
    Separately: an optional [foreach] source with no candidate and a source
    with two give two rows, not zero. *)
Lemma registration_order_not_kept :
  ∃ st,
    parse_inputs (λ _, None) (Some two_spec) = Ok st
    ∧ Dict.keys (ps_inputs st) = ["A"; "B"]
    ∧ enumerates ["B"; "A"] (iteration_sources (ps_registry st))
    ∧ generate_parameter_matrix (ps_inputs st) ["B"; "A"]
        (iteration_map (ps_registry st)) ∅ candidates_AB
      = Ok (lexicographic "B" "A" ["b1"; "b2"] ["a1"; "a2"; "a3"])
    ∧ lexicographic "B" "A" ["b1"; "b2"] ["a1"; "a2"; "a3"]
      ≠ lexicographic "A" "B" ["a1"; "a2"; "a3"] ["b1"; "b2"]
    ∧ generate_parameter_matrix
        [("A", input_with ["foreach"] false);
         ("B", input_with ["foreach"] true)]
        ["A"; "B"] [] ∅ (<["A" := []]> candidates_AB)
      = Ok [<["B" := VStr "b1"]> {["A" := VNone]};
            <["B" := VStr "b2"]> {["A" := VNone]}].
Proof.
  eexists. split; [reflexivity|]. split; [reflexivity|]. split; [|split; [|split]].
  - split.
    + apply NoDup_cons. split; [|apply NoDup_singleton].
      rewrite elem_of_cons, elem_of_nil. by intros [[=]|[]].
    + intros x. simpl. rewrite !elem_of_cons, elem_of_nil.
      rewrite !elem_of_union, !elem_of_singleton, elem_of_empty. tauto.
  - reflexivity.
  - intros Heq.
    apply (f_equal (λ l : list Row, l !! 1%nat ≫= λ m : Row, m !! "A")) in Heq.
    vm_compute in Heq. discriminate.
  - reflexivity.
Qed.

(** ** Shape of a dimension *)

Lemma sanitise_not_nil c : sanitise c ≠ [].
Proof. unfold sanitise. by destruct c. Qed.

Lemma sanitised_inputs_nonempty inputs abi san :
  sanitised_inputs inputs abi = Ok san →
  ∀ k c, san !! k = Some c → c ≠ [].
Proof.
  unfold sanitised_inputs.
  apply (for_each_invariant
           (λ m : gmap string (list (option string)),
              ∀ k c, m !! k = Some c → c ≠ [])).
  - intros m [j jv] m' Hm Hbody.
    apply bind_Ok_inv in Hbody as (c & _ & [= <-]). intros k c'.
    destruct (decide (j = k)) as [->|Hne].
    + rewrite lookup_insert_eq. intros [= <-]. apply sanitise_not_nil.
    + rewrite lookup_insert_ne by done. apply Hm.
  - intros k c. by rewrite lookup_empty.
Qed.

Lemma attach_name inputs artefacts san i k v k' col :
  attach inputs artefacts san i (k, v) = Ok (Some (k', col)) → k' = k.
Proof.
  unfold attach. intros Hrun.
  apply bind_Ok_inv in Hrun as (ik & _ & Hrun).
  apply bind_Ok_inv in Hrun as (sk & _ & Hrun).
  destruct (decide (sk = "foreach")).
  - destruct (decide (v = i)); [|done].
    by apply bind_Ok_inv in Hrun as (c & _ & [= <- _]).
  - apply bind_Ok_inv in Hrun as ([v1 v2] & _ & Hrun).
    destruct (decide (v1 = i)); [|done].
    apply bind_Ok_inv in Hrun as (fa & _ & Hrun).
    by apply bind_Ok_inv in Hrun as (c & _ & [= <- _]).
Qed.

Lemma attached_names inputs artefacts san i imap attached :
  traverse (attach inputs artefacts san i) imap = Ok attached →
  Forall (λ k, k ∈ Dict.keys imap) (omap id attached).*1.
Proof.
  unfold Dict.keys. revert attached.
  induction imap as [|[k v] imap IH]; intros attached Hrun; simpl in Hrun.
  - injection Hrun as <-. constructor.
  - apply bind_Ok_inv in Hrun as (a & Ha & Hrun).
    apply bind_Ok_inv in Hrun as (rest & Hrest & [= <-]).
    specialize (IH _ Hrest).
    assert (Htl : Forall (λ k0, k0 ∈ ((k, v) :: imap).*1) (omap id rest).*1).
    { eapply Forall_impl; [exact IH|]. simpl. intros; by right. }
    destruct a as [[k' col]|]; simpl; [|done].
    apply attach_name in Ha as ->. constructor; [by left | done].
Qed.

Lemma combined_input_vector_shape inputs imap artefacts san i cur mapped combined :
  combined_input_vector inputs imap artefacts san i cur = Ok (mapped, combined) →
  ∃ names cols,
    mapped = i :: names ∧ combined = cur :: cols
    ∧ length names = length cols
    ∧ Forall (λ k, k ∈ Dict.keys imap) names.
Proof.
  unfold combined_input_vector. intros Hrun.
  apply bind_Ok_inv in Hrun as (attached & Hatt & [= <- <-]).
  eexists _, _. split; [done|]. split; [done|]. split.
  - by rewrite !length_fmap.
  - by eapply attached_names.
Qed.

(** Every fragment of a dimension has one cell per name the dimension
    spans; the names after the source are keys of the iteration map; and
    where the source has the single candidate [None], the first cell of
    every fragment is the null cell of its select function. *)
Lemma source_dimension_shape inputs imap artefacts san s mapped frags :
  (∀ k c, san !! k = Some c → c ≠ []) →
  source_dimension inputs imap artefacts san s = Ok (mapped, Some frags) →
  ∃ names,
    mapped = s :: names
    ∧ Forall (λ k, k ∈ Dict.keys imap) names
    ∧ Forall (λ frag, length frag = length mapped) frags
    ∧ ∀ iv f, Dict.get inputs s = Some iv → select iv !! 0%nat = Some f →
              san !! s = Some [None] →
              Forall (λ frag, frag !! 0%nat = Some (null_cell f)) frags.
Proof.
  intros Hsan. unfold source_dimension. intros Hrun.
  apply bind_Ok_inv in Hrun as (iv & Hiv & Hrun).
  apply bind_Ok_inv in Hrun as (fn & Hfn & Hrun).
  assert (Hsame : ∀ iv' f, Dict.get inputs s = Some iv' →
            select iv' !! 0%nat = Some f → f = fn).
  { intros iv' f Hget Hf. unfold Dict.getitem in Hiv. rewrite Hget in Hiv.
    injection Hiv as ->. unfold index in Hfn. rewrite Hf in Hfn. congruence. }
  destruct (decide (fn = "foreach")) as [->|Hn1].
  { apply bind_Ok_inv in Hrun as (cur & Hcur & Hrun).
    apply getitem_Ok_inv in Hcur.
    apply bind_Ok_inv in Hrun as ([mp combined] & Hcomb & Hrun).
    apply bind_Ok_inv in Hrun as (n & Hn & Hrun).
    apply bind_Ok_inv in Hrun as (merged & Hm & [= <- <-]).
    apply combined_input_vector_shape in Hcomb
      as (names & cols & -> & -> & Hlen & Hnames).
    destruct (merged_input_vector_spec _ _ _ Hm) as [_ Hfrag].
    exists names. split; [done|]. split; [done|]. split.
    - apply Forall_lookup. intros k frag Hk.
      apply Hfrag, Forall2_length in Hk. simpl in *. lia.
    - intros iv' f Hget Hf Hnull. rewrite (Hsame _ _ Hget Hf).
      rewrite Hnull in Hcur. injection Hcur as <-.
      apply Forall_lookup. intros k frag Hk.
      apply Hfrag in Hk.
      apply Forall2_cons_inv_l in Hk as (x & rest & Hx & _ & ->).
      destruct k; simpl in Hx; [|done]. by injection Hx as <-. }
  destruct (decide (fn = "all")) as [->|Hn2].
  { apply bind_Ok_inv in Hrun as (cur & Hcur & [= <- <-]).
    apply getitem_Ok_inv in Hcur.
    exists []. repeat split; try by repeat constructor.
    intros iv' f Hget Hf Hnull. rewrite (Hsame _ _ Hget Hf).
    rewrite Hnull in Hcur. injection Hcur as <-. by repeat constructor. }
  destruct (decide (fn = "some")) as [->|Hn3].
  { apply bind_Ok_inv in Hrun as (cur & _ & Hrun).
    by apply bind_Ok_inv in Hrun as (? & _ & ?). }
  destruct (decide (fn = "one")) as [->|Hn4].
  { apply bind_Ok_inv in Hrun as (cur & Hcur & [= <- <-]).
    apply getitem_Ok_inv in Hcur. pose proof (Hsan _ _ Hcur) as Hne.
    exists []. split; [done|]. split; [constructor|]. split.
    - repeat constructor. destruct cur; [done|]. done.
    - intros iv' f Hget Hf Hnull. rewrite (Hsame _ _ Hget Hf).
      rewrite Hnull in Hcur. injection Hcur as <-. by repeat constructor. }
  destruct (decide (fn = "from")) as [->|Hn5].
  { by apply bind_Ok_inv in Hrun as (? & _ & ?). }
  done.
Qed.

(** ** From dimensions to rows *)

Lemma elem_of_product {A} (dims : list (list A)) (r : list A) :
  r ∈ product dims ↔ Forall2 (λ d x, x ∈ d) dims r.
Proof.
  revert r. induction dims as [|d dims IH]; intros r; simpl.
  - rewrite elem_of_cons, elem_of_nil. split.
    + intros [->|[]]. constructor.
    + inversion 1. by left.
  - rewrite list_elem_of_bind. split.
    + intros (x & Hr & Hx). apply list_elem_of_fmap in Hr as (r' & -> & Hr').
      constructor; [done|]. by apply IH.
    + inversion 1 as [|? x ? r' Hx Hr']; subst. exists x. split; [|done].
      apply list_elem_of_fmap. exists r'. split; [done|]. by apply IH.
Qed.

Lemma product_nonempty {A} (dims : list (list A)) :
  Forall (λ d, d ≠ []) dims → product dims ≠ [].
Proof.
  induction 1 as [|d dims Hd _ IH]; simpl; [done|].
  destruct d as [|x d]; [done|]. rewrite bind_cons.
  destruct (product dims); [done|]. done.
Qed.

Lemma build_row_total headers r row :
  length headers = length r → ∃ row', build_row headers r row = Ok row'.
Proof.
  revert r row. induction headers as [|h hs IH]; intros [|x r] row Hlen;
    simplify_eq/=; eauto.
Qed.

(** When every cell under the header [i] is [v], the finished row maps [i]
    to [v]. *)
Lemma build_row_cells i v headers r row row' :
  Forall2 (λ h x, h = i → x = v) headers r →
  build_row headers r row = Ok row' →
  row' !! i = if decide (i ∈ headers) then Some v else row !! i.
Proof.
  intros Hcells. revert row.
  induction Hcells as [|h x hs r' Hx _ IH]; intros row Hrun; simpl in Hrun.
  - injection Hrun as <-. by rewrite decide_False by apply not_elem_of_nil.
  - rewrite (IH _ Hrun). destruct (decide (i ∈ hs)) as [Hin|Hnin].
    + by rewrite decide_True by (by right).
    + destruct (decide (h = i)) as [->|Hne].
      * rewrite decide_True by (by left). by rewrite lookup_insert_eq, Hx.
      * rewrite decide_False by (by intros [?|?]%elem_of_cons).
        by rewrite lookup_insert_ne.
Qed.

Lemma unpack_dimensions_Ok dims ds :
  unpack_dimensions dims = Ok ds ↔ Forall2 (λ d D, d = Some D) dims ds.
Proof.
  unfold unpack_dimensions. destruct (mapM id dims) as [ds'|] eqn:Hm.
  - apply mapM_Some in Hm. split.
    + by intros [= <-].
    + intros H. f_equal.
      assert (dims = Some <$> ds') as ->.
      { clear H. induction Hm as [|?????]; simplify_eq/=; [done|].
        by f_equal. }
      clear Hm. revert ds H.
      induction ds' as [|D ds' IH]; intros ds H; simpl in H.
      * by apply Forall2_nil_inv_l in H.
      * apply Forall2_cons_inv_l in H as (D' & ds'' & [= <-] & H & ->).
        f_equal. by apply IH.
  - split; [done|]. intros H. apply mapM_None in Hm.
    exfalso. apply Exists_exists in Hm as (d & Hd & Hnone).
    apply list_elem_of_lookup in Hd as [k Hk].
    destruct (Forall2_lookup_l _ _ _ _ _ H Hk) as (D & _ & ->). done.
Qed.

(** What a returned matrix is made of. *)
Lemma generate_parameter_matrix_Ok_inv inputs sources imap artefacts abi rows :
  generate_parameter_matrix inputs sources imap artefacts abi = Ok rows →
  rows = [] ∨
  ∃ san dimensions ds,
    sanitised_inputs inputs abi = Ok san
    ∧ Forall2 (λ s d, source_dimension inputs imap artefacts san s = Ok d)
              sources dimensions
    ∧ Forall2 (λ d D, d.2 = Some D) dimensions ds
    ∧ Forall2 (λ r row, build_row (concat dimensions.*1) r ∅ = Ok row)
              ((λ x, concat x) <$> product ds) rows.
Proof.
  unfold generate_parameter_matrix. intros Hrun.
  apply bind_Ok_inv in Hrun as ([|] & _ & Hrun); simpl in Hrun;
    [|left; congruence].
  apply bind_Ok_inv in Hrun as (san & Hsan & Hrun).
  apply bind_Ok_inv in Hrun as (dimensions & Hdims & Hrun).
  apply bind_Ok_inv in Hrun as (ds & Hds & Hrun).
  right. exists san, dimensions, ds. split; [done|]. split; [|split].
  - by apply traverse_Ok_iff.
  - apply unpack_dimensions_Ok in Hds. by apply Forall2_fmap_l in Hds.
  - by apply traverse_Ok_iff.
Qed.

Lemma Forall2_concat_concat {A B} (P : A → B → Prop) ls1 ls2 :
  Forall2 (Forall2 P) ls1 ls2 → Forall2 P (concat ls1) (concat ls2).
Proof. induction 1; simpl; [constructor | by apply Forall2_app]. Qed.

Lemma Forall2_vacuous {A B} (P : A → B → Prop) (l : list A) (k : list B) :
  Forall (λ x, ∀ y, P x y) l → length l = length k → Forall2 P l k.
Proof.
  intros Hl. revert k. induction Hl as [|x l Hx _ IH]; intros [|y k] Hlen;
    simplify_eq/=; constructor; auto.
Qed.

Section OptionalSource.

Context (inputs : Dict.t InputSpec) (imap : Dict.t string)
        (artefacts : gmap string ParserArtefact)
        (san : gmap string (list (option string)))
        (i : string) (iv : InputSpec) (f : string).

Hypothesis san_nonempty : ∀ k c, san !! k = Some c → c ≠ [].
Hypothesis declared : Dict.get inputs i = Some iv.
Hypothesis select_fn : select iv !! 0%nat = Some f.
Hypothesis substituted : san !! i = Some [None].
Hypothesis independent : i ∉ Dict.keys imap.

(** In every fragment of every dimension, the cell under the name [i] is
    the null cell. *)
Lemma fragment_null_cell s mapped frags frag :
  source_dimension inputs imap artefacts san s = Ok (mapped, Some frags) →
  frag ∈ frags →
  Forall2 (λ h x, h = i → x = null_cell f) mapped frag.
Proof.
  intros Hdim Hfrag.
  destruct (source_dimension_shape _ _ _ _ _ _ _ san_nonempty Hdim)
    as (names & -> & Hnames & Hlen & Hnull).
  eapply Forall_forall in Hlen; [|exact Hfrag].
  destruct frag as [|x rest]; [done|]. constructor.
  - intros ->. specialize (Hnull iv f declared select_fn substituted).
    eapply Forall_forall in Hnull; [|exact Hfrag]. simpl in Hnull.
    congruence.
  - apply Forall2_vacuous; [|simpl in Hlen; lia].
    eapply Forall_impl; [exact Hnames|]. simpl. intros k Hk y ->. done.
Qed.

Lemma chosen_fragments_null_cell sources dimensions ds x :
  Forall2 (λ s d, source_dimension inputs imap artefacts san s = Ok d)
          sources dimensions →
  Forall2 (λ d D, d.2 = Some D) dimensions ds →
  Forall2 (λ D frag, frag ∈ D) ds x →
  Forall2 (λ h c, h = i → c = null_cell f)
          (concat dimensions.*1) (concat x).
Proof.
  intros Hdims. revert ds x.
  induction Hdims as [|s [mapped d] sources dimensions Hd _ IH];
    intros ds x Hds Hx.
  - apply Forall2_nil_inv_l in Hds as ->.
    apply Forall2_nil_inv_l in Hx as ->. constructor.
  - apply Forall2_cons_inv_l in Hds as (D & ds' & HD & Hds & ->).
    apply Forall2_cons_inv_l in Hx as (frag & x' & Hfrag & Hx & ->).
    simpl in *. subst d. apply Forall2_app; [|by eapply IH].
    by eapply fragment_null_cell.
Qed.

Lemma source_in_headers sources dimensions ds :
  Forall2 (λ s d, source_dimension inputs imap artefacts san s = Ok d)
          sources dimensions →
  Forall2 (λ d D, d.2 = Some D) dimensions ds →
  i ∈ sources → i ∈ concat dimensions.*1.
Proof.
  intros Hdims. revert ds.
  induction Hdims as [|s [mapped d] sources dimensions Hd _ IH];
    intros ds Hds Hin.
  - by apply elem_of_nil in Hin.
  - apply Forall2_cons_inv_l in Hds as (D & ds' & HD & Hds & ->).
    simpl in *. subst d. apply elem_of_app.
    apply elem_of_cons in Hin as [<-|Hin]; [left | right; by eapply IH].
    destruct (source_dimension_shape _ _ _ _ _ _ _ san_nonempty Hd)
      as (names & -> & _). by left.
Qed.

End OptionalSource.

(** An optional source without candidates: every returned row carries its
    name, mapped to the null cell of its select function. *)
Lemma optional_source_rows inputs sources imap artefacts abi i iv f rows row :
  covers inputs abi →
  Dict.get inputs i = Some iv →
  abi !! i = Some [] →
  select iv !! 0%nat = Some f →
  i ∈ sources → i ∉ Dict.keys imap →
  generate_parameter_matrix inputs sources imap artefacts abi = Ok rows →
  row ∈ rows →
  row !! i = Some (null_cell f).
Proof.
  intros Hcov Hi Hempty Hf Hsrc Hind Hrun Hrow.
  apply generate_parameter_matrix_Ok_inv in Hrun
    as [->|(san & dimensions & ds & Hsan & Hdims & Hds & Hrows)];
    [by apply elem_of_nil in Hrow|].
  pose proof (sanitised_inputs_nonempty _ _ _ Hsan) as Hne.
  destruct (sanitised_inputs_spec _ _ Hcov) as (san' & Hsan' & Hlook).
  rewrite Hsan in Hsan'. injection Hsan' as <-.
  pose proof (Hlook _ _ _ Hi Hempty) as Hnull. rewrite sanitise_empty in Hnull.
  apply list_elem_of_lookup in Hrow as [k Hk].
  destruct (Forall2_lookup_r _ _ _ _ _ Hrows Hk) as (r & Hr & Hbuild).
  apply list_elem_of_lookup_2, list_elem_of_fmap in Hr as (x & -> & Hx).
  apply elem_of_product in Hx.
  rewrite (build_row_cells i (null_cell f) _ _ _ _
             (chosen_fragments_null_cell _ _ _ _ _ _ _ Hne Hi Hf Hnull Hind
                _ _ _ _ Hdims Hds Hx) Hbuild).
  rewrite decide_True; [done|].
  by eapply source_in_headers.
Qed.

(** ** A specification without dependents always yields rows *)

Lemma traverse_total {A B} (f : A → result B) (l : list A) :
  (∀ x, x ∈ l → ∃ y, f x = Ok y) → ∃ ys, traverse f l = Ok ys.
Proof.
  induction l as [|x l IH]; intros Hf; simpl; [eauto|].
  destruct (Hf x) as [y ->]; [by left|].
  destruct IH as [ys ->]; [|simpl; eauto].
  intros z Hz. apply Hf. by right.
Qed.

Lemma source_dimension_no_dependents inputs artefacts san s sv g cur :
  Dict.get inputs s = Some sv →
  select sv !! 0%nat = Some g →
  g ∈ ["foreach"; "one"; "all"] →
  san !! s = Some cur → cur ≠ [] →
  ∃ frags,
    source_dimension inputs [] artefacts san s = Ok ([s], Some frags)
    ∧ frags ≠ []
    ∧ Forall (λ frag, length frag = 1%nat) frags.
Proof.
  intros Hs Hg Hin Hcur Hne.
  rewrite !elem_of_cons, elem_of_nil in Hin.
  destruct Hin as [->|[->|[->|[]]]].
  - rewrite (foreach_alone _ _ _ _ sv cur) by done.
    eexists. split; [done|]. split.
    + by destruct cur.
    + apply Forall_fmap. by apply Forall_true.
  - unfold source_dimension.
    rewrite (Dict_getitem_Some _ _ _ Hs). simpl.
    rewrite (index_Some _ _ _ Hg). simpl.
    rewrite (getitem_Some _ _ _ Hcur). simpl.
    eexists. split; [done|]. split; [done|].
    repeat constructor. by destruct cur.
  - unfold source_dimension.
    rewrite (Dict_getitem_Some _ _ _ Hs). simpl.
    rewrite (index_Some _ _ _ Hg). simpl.
    rewrite (getitem_Some _ _ _ Hcur). simpl.
    eexists. split; [done|]. split; [done|]. by repeat constructor.
Qed.

Lemma single_cell_fragments
    (dimensions : list (list string * option (list (list Value))))
    (ds : list (list (list Value))) (x : list (list Value)) :
  Forall2 (λ d D, ∃ s, d = ([s], Some D)
                       ∧ Forall (λ frag, length frag = 1%nat) D)
          dimensions ds →
  Forall2 (λ D frag, frag ∈ D) ds x →
  length (concat dimensions.*1) = length (concat x).
Proof.
  intros Hd. revert x. induction Hd as [|d D dimensions ds (s & -> & Hone) _ IH];
    intros x Hx.
  - by apply Forall2_nil_inv_l in Hx as ->.
  - apply Forall2_cons_inv_l in Hx as (frag & x' & Hfrag & Hx & ->).
    pose proof (IH _ Hx) as Hlen.
    eapply Forall_forall in Hone; [|exact Hfrag].
    rewrite fmap_cons. cbn [concat fst]. rewrite !length_app, Hlen, Hone.
    done.
Qed.

Lemma generate_returns_without_dependents inputs sources artefacts abi :
  covers inputs abi →
  (∀ j jv, (j, jv) ∈ inputs → required jv = true → abi !! j ≠ Some []) →
  (∀ s, s ∈ sources →
        ∃ sv g, Dict.get inputs s = Some sv ∧ select sv !! 0%nat = Some g
                ∧ g ∈ ["foreach"; "one"; "all"]) →
  ∃ rows,
    generate_parameter_matrix inputs sources [] artefacts abi = Ok rows
    ∧ rows ≠ [].
Proof.
  intros Hcov Hgate Hsrc. unfold generate_parameter_matrix.
  rewrite (inputs_present_true _ _ Hcov Hgate). simpl.
  destruct (sanitised_inputs_spec _ _ Hcov) as (san & Hsan & Hlook).
  rewrite Hsan. simpl.
  assert (Hdims : ∃ dimensions ds,
    traverse (source_dimension inputs [] artefacts san) sources = Ok dimensions
    ∧ Forall2 (λ d D, ∃ s, d = ([s], Some D)
                           ∧ Forall (λ frag, length frag = 1%nat) D)
              dimensions ds
    ∧ Forall (λ D, D ≠ []) ds).
  { clear Hgate. induction sources as [|s sources IH]; simpl.
    - exists [], []. by repeat constructor.
    - destruct (Hsrc s) as (sv & g & Hs & Hg & Hin); [by left|].
      destruct (Hcov s sv (Dict_get_elem_of _ _ _ Hs)) as [c Hc].
      destruct (source_dimension_no_dependents inputs artefacts san s sv g
                  (sanitise c) Hs Hg Hin (Hlook _ _ _ Hs Hc)
                  (sanitise_not_nil c))
        as (frags & -> & Hne & Hone).
      destruct IH as (dimensions & ds & -> & Hd & Hds).
      { intros z Hz. apply Hsrc. by right. }
      simpl. exists (([s], Some frags) :: dimensions), (frags :: ds).
      split; [done|]. split; constructor; eauto. }
  destruct Hdims as (dimensions & ds & -> & Hd & Hds). simpl.
  assert (Hunpack : unpack_dimensions dimensions.*2 = Ok ds).
  { apply unpack_dimensions_Ok, Forall2_fmap_l.
    eapply Forall2_impl; [exact Hd|]. simpl. by intros d D (s & -> & _). }
  rewrite Hunpack. simpl.
  destruct (traverse_total (λ r, build_row (concat dimensions.*1) r ∅)
              ((λ x, concat x) <$> product ds)) as [rows Hrows].
  { intros r Hr. apply list_elem_of_fmap in Hr as (x & -> & Hx).
    apply build_row_total. apply elem_of_product in Hx.
    by eapply single_cell_fragments. }
  exists rows. split; [done|]. intros ->.
  apply traverse_Ok_iff, Forall2_nil_inv_r, fmap_nil_inv in Hrows.
  by apply product_nonempty in Hds.
Qed.

(** ** Optional inputs without candidates *)

Lemma Dict_elem_of_get {V} (d : Dict.t V) k v :
  NoDup (Dict.keys d) → (k, v) ∈ d → Dict.get d k = Some v.
Proof.
  unfold Dict.keys. induction d as [|[k' v'] d IH]; simpl; intros Hnd Hin.
  - by apply elem_of_nil in Hin.
  - apply NoDup_cons in Hnd as [Hk' Hnd].
    apply elem_of_cons in Hin as [[= -> ->]|Hin].
    + by rewrite decide_True.
    + rewrite decide_False; [by apply IH|].
      intros ->. apply Hk'. apply list_elem_of_fmap. by exists (k, v).
Qed.

Lemma covers_Forall inputs (abi : gmap string (list string)) :
  Forall (λ kv, is_Some (abi !! kv.1)) inputs → covers inputs abi.
Proof.
  intros Hall j jv Hin. eapply Forall_forall in Hall; [|exact Hin]. done.
Qed.

(** C10, as the code has it.  Every input that is not required and has no
    candidate, whatever its directive and whether it is an iteration
    source, a dependent or neither, gets the one-element candidate list
    [[None]] and does not close the gate.  When it is an iteration source
    selected by [foreach] or [one] and no dependent bears its name, every
    returned row maps its name to the null value; selected by [all], every
    row maps it to the one-element list holding the null value.  In a
    specification without dependents whose sources are all selected by
    [foreach], [one] or [all] the generator does return, with at least one
    row. *)
Theorem optional_input_gets_null_candidate
    (inputs : Dict.t InputSpec) (iteration_sources : list string)
    (iteration_map : Dict.t string)
    (artefacts : gmap string ParserArtefact)
    (artefacts_by_input : gmap string (list string))
    (i : string) (iv : InputSpec) :
  NoDup (Dict.keys inputs) →
  covers inputs artefacts_by_input →
  Dict.get inputs i = Some iv →
  required iv = false →
  artefacts_by_input !! i = Some [] →
  let others_present :=
    ∀ j jv, (j, jv) ∈ inputs → j ≠ i → required jv = true →
            artefacts_by_input !! j ≠ Some [] in
  (∃ san, sanitised_inputs inputs artefacts_by_input = Ok san
          ∧ san !! i = Some [None])
  ∧ (others_present → inputs_present inputs artefacts_by_input = Ok true)
  ∧ (∀ f rows row,
       i ∈ iteration_sources →
       i ∉ Dict.keys iteration_map →
       select iv !! 0%nat = Some f →
       f ∈ ["foreach"; "one"; "all"] →
       generate_parameter_matrix inputs iteration_sources iteration_map
                                 artefacts artefacts_by_input = Ok rows →
       row ∈ rows → row !! i = Some (null_cell f))
  ∧ (others_present → iteration_map = [] →
     (∀ s, s ∈ iteration_sources →
           ∃ sv g, Dict.get inputs s = Some sv ∧ select sv !! 0%nat = Some g
                   ∧ g ∈ ["foreach"; "one"; "all"]) →
     ∃ rows,
       generate_parameter_matrix inputs iteration_sources iteration_map
                                 artefacts artefacts_by_input = Ok rows
       ∧ rows ≠ []).
Proof.
  intros Hnd Hcov Hi Hopt Hempty others_present.
  assert (Hgate : others_present →
            ∀ j jv, (j, jv) ∈ inputs → required jv = true →
                    artefacts_by_input !! j ≠ Some []).
  { intros Hothers j jv Hin Hreq. destruct (decide (j = i)) as [->|Hne].
    - apply (Dict_elem_of_get _ _ _ Hnd) in Hin. congruence.
    - by apply (Hothers j jv). }
  split; [|split; [|split]].
  - destruct (sanitised_inputs_spec _ _ Hcov) as (san & Hsan & Hlook).
    exists san. split; [done|]. by rewrite (Hlook _ _ _ Hi Hempty).
  - intros Hothers. apply inputs_present_true; [done|]. by apply Hgate.
  - intros f rows row Hsrc Hind Hf _ Hrun Hrow.
    by eapply optional_source_rows.
  - intros Hothers -> Hrec.
    apply generate_returns_without_dependents; [done| |done]. by apply Hgate.
Qed.

(** Against C10 as stated.  An optional [all] source without candidates:
    the one row maps its name to a list holding the null value, not to the
    null value.  An optional
    [from] dependent without candidates: its cell is read from the recorded
    inputs of the governing artefact, and is not null either. *)
Lemma all_source_gets_list_of_null :
  required (input_with ["all"] false) = false
  ∧ generate_parameter_matrix (only_A ["all"] false) ["A"] [] ∅ {["A" := []]}
    = Ok [{["A" := VList [None]]}]
  ∧ ({["A" := VList [None]]} : Row) !! "A" ≠ Some VNone
  ∧ generate_parameter_matrix inputs_A_from_C ["A"] [("C", "A/t1")]
      catalogue_a1 (<["C" := []]> {["A" := ["a1"]]})
    = Ok [<["C" := VStr "p1"]> {["A" := VStr "a1"]}].
Proof.
  split; [reflexivity|]. split; [reflexivity|]. split; [discriminate|].
  reflexivity.
Qed.

(** * The theorems at concrete inputs *)

(** One required input, no candidate. *)
Lemma generate_parameter_matrix_gate_witness :
  covers (only_A ["foreach"] true) {["A" := []]}
  ∧ generate_parameter_matrix (only_A ["foreach"] true) ["A"] [] ∅
                              {["A" := []]} = Ok [].
Proof.
  assert (Hcov : covers (only_A ["foreach"] true) {["A" := []]}).
  { apply covers_Forall. repeat constructor. by eexists. }
  split; [exact Hcov|].
  apply (generate_parameter_matrix_gate
           (only_A ["foreach"] true) ["A"] [] ∅ {["A" := []]}
           "A" (input_with ["foreach"] true)).
  - exact Hcov.
  - left.
  - reflexivity.
  - reflexivity.
Defined.

(** Three candidates for [A] and two for [B]: six rows, [A] slow. *)
Lemma independent_foreach_product_witness :
  generate_parameter_matrix inputs_AB ["A"; "B"] [] ∅ candidates_AB
    = Ok (lexicographic "A" "B" ["a1"; "a2"; "a3"] ["b1"; "b2"])
  ∧ length (lexicographic "A" "B" ["a1"; "a2"; "a3"] ["b1"; "b2"]) = 6%nat.
Proof.
  assert (Hcov : covers inputs_AB candidates_AB).
  { apply covers_Forall. repeat constructor; by eexists. }
  assert (Hgate : ∀ j jv, (j, jv) ∈ inputs_AB → required jv = true →
                          candidates_AB !! j ≠ Some []).
  { intros j jv Hin _. unfold inputs_AB in Hin.
    rewrite !elem_of_cons, elem_of_nil in Hin.
    destruct Hin as [[= -> _]|[[= -> _]|[]]]; discriminate. }
  destruct (independent_foreach_product
              inputs_AB ∅ candidates_AB "A" "B"
              (input_with ["foreach"] true) (input_with ["foreach"] true)
              ["a1"; "a2"; "a3"] ["b1"; "b2"]
              Hcov Hgate ltac:(discriminate) eq_refl eq_refl eq_refl eq_refl
              eq_refl ltac:(discriminate) eq_refl ltac:(discriminate))
    as (Hrows & Hlen & _).
  split; [exact Hrows | exact Hlen].
Defined.

(** A sequence that rises from 1 to 2. *)
Lemma parse_session_ordering_witness :
  ¬ non_increasing [session_at 1; session_at 2]
  ∧ parse_session (λ _ _, false) elements bare_parser (session_at 1)
                  [session_at 1; session_at 2]
    = Raise not_ordered.
Proof.
  assert (Hrise : ¬ non_increasing [session_at 1; session_at 2]).
  { intros H.
    pose proof (H 0%nat 1%nat (session_at 1) (session_at 2)) as Hle.
    simpl in Hle. specialize (Hle ltac:(lia) eq_refl eq_refl). lia. }
  split; [exact Hrise|].
  destruct (parse_session_ordering (λ _ _, false) elements bare_parser
              (session_at 1) [session_at 1; session_at 2]) as [Hraise _].
  exact (Hraise Hrise).
Defined.

(** The statement [bogus(x)], surrounded by blanks. *)
Lemma unrecognised_select_mode_is_ignored_witness :
  well_formed (Str.strip " bogus(x) ")
  ∧ ∃ args token,
      _parse_select (Some " bogus(x) ") = Ok args
      ∧ args !! 0%nat = Some token
      ∧ (token ∉ select_namespace →
         _register_iteration_references "T1" args empty_registry
           = Ok empty_registry).
Proof.
  assert (Hwf : well_formed (Str.strip " bogus(x) ")).
  { split; intros _; by eexists. }
  split; [exact Hwf|].
  exact (unrecognised_select_mode_is_ignored " bogus(x) " "T1"
           empty_registry Hwf).
Defined.

(** One entity recorded with {T1: p1}, and the two rows of the
    specification's example. *)
Lemma compare_to_existing_exact_witness :
  compare_to_existing
    [session_with [assessor_with "x1" (Some {["T1" := "p1"]})]] "proc"
    [{["T1" := VStr "p1"]}; <["T2" := VStr "p2"]> {["T1" := VStr "p1"]}]
  = Ok [({["T1" := VStr "p1"]},
         [assessor_with "x1" (Some {["T1" := "p1"]})]);
        (<["T2" := VStr "p2"]> {["T1" := VStr "p1"]}, [])].
Proof.
  destruct (compare_to_existing_exact
              (session_with [assessor_with "x1" (Some {["T1" := "p1"]})])
              [] "proc"
              [{["T1" := VStr "p1"]};
               <["T2" := VStr "p2"]> {["T1" := VStr "p1"]}])
    as (Hrun & _).
  - repeat constructor. by eexists.
  - rewrite Hrun. reflexivity.
Defined.

(** The second entity has no recorded mapping; the first would match. *)
Lemma compare_to_existing_fail_closed_witness :
  compare_to_existing
    [session_with [assessor_with "x1" (Some {["T1" := "p1"]});
                   assessor_with "x2" None]]
    "proc" [{["T1" := VStr "p1"]}]
  = Ok [].
Proof.
  apply (compare_to_existing_fail_closed
           (session_with [assessor_with "x1" (Some {["T1" := "p1"]});
                          assessor_with "x2" None])
           [] "proc" [{["T1" := VStr "p1"]}] (assessor_with "x2" None)).
  - right. left.
  - reflexivity.
  - reflexivity.
Defined.

(** Three candidates for [A], two for its dependent [B]. *)
Lemma foreach_dimension_truncates_witness :
  ∃ merged n,
    source_dimension inputs_A_with_B [("B", "A")] ∅ sanitised_AB "A"
      = Ok (["A"; "B"], Some merged)
    ∧ length merged = n
    ∧ Forall (λ col, (n ≤ length col)%nat)
             [[VStr "a1"; VStr "a2"; VStr "a3"]; [VStr "b1"; VStr "b2"]]
    ∧ Exists (λ col, length col = n)
             [[VStr "a1"; VStr "a2"; VStr "a3"]; [VStr "b1"; VStr "b2"]]
    ∧ ∀ k, (k < n)%nat →
           ∃ frag, merged !! k = Some frag
                   ∧ Forall2 (λ col x, col !! k = Some x)
                       [[VStr "a1"; VStr "a2"; VStr "a3"];
                        [VStr "b1"; VStr "b2"]] frag.
Proof.
  apply (foreach_dimension_truncates
           inputs_A_with_B [("B", "A")] ∅ sanitised_AB "A"
           (input_with ["foreach"] true)
           [Some "a1"; Some "a2"; Some "a3"] ["A"; "B"]
           [[VStr "a1"; VStr "a2"; VStr "a3"]; [VStr "b1"; VStr "b2"]]);
    reflexivity.
Defined.

(** One optional [foreach] input, no candidate. *)
Lemma optional_input_gets_null_candidate_witness :
  generate_parameter_matrix (only_A ["foreach"] false) ["A"] [] ∅
                            {["A" := []]}
    = Ok [{["A" := VNone]}]
  ∧ (∃ san, sanitised_inputs (only_A ["foreach"] false) {["A" := []]} = Ok san
            ∧ san !! "A" = Some [None])
  ∧ ∀ rows row,
      generate_parameter_matrix (only_A ["foreach"] false) ["A"] [] ∅
                                {["A" := []]} = Ok rows →
      row ∈ rows → row !! "A" = Some (null_cell "foreach").
Proof.
  split; [reflexivity|].
  assert (Hcov : covers (only_A ["foreach"] false) {["A" := []]}).
  { apply covers_Forall. repeat constructor. by eexists. }
  destruct (optional_input_gets_null_candidate
              (only_A ["foreach"] false) ["A"] [] ∅ {["A" := []]}
              "A" (input_with ["foreach"] false))
    as (Hsan & _ & Hrows & _).
  - apply NoDup_singleton.
  - exact Hcov.
  - reflexivity.
  - reflexivity.
  - reflexivity.
  - split; [exact Hsan|]. intros rows row. apply (Hrows "foreach").
    + left.
    + apply not_elem_of_nil.
    + reflexivity.
    + left.
Defined.

(** * Worked examples *)

(** ** Grammar *)

Example get_args_some : _get_args "some(2)" = Ok ["some"; "2"].
Proof. reflexivity. Qed.

Example parse_select_grouped :
  _parse_select (Some " foreach( T1 ) ") = Ok ["foreach"; "T1"].
Proof. reflexivity. Qed.

Example parse_select_default : _parse_select None = Ok ["foreach"].
Proof. reflexivity. Qed.

Example parse_select_from :
  _parse_select (Some "from(asr/t1)") = Ok ["from"; "asr/t1"].
Proof. reflexivity. Qed.

Example get_args_unbalanced : _get_args "foreach(T1" = Raise malformed.
Proof. reflexivity. Qed.

Example get_args_empty_group : _get_args "foreach()" = Ok ["foreach"; ""].
Proof. reflexivity. Qed.

(** Both parentheses occur, in the wrong order: accepted. *)
Example get_args_reversed : _get_args ")(" = Ok [")"; ""].
Proof. reflexivity. Qed.

Example parse_session_select_default py_int :
  _parse_session_select py_int None = Ok {| mode := "current"; delta := 0 |}.
Proof. reflexivity. Qed.

Example parse_session_select_first py_int :
  _parse_session_select py_int (Some "first")
    = Ok {| mode := "first"; delta := maxsize |}.
Proof. reflexivity. Qed.

Example parse_session_select_prior :
  _parse_session_select (λ s, if decide (s = "2") then Some 2 else None)
                        (Some "prior(2)")
    = Ok {| mode := "prior"; delta := 2 |}.
Proof. reflexivity. Qed.

(** An assessor declared without resources, in a specification whose scans
    declare none either, reads the loop variable [r] before any loop has
    bound it. *)
Example assessor_without_resources py_int :
  parse_inputs py_int
    (Some {| x_scans := [];
             x_assessors :=
               [{| y_name := "asr"; y_select := None;
                   y_select_session := None; y_types := "proc";
                   y_needs_qc := None; y_resources := [] |}];
             x_filters := None |})
    = Raise UnboundLocalError.
Proof. reflexivity. Qed.

(** ** Matrix *)

(** [one] keeps the first candidate only. *)
Example one_takes_first :
  generate_parameter_matrix (only_A ["one"] true) ["A"] [] ∅
                            {["A" := ["x1"; "x2"]]}
    = Ok [{["A" := VStr "x1"]}].
Proof. reflexivity. Qed.

(** [all] puts the whole candidate list in one cell. *)
Example all_takes_everything :
  generate_parameter_matrix (only_A ["all"] true) ["A"] [] ∅
                            {["A" := ["x1"; "x2"]]}
    = Ok [{["A" := VList [Some "x1"; Some "x2"]]}].
Proof. reflexivity. Qed.

(** Three candidates for [A], two for its dependent [B]: two rows. *)
Example dependent_truncates :
  generate_parameter_matrix inputs_A_with_B ["A"] [("B", "A")] ∅ candidates_AB
    = Ok [<["B" := VStr "b1"]> {["A" := VStr "a1"]};
          <["B" := VStr "b2"]> {["A" := VStr "a2"]}].
Proof. reflexivity. Qed.

(** No iteration source at all: one empty row. *)
Example no_source_one_row :
  generate_parameter_matrix (only_A ["foreach"] true) [] [] ∅
                            {["A" := ["x1"]]}
    = Ok [∅].
Proof. reflexivity. Qed.

(** A source whose select function is [some] makes its dimension raise,
    whatever the count and the candidates. *)
Lemma some_source_raises inputs imap artefacts san i iv :
  Dict.get inputs i = Some iv →
  select iv !! 0%nat = Some "some" →
  raises (source_dimension inputs imap artefacts san i).
Proof.
  intros Hi Hsel. unfold source_dimension, raises.
  rewrite (Dict_getitem_Some _ _ _ Hi). simpl.
  rewrite (index_Some _ _ _ Hsel). simpl.
  destruct (getitem san i); simpl; [|eauto].
  destruct (index (select iv) 1); simpl; eauto.
Qed.

(** ** Consistency filter *)

Example filter_keeps_equal :
  filter_matrix [<["B" := VStr "x"]> {["A" := VStr "x"]}] filter_AB ∅
    = Ok [<["B" := VStr "x"]> {["A" := VStr "x"]}].
Proof. reflexivity. Qed.

Example filter_drops_unequal :
  filter_matrix [<["B" := VStr "y"]> {["A" := VStr "x"]}] filter_AB ∅
    = Ok [].
Proof. reflexivity. Qed.

(** * Further properties of the code *)

(** ** Strings *)

Lemma find_cons_ne c d s :
  d ≠ c → Str.find c (String d s) = S <$> Str.find c s.
Proof. intros Hne. simpl. by rewrite decide_False. Qed.

Lemma find_None_suffix c n s :
  Str.find c s = None → Str.find c (Str.suffix n s) = None.
Proof.
  revert s. induction n as [|n IH]; intros [|d s]; simpl; try done.
  destruct (decide (d = c)); [done|].
  destruct (Str.find c s) eqn:Hs; [done|]. intros _. by apply IH.
Qed.

Lemma find_None_prefix c n s :
  Str.find c s = None → Str.find c (Str.prefix n s) = None.
Proof.
  revert s. induction n as [|n IH]; intros [|d s]; simpl; try done.
  destruct (decide (d = c)); [done|].
  destruct (Str.find c s) eqn:Hs; [done|]. intros _. by rewrite IH.
Qed.

Lemma find_Some_prefix c n s :
  Str.find c s = Some n → Str.find c (Str.prefix n s) = None.
Proof.
  revert n. induction s as [|d s IH]; intros n; simpl; [done|].
  destruct (decide (d = c)) as [->|Hne]; [by intros [= <-]|].
  destruct (Str.find c s) as [m|] eqn:Hs; [|done].
  intros [= <-]. simpl. rewrite decide_False by done. by rewrite IH.
Qed.

Lemma find_None_lstrip c s :
  Str.find c s = None → Str.find c (Str.lstrip s) = None.
Proof.
  induction s as [|d s IH]; simpl; [done|].
  destruct (decide (d = c)); [done|].
  destruct (Str.find c s) eqn:Hs; [done|]. intros _.
  destruct (Str.is_space d); [by apply IH|].
  simpl. rewrite decide_False by done. by rewrite Hs.
Qed.

Lemma find_None_rstrip c s :
  Str.find c s = None → Str.find c (Str.rstrip s) = None.
Proof.
  induction s as [|d s IH]; simpl; [done|].
  destruct (decide (d = c)); [done|].
  destruct (Str.find c s) eqn:Hs; [done|]. intros _.
  specialize (IH eq_refl).
  destruct (Str.rstrip s) as [|e r].
  - destruct (Str.is_space d); [done|]. simpl. by rewrite decide_False.
  - rewrite find_cons_ne by done. by rewrite IH.
Qed.

Lemma find_None_strip c s :
  Str.find c s = None → Str.find c (Str.strip s) = None.
Proof. intros H. by apply find_None_rstrip, find_None_lstrip. Qed.

Lemma split_free sep s :
  Forall (λ t, Str.find sep t = None) (Str.split sep s).
Proof.
  induction s as [|d s IH]; simpl; [by repeat constructor|].
  destruct (decide (d = sep)) as [->|Hne]; [by constructor|].
  destruct (Str.split sep s) as [|w ws]; simpl.
  - repeat constructor. simpl. by rewrite decide_False.
  - apply Forall_cons in IH as [Hw Hws]. constructor; [|done].
    simpl. rewrite decide_False by done. by rewrite Hw.
Qed.

Lemma rstrip_rstrip s : Str.rstrip (Str.rstrip s) = Str.rstrip s.
Proof.
  induction s as [|d s IH]; [done|]. cbn [Str.rstrip].
  destruct (Str.rstrip s) as [|e r] eqn:Hr.
  - destruct (Str.is_space d) eqn:Hd; [done|]. simpl. by rewrite Hd.
  - cbn [Str.rstrip]. cbn [Str.rstrip] in IH.
    destruct (match Str.rstrip r with
              | "" => if Str.is_space e then "" else String e ""
              | String a s0 => String e (String a s0)
              end); [done|]. by rewrite IH.
Qed.

Lemma lstrip_head s :
  Str.lstrip s = "" ∨ ∃ c t, Str.lstrip s = String c t ∧ Str.is_space c = false.
Proof.
  induction s as [|d s IH]; simpl; [by left|].
  destruct (Str.is_space d) eqn:Hd; [done|]. right. eauto.
Qed.

Lemma rstrip_head c t :
  Str.is_space c = false → ∃ r, Str.rstrip (String c t) = String c r.
Proof.
  intros Hc. cbn [Str.rstrip]. destruct (Str.rstrip t); [|eauto].
  rewrite Hc. eauto.
Qed.

Lemma strip_strip s : Str.strip (Str.strip s) = Str.strip s.
Proof.
  unfold Str.strip. destruct (lstrip_head s) as [->|(c & t & -> & Hc)]; [done|].
  destruct (rstrip_head c t Hc) as [r Hr]. rewrite Hr.
  cbn [Str.lstrip]. rewrite Hc, <- Hr. apply rstrip_rstrip.
Qed.

Lemma blank_cons c s : blank (String c s) ↔ Str.is_space c = true ∧ blank s.
Proof.
  unfold blank. simpl. destruct (Str.is_space c); [naive_solver|].
  split; [done | by intros [? _]].
Qed.

Lemma append_cons c s t : String c s +:+ t = String c (s +:+ t).
Proof. reflexivity. Qed.

Lemma append_nil t : "" +:+ t = t.
Proof. reflexivity. Qed.

Lemma lstrip_blank_app ws s : blank ws → Str.lstrip (ws +:+ s) = Str.lstrip s.
Proof.
  induction ws as [|c ws IH]; [done|].
  intros [Hc Hws]%blank_cons. rewrite append_cons. cbn [Str.lstrip].
  rewrite Hc. by apply IH.
Qed.

Lemma rstrip_blank ws : blank ws → Str.rstrip ws = "".
Proof.
  induction ws as [|c ws IH]; [done|].
  intros [Hc Hws]%blank_cons. cbn [Str.rstrip]. by rewrite IH, Hc.
Qed.

Lemma rstrip_app_blank s ws : blank ws → Str.rstrip (s +:+ ws) = Str.rstrip s.
Proof.
  intros Hws. induction s as [|c s IH]; [by apply rstrip_blank|].
  rewrite append_cons. cbn [Str.rstrip]. by rewrite IH.
Qed.

Lemma strip_app_blank s ws : blank ws → Str.strip (s +:+ ws) = Str.strip s.
Proof.
  intros Hws. unfold Str.strip. induction s as [|c s IH].
  - rewrite append_nil, Hws. done.
  - rewrite append_cons. cbn [Str.lstrip]. destruct (Str.is_space c); [done|].
    by apply (rstrip_app_blank (String c s)).
Qed.

Lemma strip_padded ws1 s ws2 :
  blank ws1 → blank ws2 → Str.strip (ws1 +:+ s +:+ ws2) = Str.strip s.
Proof.
  intros H1 H2. unfold Str.strip at 1. rewrite lstrip_blank_app by done.
  by apply strip_app_blank.
Qed.

(** ** The selection grammar *)

Lemma split_nonempty sep s : Str.split sep s ≠ [].
Proof.
  induction s as [|d s IH]; simpl; [done|].
  destruct (decide (d = sep)); [done|]. by destruct (Str.split sep s).
Qed.

(** X1.  What [_get_args] returns is never empty.  Its first token holds no
    opening parenthesis; every further token is free of commas and of
    surrounding whitespace; and a single token is the statement itself. *)
Theorem get_args_tokens (statement : string) (args : list string) :
  _get_args statement = Ok args →
  ∃ name rest,
    args = name :: rest
    ∧ Str.find "(" name = None
    ∧ Forall (λ t, Str.strip t = t ∧ Str.find "," t = None) rest
    ∧ (rest = [] → name = statement).
Proof.
  unfold _get_args.
  destruct (Str.find "(" statement) as [l|] eqn:Hl,
           (Str.find ")" statement) as [r|] eqn:Hr; intros [= <-].
  - eexists _, _. split; [done|]. split; [by apply find_Some_prefix|]. split.
    + apply Forall_fmap. eapply Forall_impl; [apply (split_free ",")|].
      simpl. intros t Ht. split; [apply strip_strip | by apply find_None_strip].
    + intros Hnil. apply fmap_nil_inv in Hnil. by apply split_nonempty in Hnil.
  - exists statement, []. by repeat split.
Qed.

Lemma get_args_tokens_witness :
  ∃ name rest,
    ["foreach"; "a"; "b"] = name :: rest
    ∧ Str.find "(" name = None
    ∧ Forall (λ t, Str.strip t = t ∧ Str.find "," t = None) rest
    ∧ (rest = [] → name = "foreach( a , b )").
Proof. exact (get_args_tokens "foreach( a , b )" _ eq_refl). Defined.

(** X2.  Whitespace around a directive is ignored by both parsers: the
    statement padded with blanks on either side parses as the statement. *)
Theorem parsers_ignore_padding
    (py_int : string → option Z) (ws1 s ws2 : string) :
  blank ws1 → blank ws2 →
  _parse_select (Some (ws1 +:+ s +:+ ws2)) = _parse_select (Some s)
  ∧ _parse_session_select py_int (Some (ws1 +:+ s +:+ ws2))
    = _parse_session_select py_int (Some s).
Proof.
  intros H1 H2. unfold _parse_select, _parse_session_select. simpl.
  by rewrite strip_padded.
Qed.

Lemma parsers_ignore_padding_witness :
  _parse_select (Some ("  " +:+ "some(2)" +:+ " ")) = _parse_select (Some "some(2)")
  ∧ _parse_session_select (λ _, None) (Some ("  " +:+ "some(2)" +:+ " "))
    = _parse_session_select (λ _, None) (Some "some(2)").
Proof.
  apply (parsers_ignore_padding (λ _, None) "  " "some(2)" " "); reflexivity.
Defined.

(** X3.  A session-select statement yields a policy only for the five
    recognised modes.  The mode is the first token of the trimmed statement
    (of [current] when there is no statement); the offset is 0 for
    [current], [sys.maxsize] for [first] and [first-with], and for [prior]
    and [prior-with] the integer that [int] reads from the second token,
    the first argument of the statement. *)
Theorem parse_session_select_recognised
    (py_int : string → option Z) (statement : option string)
    (p : SelectSessionParameters) :
  _parse_session_select py_int statement = Ok p →
  ∃ args,
    _get_args (Str.strip (default "current" statement)) = Ok args
    ∧ args !! 0%nat = Some (mode p)
    ∧ mode p ∈ select_session_namespace
    ∧ (mode p = "current" → delta p = 0)
    ∧ (mode p ∈ ["first"; "first-with"] → delta p = maxsize)
    ∧ (mode p ∈ ["prior"; "prior-with"] →
       ∃ a, args !! 1%nat = Some a ∧ py_int a = Some (delta p)).
Proof.
  unfold _parse_session_select, select_session_namespace. intros Hrun.
  apply bind_Ok_inv in Hrun as (args & Hargs & Hrun).
  apply bind_Ok_inv in Hrun as (a0 & Ha0 & Hrun).
  apply bind_Ok_inv in Hrun as (d & Hd & [= <-]). simpl.
  exists args. split; [done|].
  assert (H0 : args !! 0%nat = Some a0).
  { unfold index in Ha0. destruct (args !! 0%nat); naive_solver. }
  split; [done|].
  destruct (decide (a0 = "current")) as [->|Hn1].
  { injection Hd as <-. split; [by left|]. split; [done|].
    split; rewrite !elem_of_cons, elem_of_nil; by intros [[=]|[[=]|[]]]. }
  destruct (decide (a0 ∈ ["prior"; "prior-with"])) as [Hin|Hn2].
  { apply bind_Ok_inv in Hd as (a1 & Ha1 & Hd). unfold int_of in Hd.
    destruct (py_int a1) as [z|] eqn:Hz; [|done]. injection Hd as <-.
    assert (H1 : args !! 1%nat = Some a1).
    { unfold index in Ha1. destruct (args !! 1%nat); naive_solver. }
    rewrite !elem_of_cons, elem_of_nil in Hin.
    split; [rewrite !elem_of_cons; tauto|]. split; [done|]. split; [|eauto].
    rewrite !elem_of_cons, elem_of_nil. destruct Hin as [->|[->|[]]];
      by intros [[=]|[[=]|[]]]. }
  destruct (decide (a0 ∈ ["first"; "first-with"])) as [Hin|Hn3]; [|done].
  injection Hd as <-. rewrite !elem_of_cons, elem_of_nil in Hin.
  split; [rewrite !elem_of_cons; tauto|]. split; [done|]. split; [done|].
  intros Hp. done.
Qed.

Lemma parse_session_select_recognised_witness :
  ∃ args,
    _get_args (Str.strip (default "current" (Some "prior(2,7)"))) = Ok args
    ∧ args !! 0%nat = Some "prior"
    ∧ "prior" ∈ select_session_namespace
    ∧ ("prior" = "current" → 2 = 0)
    ∧ ("prior" ∈ ["first"; "first-with"] → 2 = maxsize)
    ∧ ("prior" ∈ ["prior"; "prior-with"] →
       ∃ a, args !! 1%nat = Some a
            ∧ (λ s : string,
                 if decide (s = "2") then Some 2
                 else if decide (s = "7") then Some 7 else None) a = Some 2).
Proof.
  exact (parse_session_select_recognised
           (λ s, if decide (s = "2") then Some 2
                 else if decide (s = "7") then Some 7 else None)
           (Some "prior(2,7)") {| mode := "prior"; delta := 2 |} eq_refl).
Defined.

(** ** The mode check *)

(** X4.  The mode check compares the whole field with the names of the
    namespace, so every select statement that carries an argument, the
    grammar's own [foreach(x)], [some(n)] and [from(a/b)] included, is
    reported, with exactly one message. *)
Theorem mode_check_reports_arguments
    (statement name token arg : string) (rest : list string) :
  _parse_select (Some statement) = Ok (token :: arg :: rest) →
  length (_check_valid_mode "scan" name "select" select_namespace
                            (select_field statement)) = 1%nat.
Proof.
  unfold _parse_select, _get_args. simpl. intros Hrun.
  assert (Hparen : Str.find "(" statement ≠ None).
  { intros Hnone. apply find_None_strip in Hnone. rewrite Hnone in Hrun.
    by destruct (Str.find ")" (Str.strip statement)). }
  unfold _check_valid_mode, select_field. rewrite lookup_singleton_eq.
  rewrite decide_False; [done|].
  unfold select_namespace. rewrite !elem_of_cons, elem_of_nil.
  intros [->|[->|[->|[->|[->|[]]]]]]; by apply Hparen.
Qed.

Lemma mode_check_reports_arguments_witness :
  length (_check_valid_mode "scan" "T1" "select" select_namespace
                            (select_field "foreach(T2)")) = 1%nat.
Proof.
  exact (mode_check_reports_arguments "foreach(T2)" "T1" "foreach" "T2" []
           eq_refl).
Defined.

(** ** The input registry *)

Lemma for_each_invariant_in {S A} (P : S → Prop) (body : S → A → result S)
    (l : list A) (st st' : S) :
  (∀ s x s', x ∈ l → P s → body s x = Ok s' → P s') →
  P st → for_each body st l = Ok st' → P st'.
Proof.
  revert st. induction l as [|x l IH]; simpl; intros st Hstep HP Hrun.
  - by injection Hrun as <-.
  - apply bind_Ok_inv in Hrun as (s1 & Hbody & Hrun).
    eapply (IH s1); [| |done].
    + intros s y s' Hy. apply Hstep. by right.
    + eapply Hstep; [by left|done..].
Qed.

Lemma Dict_keys_set_fresh {V} (d : Dict.t V) k v :
  k ∉ Dict.keys d → Dict.keys (Dict.set k v d) = Dict.keys d ++ [k].
Proof.
  unfold Dict.keys. induction d as [|[j w] d IH]; simpl; [done|].
  intros Hk. apply not_elem_of_cons in Hk as [Hne Hk].
  rewrite decide_False by done. simpl. f_equal. by apply IH.
Qed.

Lemma Dict_get_None_keys {V} (d : Dict.t V) k :
  Dict.get d k = None ↔ k ∉ Dict.keys d.
Proof.
  unfold Dict.keys. induction d as [|[j w] d IH]; simpl.
  - split; [intros _; apply not_elem_of_nil | done].
  - rewrite not_elem_of_cons. destruct (decide (j = k)) as [->|Hne].
    + split; [done | by intros [? _]].
    + rewrite IH. naive_solver.
Qed.

Lemma Dict_elem_of_set {V} (d : Dict.t V) k v j w :
  (j, w) ∈ Dict.set k v d → (j, w) = (k, v) ∨ (j, w) ∈ d.
Proof.
  induction d as [|[k' v'] d IH]; simpl.
  - intros ?%list_elem_of_singleton. by left.
  - destruct (decide (k' = k)) as [->|Hne].
    + intros [?|?]%elem_of_cons; [by left | right; by right].
    + intros [->|Hin]%elem_of_cons; [right; by left|].
      destruct (IH Hin); [by left | right; by right].
Qed.

(** What one pass of either loop of [parse_inputs] stores. *)
Lemma parse_scan_stores py_int st s st' :
  parse_scan py_int st s = Ok st' →
  ∃ iv ss,
    ps_inputs st' = Dict.set (y_name s) iv (ps_inputs st)
    ∧ stored_as "scan" s iv
    ∧ required iv = existsb res_required (resources iv)
    ∧ _parse_session_select py_int (default None (y_select_session s)) = Ok ss
    ∧ select_session iv = ss
    ∧ ps_prior_session_count st'
      = Z.max (ps_prior_session_count st) (delta ss).
Proof.
  unfold parse_scan. intros Hrun.
  apply bind_Ok_inv in Hrun as (args & Hargs & Hrun).
  apply bind_Ok_inv in Hrun as (ss & Hss & Hrun).
  apply bind_Ok_inv in Hrun as (reg & Hreg & [= <-]).
  eexists _, ss. split; [done|]. by repeat split.
Qed.

Lemma last_fmap_Some {A B} (f : A → B) (l : list A) x :
  last l = Some x → last (f <$> l) = Some (f x).
Proof. intros H. by rewrite fmap_last, H. Qed.

Lemma parse_assessor_stores py_int st a st' :
  parse_assessor py_int st a = Ok st' →
  ∃ iv ss,
    ps_inputs st' = Dict.set (y_name a) iv (ps_inputs st)
    ∧ stored_as "assessor" a iv
    ∧ (∀ r, last (resources iv) = Some r → required iv = res_required r)
    ∧ _parse_session_select py_int (default None (y_select_session a)) = Ok ss
    ∧ select_session iv = ss
    ∧ ps_prior_session_count st'
      = Z.max (ps_prior_session_count st) (delta ss).
Proof.
  unfold parse_assessor. intros Hrun.
  apply bind_Ok_inv in Hrun as (args & Hargs & Hrun).
  apply bind_Ok_inv in Hrun as (ss & Hss & Hrun).
  apply bind_Ok_inv in Hrun as (reg & Hreg & Hrun).
  apply bind_Ok_inv in Hrun as (req & Hreq & [= <-]).
  eexists _, ss. split; [done|]. repeat split; try done.
  simpl. intros r Hr. unfold last_bound in Hreq. rewrite Hr in Hreq.
  by injection Hreq as <-.
Qed.

Section InputsLoop.

Context (body : ParseState → YamlInput → result ParseState)
        (Q : YamlInput → InputSpec → Prop).

Hypothesis body_stores : ∀ st y st',
  body st y = Ok st' →
  ∃ iv, ps_inputs st' = Dict.set (y_name y) iv (ps_inputs st) ∧ Q y iv.

(** A loop over inputs with fresh, distinct names appends their names in
    order, stores a record for each and leaves the other entries alone. *)
Lemma loop_stores l st st' :
  for_each body st l = Ok st' →
  NoDup (y_name <$> l) →
  (∀ y, y ∈ l → y_name y ∉ Dict.keys (ps_inputs st)) →
  Dict.keys (ps_inputs st') = Dict.keys (ps_inputs st) ++ (y_name <$> l)
  ∧ (∀ k, k ∉ y_name <$> l →
          Dict.get (ps_inputs st') k = Dict.get (ps_inputs st) k)
  ∧ ∀ y, y ∈ l →
         ∃ iv, Dict.get (ps_inputs st') (y_name y) = Some iv ∧ Q y iv.
Proof.
  revert st. induction l as [|y l IH]; intros st Hrun Hnd Hfresh.
  - injection Hrun as <-. rewrite app_nil_r.
    split; [done|]. split; [done|]. by intros y ?%elem_of_nil.
  - simpl in Hrun. apply bind_Ok_inv in Hrun as (st1 & Hstep & Hrun).
    rewrite fmap_cons in Hnd. apply NoDup_cons in Hnd as [Hy Hnd].
    destruct (body_stores _ _ _ Hstep) as (iv & Hset & HQ).
    pose proof (Hfresh y ltac:(left)) as Hyfresh.
    assert (Hkeys1 : Dict.keys (ps_inputs st1)
                     = Dict.keys (ps_inputs st) ++ [y_name y]).
    { rewrite Hset. by apply Dict_keys_set_fresh. }
    destruct (IH st1 Hrun Hnd) as (Hkeys & Hother & Hstored).
    { intros z Hz. rewrite Hkeys1, not_elem_of_app. split.
      - apply Hfresh. by right.
      - rewrite list_elem_of_singleton. intros Heq. apply Hy.
        rewrite <- Heq. apply list_elem_of_fmap. eauto. }
    split; [|split].
    + rewrite Hkeys, Hkeys1, fmap_cons, <- app_assoc. done.
    + intros k Hk. rewrite fmap_cons, not_elem_of_cons in Hk.
      destruct Hk as [Hk1 Hk2]. rewrite (Hother k Hk2), Hset, Dict_get_set.
      by rewrite decide_False.
    + intros z [->|Hz]%elem_of_cons; [|by apply Hstored].
      exists iv. split; [|done].
      rewrite (Hother _ Hy), Hset, Dict_get_set. by rewrite decide_True.
Qed.

End InputsLoop.

(** The shape of [inputs] after a successful parse of distinct names. *)
Lemma parse_inputs_stores py_int xnat st :
  parse_inputs py_int (Some xnat) = Ok st →
  NoDup (declared_names xnat) →
  Dict.keys (ps_inputs st) = declared_names xnat
  ∧ (∀ s, s ∈ x_scans xnat →
          ∃ iv, Dict.get (ps_inputs st) (y_name s) = Some iv
                ∧ stored_as "scan" s iv
                ∧ required iv = existsb res_required (resources iv))
  ∧ (∀ a, a ∈ x_assessors xnat →
          ∃ iv, Dict.get (ps_inputs st) (y_name a) = Some iv
                ∧ stored_as "assessor" a iv
                ∧ ∀ r, last (resources iv) = Some r →
                       required iv = res_required r).
Proof.
  unfold parse_inputs, declared_names. intros Hrun Hnd.
  apply bind_Ok_inv in Hrun as (st1 & Hscans & Hasrs).
  rewrite fmap_app in Hnd. apply NoDup_app in Hnd as (Hnd1 & Hdisj & Hnd2).
  destruct (loop_stores (parse_scan py_int)
              (λ s iv, stored_as "scan" s iv
                       ∧ required iv = existsb res_required (resources iv))
              ltac:(intros ??? H;
                    apply parse_scan_stores in H as (iv & ss & ? & ? & ? & _);
                    eauto)
              _ _ _ Hscans Hnd1)
    as (Hkeys1 & Hother1 & Hstored1).
  { intros y _. apply not_elem_of_nil. }
  destruct (loop_stores (parse_assessor py_int)
              (λ a iv, stored_as "assessor" a iv
                       ∧ ∀ r, last (resources iv) = Some r →
                              required iv = res_required r)
              ltac:(intros ??? H;
                    apply parse_assessor_stores in H
                      as (iv & ss & ? & ? & ? & _);
                    eauto)
              _ _ _ Hasrs Hnd2)
    as (Hkeys2 & Hother2 & Hstored2).
  { intros a Ha. rewrite Hkeys1. simpl. intros Hin. apply (Hdisj _ Hin).
    apply list_elem_of_fmap. eauto. }
  split; [|split].
  - rewrite Hkeys2, Hkeys1, fmap_app. done.
  - intros s Hs. destruct (Hstored1 s Hs) as (iv & Hget & HQ).
    exists iv. split; [|done]. rewrite Hother2; [done|].
    intros Hin. apply (Hdisj (y_name s)); [|done].
    apply list_elem_of_fmap. eauto.
  - intros a Ha. destruct (Hstored2 a Ha) as (iv & Hget & HQ). eauto.
Qed.

Lemma registration_keeps_names name args reg reg' (names : list string) :
  _register_iteration_references name args reg = Ok reg' →
  name ∈ names →
  (∀ n, is_source n reg ∨ is_dependent n reg → n ∈ names) →
  ∀ n, is_source n reg' ∨ is_dependent n reg' → n ∈ names.
Proof.
  intros Hreg Hname Hold n.
  destruct (register_effect _ _ _ _ Hreg)
    as [(_ & _ & ->)|[(_ & _ & ref & ->)|(_ & _ & ->)]].
  - destruct (add_source_spec name reg n) as [-> ->].
    intros [[->|?]|?]; auto.
  - destruct (add_mapping_spec name ref reg n) as [-> ->].
    intros [?|[->|?]]; auto.
  - apply Hold.
Qed.

(** X5.  After a successful parse of a specification whose names are
    distinct, each declared input is classified by its directive alone (an
    ungrouped [foreach], [one] or [all] input is an iteration source only, a
    grouped [foreach] or [from] input a dependent only, any other input
    neither), and the two registries hold no name that is not declared. *)
Theorem registries_classify_declared_inputs
    (py_int : string → option Z) (xnat : XnatSection) (st : ParseState) :
  parse_inputs py_int (Some xnat) = Ok st →
  NoDup (declared_names xnat) →
  (∀ y, y ∈ x_scans xnat ++ x_assessors xnat → classified (ps_registry st) y)
  ∧ ∀ n, is_source n (ps_registry st) ∨ is_dependent n (ps_registry st) →
         n ∈ declared_names xnat.
Proof.
  intros Hrun Hnd. split; [by eapply parse_inputs_classifies|].
  unfold parse_inputs in Hrun.
  apply bind_Ok_inv in Hrun as (st1 & Hscans & Hasrs).
  revert Hasrs.
  apply (for_each_invariant_in
           (λ s, ∀ n, is_source n (ps_registry s) ∨ is_dependent n (ps_registry s)
                      → n ∈ declared_names xnat)).
  { intros s a s' Ha Hs Hstep.
    apply parse_assessor_registers in Hstep as (args & _ & Hreg).
    eapply registration_keeps_names; [exact Hreg| |exact Hs].
    unfold declared_names. apply list_elem_of_fmap. exists a.
    split; [done|]. apply elem_of_app. by right. }
  revert Hscans.
  apply (for_each_invariant_in
           (λ s, ∀ n, is_source n (ps_registry s) ∨ is_dependent n (ps_registry s)
                      → n ∈ declared_names xnat)).
  { intros s a s' Ha Hs Hstep.
    apply parse_scan_registers in Hstep as (args & _ & Hreg).
    eapply registration_keeps_names; [exact Hreg| |exact Hs].
    unfold declared_names. apply list_elem_of_fmap. exists a.
    split; [done|]. apply elem_of_app. by left. }
  unfold is_source, is_dependent. simpl. intros n [Hn|[x Hx]]; [|done].
  by apply not_elem_of_empty in Hn.
Qed.

Ltac distinct_names := refine (bool_decide_unpack _ _); vm_compute; exact I.

Lemma registries_classify_declared_inputs_witness :
  ∃ st,
    parse_inputs (λ _, None) (Some scan_and_assessor) = Ok st
    ∧ (∀ y, y ∈ x_scans scan_and_assessor ++ x_assessors scan_and_assessor →
            classified (ps_registry st) y)
    ∧ ∀ n, is_source n (ps_registry st) ∨ is_dependent n (ps_registry st) →
           n ∈ declared_names scan_and_assessor.
Proof.
  eexists. split; [reflexivity|].
  apply (registries_classify_declared_inputs (λ _, None) scan_and_assessor).
  - reflexivity.
  - distinct_names.
Defined.

(** X6.  After a successful parse of a specification whose names are
    distinct, the keys of [inputs] are the declared names in declaration
    order, scans before assessors, and each name holds the record of its
    own declaration: its parsed directive, its kind, its types split at the
    commas and trimmed, its quality flag and its resources. *)
Theorem parse_inputs_keeps_declaration_order
    (py_int : string → option Z) (xnat : XnatSection) (st : ParseState) :
  parse_inputs py_int (Some xnat) = Ok st →
  NoDup (declared_names xnat) →
  Dict.keys (ps_inputs st) = declared_names xnat
  ∧ (∀ s, s ∈ x_scans xnat →
          ∃ iv, Dict.get (ps_inputs st) (y_name s) = Some iv
                ∧ stored_as "scan" s iv)
  ∧ (∀ a, a ∈ x_assessors xnat →
          ∃ iv, Dict.get (ps_inputs st) (y_name a) = Some iv
                ∧ stored_as "assessor" a iv).
Proof.
  intros Hrun Hnd.
  destruct (parse_inputs_stores _ _ _ Hrun Hnd) as (Hkeys & Hscans & Hasrs).
  split; [done|]. split.
  - intros s Hs. destruct (Hscans s Hs) as (iv & ? & ? & _). eauto.
  - intros a Ha. destruct (Hasrs a Ha) as (iv & ? & ? & _). eauto.
Qed.

Lemma parse_inputs_keeps_declaration_order_witness :
  ∃ st,
    parse_inputs (λ _, None) (Some scan_and_assessor) = Ok st
    ∧ Dict.keys (ps_inputs st) = ["A"; "asr"].
Proof.
  eexists. split; [reflexivity|].
  apply (parse_inputs_keeps_declaration_order (λ _, None) scan_and_assessor).
  - reflexivity.
  - distinct_names.
Defined.

(** X7.  The flag [required] is computed differently for the two kinds.  A
    scan is required exactly when one of its resources is, a resource
    without the key counting as required.  An assessor takes the flag of
    its last resource only: with an optional last resource it is not
    required, whatever the resources before it say. *)
Theorem required_flag_by_kind
    (py_int : string → option Z) (xnat : XnatSection) (st : ParseState) :
  parse_inputs py_int (Some xnat) = Ok st →
  NoDup (declared_names xnat) →
  (∀ s, s ∈ x_scans xnat →
        ∃ iv, Dict.get (ps_inputs st) (y_name s) = Some iv
              ∧ required iv
                = existsb (λ r, default true (yr_required r)) (y_resources s))
  ∧ (∀ a r, a ∈ x_assessors xnat → last (y_resources a) = Some r →
            ∃ iv, Dict.get (ps_inputs st) (y_name a) = Some iv
                  ∧ required iv = default true (yr_required r)).
Proof.
  intros Hrun Hnd.
  destruct (parse_inputs_stores _ _ _ Hrun Hnd) as (_ & Hscans & Hasrs).
  split.
  - intros s Hs.
    destruct (Hscans s Hs) as (iv & Hget & (_ & _ & _ & _ & Hres) & Hreq).
    exists iv. split; [done|]. rewrite Hreq, Hres.
    clear. induction (y_resources s) as [|r rs IH]; [done|].
    rewrite fmap_cons. cbn [existsb]. by rewrite IH.
  - intros a r Ha Hlast.
    destruct (Hasrs a Ha) as (iv & Hget & (_ & _ & _ & _ & Hres) & Hreq).
    exists iv. split; [done|].
    rewrite (Hreq (fill_required r)); [done|].
    rewrite Hres. by apply last_fmap_Some.
Qed.

Lemma required_flag_by_kind_witness :
  ∃ st,
    parse_inputs (λ _, None) (Some scan_and_assessor) = Ok st
    ∧ required <$> Dict.get (ps_inputs st) "A" = Some true
    ∧ required <$> Dict.get (ps_inputs st) "asr" = Some false
    ∧ (∀ s, s ∈ x_scans scan_and_assessor →
            ∃ iv, Dict.get (ps_inputs st) (y_name s) = Some iv
                  ∧ required iv
                    = existsb (λ r, default true (yr_required r))
                              (y_resources s)).
Proof.
  eexists. split; [reflexivity|]. split; [reflexivity|]. split; [reflexivity|].
  apply (required_flag_by_kind (λ _, None) scan_and_assessor).
  - reflexivity.
  - distinct_names.
Defined.

(** X8.  [prior_session_count] is never negative and is at least the
    session offset of every stored input. *)
Theorem prior_session_count_bounds
    (py_int : string → option Z) (xnat : XnatSection) (st : ParseState) :
  parse_inputs py_int (Some xnat) = Ok st →
  0 ≤ ps_prior_session_count st
  ∧ ∀ name iv, (name, iv) ∈ ps_inputs st →
               delta (select_session iv) ≤ ps_prior_session_count st.
Proof.
  unfold parse_inputs. intros Hrun.
  apply bind_Ok_inv in Hrun as (st1 & Hscans & Hasrs).
  set (P := λ s : ParseState,
         0 ≤ ps_prior_session_count s
         ∧ ∀ name iv, (name, iv) ∈ ps_inputs s →
                      delta (select_session iv) ≤ ps_prior_session_count s).
  assert (Hstep : ∀ s s' y iv ss,
            P s → ps_inputs s' = Dict.set (y_name y) iv (ps_inputs s) →
            select_session iv = ss →
            ps_prior_session_count s'
              = Z.max (ps_prior_session_count s) (delta ss) → P s').
  { intros s s' y iv ss [Hpos Hall] Hset Hss Hcount. split; [lia|].
    intros name jv Hin. rewrite Hset in Hin.
    apply Dict_elem_of_set in Hin as [[= -> ->]|Hin].
    - rewrite Hss. lia.
    - specialize (Hall _ _ Hin). lia. }
  revert Hasrs. apply (for_each_invariant P).
  { intros s a s' Hs Hrun.
    apply parse_assessor_stores in Hrun as (iv & ss & ? & _ & _ & _ & ? & ?).
    by eapply Hstep. }
  revert Hscans. apply (for_each_invariant P).
  { intros s a s' Hs Hrun.
    apply parse_scan_stores in Hrun as (iv & ss & ? & _ & _ & _ & ? & ?).
    by eapply Hstep. }
  split; [done|]. by intros name iv ?%elem_of_nil.
Qed.

Lemma parse_session_select_current py_int o :
  default "current" o = "current" →
  _parse_session_select py_int o = Ok {| mode := "current"; delta := 0 |}.
Proof. destruct o as [s|]; simpl; [intros ->|intros _]; reflexivity. Qed.

(** X9.  A specification that [is_longitudinal] finds not longitudinal
    needs no history: if it parses, [prior_session_count] is 0 and every
    stored input reads the current session. *)
Theorem non_longitudinal_needs_no_history
    (py_int : string → option Z) (xnat : XnatSection) (st : ParseState) :
  is_longitudinal xnat = false →
  parse_inputs py_int (Some xnat) = Ok st →
  ps_prior_session_count st = 0
  ∧ ∀ name iv, (name, iv) ∈ ps_inputs st →
               select_session iv = {| mode := "current"; delta := 0 |}.
Proof.
  unfold is_longitudinal, parse_inputs. intros Hlong Hrun.
  assert (Hcur : ∀ y, y ∈ x_scans xnat ++ x_assessors xnat →
            default "current" (default None (y_select_session y))
              = "current").
  { intros y Hy.
    destruct (decide (default (Some "current") (y_select_session y)
                      = Some "current")) as [Heq|Hne].
    - destruct (y_select_session y) as [[v|]|]; simpl in *; congruence.
    - assert (existsb (λ e, bool_decide
                              (default (Some "current") (y_select_session e)
                               ≠ Some "current"))
                      (x_scans xnat ++ x_assessors xnat) = true) as Hex;
        [|congruence].
      apply existsb_exists. exists y. split; [by apply list_elem_of_In|].
      by apply bool_decide_eq_true. }
  apply bind_Ok_inv in Hrun as (st1 & Hscans & Hasrs).
  set (P := λ s : ParseState,
         ps_prior_session_count s = 0
         ∧ ∀ name iv, (name, iv) ∈ ps_inputs s →
                      select_session iv = {| mode := "current"; delta := 0 |}).
  assert (Hstep : ∀ s s' y iv ss,
            y ∈ x_scans xnat ++ x_assessors xnat →
            P s → ps_inputs s' = Dict.set (y_name y) iv (ps_inputs s) →
            _parse_session_select py_int (default None (y_select_session y))
              = Ok ss →
            select_session iv = ss →
            ps_prior_session_count s'
              = Z.max (ps_prior_session_count s) (delta ss) → P s').
  { intros s s' y iv ss Hy [Hzero Hall] Hset Hparse Hss Hcount.
    rewrite (parse_session_select_current py_int _ (Hcur y Hy)) in Hparse.
    injection Hparse as <-. split; [rewrite Hcount, Hzero; done|].
    intros name jv Hin. rewrite Hset in Hin.
    apply Dict_elem_of_set in Hin as [[= -> ->]|Hin]; [done|].
    by apply (Hall name). }
  revert Hasrs. apply (for_each_invariant_in P).
  { intros s a s' Ha Hs Hrun.
    apply parse_assessor_stores in Hrun as (iv & ss & ? & _ & _ & ? & ? & ?).
    eapply (Hstep s s' a); eauto. apply elem_of_app. by right. }
  revert Hscans. apply (for_each_invariant_in P).
  { intros s a s' Ha Hs Hrun.
    apply parse_scan_stores in Hrun as (iv & ss & ? & _ & _ & ? & ? & ?).
    eapply (Hstep s s' a); eauto. apply elem_of_app. by left. }
  split; [done|]. by intros name iv ?%elem_of_nil.
Qed.

Lemma non_longitudinal_needs_no_history_witness :
  ∃ st,
    parse_inputs (λ _, None) (Some scan_and_assessor) = Ok st
    ∧ ps_prior_session_count st = 0
    ∧ ∀ name iv, (name, iv) ∈ ps_inputs st →
                 select_session iv = {| mode := "current"; delta := 0 |}.
Proof.
  eexists. split; [reflexivity|].
  apply (non_longitudinal_needs_no_history (λ _, None) scan_and_assessor);
    reflexivity.
Defined.

Lemma prior_session_count_bounds_witness :
  ∃ st,
    parse_inputs (λ _, None) (Some scan_and_assessor) = Ok st
    ∧ 0 ≤ ps_prior_session_count st
    ∧ ∀ name iv, (name, iv) ∈ ps_inputs st →
                 delta (select_session iv) ≤ ps_prior_session_count st.
Proof.
  eexists. split; [reflexivity|].
  apply (prior_session_count_bounds (λ _, None) scan_and_assessor).
  reflexivity.
Defined.

(** ** The artefact catalogue *)

Lemma parse_artefacts_flat csesses acc :
  foldl (λ arts csess,
           foldl catalogue_entity
                 (foldl catalogue_entity arts (scans csess))
                 (assessors csess))
        acc csesses
  = foldl catalogue_entity acc
          (csesses ≫= λ csess, scans csess ++ assessors csess).
Proof.
  revert acc. induction csesses as [|c cs IH]; intros acc; [done|].
  rewrite bind_cons, !foldl_app. simpl. by rewrite IH.
Qed.

Lemma catalogue_sound l acc path a :
  foldl catalogue_entity acc l !! path = Some a →
  acc !! path = Some a
  ∨ (pa_path a = path ∧ full_path (entity a) = path ∧ entity a ∈ l).
Proof.
  revert acc. induction l as [|e l IH]; intros acc; simpl; [by left|].
  intros Hlook. destruct (IH _ Hlook) as [Hacc|(? & ? & ?)].
  - unfold catalogue_entity in Hacc.
    destruct (decide (full_path e = path)) as [<-|Hne].
    + rewrite lookup_insert_eq in Hacc. injection Hacc as <-.
      right. simpl. repeat split. by left.
    + rewrite lookup_insert_ne in Hacc by done. by left.
  - right. repeat split; try done. by right.
Qed.

Lemma catalogue_keeps l acc path :
  is_Some (acc !! path) → is_Some (foldl catalogue_entity acc l !! path).
Proof.
  revert acc. induction l as [|e l IH]; intros acc Hacc; simpl; [done|].
  apply IH. unfold catalogue_entity.
  destruct (decide (full_path e = path)) as [<-|Hne].
  - rewrite lookup_insert_eq. eauto.
  - by rewrite lookup_insert_ne.
Qed.

Lemma catalogue_complete l acc e :
  e ∈ l → is_Some (foldl catalogue_entity acc l !! full_path e).
Proof.
  revert acc. induction l as [|x l IH]; intros acc Hin; simpl.
  - by apply elem_of_nil in Hin.
  - apply elem_of_cons in Hin as [->|Hin]; [|by apply IH].
    apply catalogue_keeps. unfold catalogue_entity.
    rewrite lookup_insert_eq. eauto.
Qed.

Lemma catalogue_has_session_paths csesses csess p :
  csess ∈ csesses → p ∈ session_paths csess →
  is_Some (parse_artefacts csesses !! p).
Proof.
  intros Hc Hp. unfold session_paths in Hp.
  apply list_elem_of_fmap in Hp as (e & -> & He).
  unfold parse_artefacts. rewrite parse_artefacts_flat.
  apply catalogue_complete, list_elem_of_bind. eauto.
Qed.

(** X10.  The catalogue holds exactly the artefacts of the sessions it is
    built from: every scan and assessor of every session is found under its
    full path, and every entry is stored under the full path of its own
    entity, which is an artefact of one of the sessions. *)
Theorem parse_artefacts_catalogue (csesses : list Session) :
  (∀ csess e, csess ∈ csesses → e ∈ scans csess ++ assessors csess →
              is_Some (parse_artefacts csesses !! full_path e))
  ∧ (∀ path a, parse_artefacts csesses !! path = Some a →
               pa_path a = path ∧ full_path (entity a) = path
               ∧ ∃ csess, csess ∈ csesses
                          ∧ entity a ∈ scans csess ++ assessors csess).
Proof.
  split.
  - intros csess e Hc He. apply (catalogue_has_session_paths _ csess); [done|].
    unfold session_paths. apply list_elem_of_fmap. eauto.
  - intros path a Hlook. unfold parse_artefacts in Hlook.
    rewrite parse_artefacts_flat in Hlook.
    apply catalogue_sound in Hlook as [Hempty|(? & ? & Hin)]; [done|].
    split; [done|]. split; [done|].
    apply list_elem_of_bind in Hin as (csess & ? & ?). eauto.
Qed.

(** ** The mapper *)

Lemma index_elem_of {A} (l : list A) n x : index l n = Ok x → x ∈ l.
Proof.
  unfold index. destruct (l !! n) eqn:Hn; [|done]. intros [= <-].
  by eapply list_elem_of_lookup_2.
Qed.

Lemma index_Z_elem_of {A} (l : list A) z x : index_Z l z = Ok x → x ∈ l.
Proof.
  unfold index_Z. repeat case_decide; try done; apply index_elem_of.
Qed.

Lemma governing_session_elem_of csesses iv csess :
  governing_session csesses iv = Ok (Some csess) → csess ∈ csesses.
Proof.
  unfold governing_session. repeat case_decide; try done.
  - destruct (index_Z csesses _) eqn:Hix; [|done]. intros [= <-].
    by eapply index_Z_elem_of.
  - destruct (index_Z csesses _) eqn:Hix; [|done]. intros [= <-].
    by eapply index_Z_elem_of.
  - destruct (index csesses _) eqn:Hix; [|done]. intros [= <-].
    by eapply index_elem_of.
Qed.

Lemma match_scan_result regex_match iv cscan expressions r :
  match_scan regex_match iv cscan expressions = Ok r →
  r = [] ∨ r = [full_path cscan].
Proof.
  induction expressions as [|e es IH]; simpl; [intros [= <-]; by left|].
  destruct (regex_match e (type_ cscan)); [|done].
  intros Hrun. apply bind_Ok_inv in Hrun as (s0 & _ & Hrun).
  destruct (_ && _); injection Hrun as <-; [by left | by right].
Qed.

(** The candidates of one input in one session come in session order,
    scans before assessors, each artefact at most once. *)
Lemma candidates_in_sublist regex_match iv csess found :
  candidates_in regex_match iv csess = Ok found →
  found `sublist_of` session_paths csess.
Proof.
  unfold candidates_in, session_paths. intros Hrun.
  apply bind_Ok_inv in Hrun as (fs & Hfs & [= <-]).
  rewrite fmap_app. apply sublist_app.
  - apply traverse_Ok_iff in Hfs.
    induction Hfs as [|cscan r scs fs Hr _ IH]; simpl; [done|].
    apply match_scan_result in Hr as [->| ->]; simpl.
    + by apply sublist_cons.
    + by apply sublist_skip.
  - apply fmap_sublist, sublist_filter.
Qed.

Section MapperLoop.

Context (regex_match : string → string → bool) (csesses : list Session).

Let body (abi : gmap string (list string)) (entry : string * InputSpec)
  : result (gmap string (list string)) :=
  let '(i, iv) := entry in
  csess ← governing_session csesses iv;
  match csess with
  | None => Ok abi
  | Some csess =>
      found ← candidates_in regex_match iv csess;
      Ok (<[i := default [] (abi !! i) ++ found]> abi)
  end.

(** While the loop runs over entries with distinct, still empty keys, every
    list in the mapping is empty or is a selection, in session order, of
    the artefacts of one session. *)
Lemma mapper_loop l abi abi' :
  for_each body abi l = Ok abi' →
  NoDup l.*1 →
  (∀ k, k ∈ l.*1 → abi !! k = Some []) →
  (∀ i c, abi !! i = Some c →
          c = [] ∨ ∃ csess, csess ∈ csesses ∧ c `sublist_of` session_paths csess) →
  ∀ i c, abi' !! i = Some c →
         c = [] ∨ ∃ csess, csess ∈ csesses ∧ c `sublist_of` session_paths csess.
Proof.
  revert abi. induction l as [|[k kv] l IH]; intros abi Hrun Hnd Hempty Hinv.
  - by injection Hrun as <-.
  - simpl in Hrun. apply bind_Ok_inv in Hrun as (abi1 & Hstep & Hrun).
    rewrite fmap_cons in Hnd. apply NoDup_cons in Hnd as [Hk Hnd].
    simpl in Hk. unfold body in Hstep.
    apply bind_Ok_inv in Hstep as (g & Hg & Hstep).
    destruct g as [csess|].
    + apply bind_Ok_inv in Hstep as (found & Hfound & [= <-]).
      apply (IH _ Hrun Hnd).
      * intros j Hj. rewrite lookup_insert_ne by (by intros ->).
        apply Hempty. by right.
      * intros i c. destruct (decide (k = i)) as [->|Hne].
        -- rewrite lookup_insert_eq, (Hempty i) by (by left). simpl.
           intros [= <-]. right. exists csess.
           split; [by eapply governing_session_elem_of|].
           by eapply candidates_in_sublist.
        -- rewrite lookup_insert_ne by done. apply Hinv.
    + injection Hstep as <-. apply (IH _ Hrun Hnd); [|done].
      intros j Hj. apply Hempty. by right.
Qed.

End MapperLoop.

Lemma mapped_candidates regex_match csesses inputs abi :
  NoDup (Dict.keys inputs) →
  map_artefacts_to_inputs regex_match csesses inputs = Ok abi →
  ∀ i c, abi !! i = Some c →
         c = [] ∨ ∃ csess, csess ∈ csesses ∧ c `sublist_of` session_paths csess.
Proof.
  unfold map_artefacts_to_inputs, Dict.keys. intros Hnd Hrun.
  assert (Hinit : ∀ k c,
            (list_to_map ((λ k, (k, [])) <$> inputs.*1)
               : gmap string (list string)) !! k = Some c → c = []).
  { intros k c Hk. apply elem_of_list_to_map_2 in Hk.
    by apply list_elem_of_fmap in Hk as (j & [= _ ->] & _). }
  eapply (mapper_loop regex_match csesses inputs); [exact Hrun|done| |].
  - intros k Hk. apply elem_of_list_to_map_1.
    + rewrite <- list_fmap_compose. by rewrite list_fmap_id.
    + apply list_elem_of_fmap. by exists k.
  - intros i c Hc. left. by eapply Hinit.
Qed.

(** X11.  The mapping built by the mapper has exactly the declared inputs as
    its keys: none is missing, none is added. *)
Theorem map_artefacts_to_inputs_keys
    (regex_match : string → string → bool) (csesses : list Session)
    (inputs : Dict.t InputSpec) (abi : gmap string (list string)) :
  map_artefacts_to_inputs regex_match csesses inputs = Ok abi →
  dom abi = list_to_set (Dict.keys inputs).
Proof.
  unfold map_artefacts_to_inputs.
  apply (for_each_invariant_in
           (λ m : gmap string (list string),
              dom m = list_to_set (Dict.keys inputs))).
  - intros m [k kv] m' Hin Hm Hbody.
    apply bind_Ok_inv in Hbody as ([cs|] & _ & Hbody).
    + apply bind_Ok_inv in Hbody as (found & _ & [= <-]).
      rewrite dom_insert_L, Hm. apply subseteq_union_1_L.
      apply singleton_subseteq_l, elem_of_list_to_set.
      unfold Dict.keys. apply list_elem_of_fmap. by exists (k, kv).
    + by injection Hbody as <-.
  - rewrite dom_list_to_map_L. f_equal.
    rewrite <- list_fmap_compose. apply list_fmap_id.
Qed.

Lemma map_artefacts_to_inputs_keys_witness :
  map_artefacts_to_inputs same_type [three_scans] (only_A ["foreach"] true)
    = Ok {["A" := ["s1"; "s3"]]}
  ∧ dom ({["A" := ["s1"; "s3"]]} : gmap string (list string))
    = list_to_set (Dict.keys (only_A ["foreach"] true)).
Proof.
  split; [reflexivity|].
  apply (map_artefacts_to_inputs_keys same_type [three_scans]
           (only_A ["foreach"] true)).
  reflexivity.
Defined.

(** X12.  Every candidate the mapper returns is in the catalogue built from
    the same sessions, under its own path: the generator's lookups of
    candidates in the catalogue cannot miss. *)
Theorem candidates_are_catalogued
    (regex_match : string → string → bool) (csesses : list Session)
    (inputs : Dict.t InputSpec) (abi : gmap string (list string))
    (i p : string) (c : list string) :
  NoDup (Dict.keys inputs) →
  map_artefacts_to_inputs regex_match csesses inputs = Ok abi →
  abi !! i = Some c → p ∈ c →
  ∃ a, parse_artefacts csesses !! p = Some a ∧ pa_path a = p.
Proof.
  intros Hnd Hrun Hc Hp.
  destruct (mapped_candidates _ _ _ _ Hnd Hrun i c Hc)
    as [->|(csess & Hcs & Hsub)]; [by apply elem_of_nil in Hp|].
  destruct (catalogue_has_session_paths csesses csess p Hcs) as [a Ha].
  { by eapply elem_of_sublist. }
  exists a. split; [done|]. unfold parse_artefacts in Ha.
  rewrite parse_artefacts_flat in Ha.
  by apply catalogue_sound in Ha as [?|(? & _)].
Qed.

Lemma candidates_are_catalogued_witness :
  ∃ a, parse_artefacts [three_scans] !! "s3" = Some a ∧ pa_path a = "s3".
Proof.
  apply (candidates_are_catalogued same_type [three_scans]
           (only_A ["foreach"] true) {["A" := ["s1"; "s3"]]}
           "A" "s3" ["s1"; "s3"]).
  - apply NoDup_singleton.
  - reflexivity.
  - reflexivity.
  - right. left.
Defined.

(** X13.  A candidate list is empty or is a selection of the artefacts of
    one session in that session's order, scans before assessors, each
    artefact taken at most once; when the paths of every session are
    distinct, no candidate list has a duplicate. *)
Theorem candidates_keep_session_order
    (regex_match : string → string → bool) (csesses : list Session)
    (inputs : Dict.t InputSpec) (abi : gmap string (list string))
    (i : string) (c : list string) :
  NoDup (Dict.keys inputs) →
  map_artefacts_to_inputs regex_match csesses inputs = Ok abi →
  abi !! i = Some c →
  (c = [] ∨ ∃ csess, csess ∈ csesses ∧ c `sublist_of` session_paths csess)
  ∧ ((∀ csess, csess ∈ csesses → NoDup (session_paths csess)) → NoDup c).
Proof.
  intros Hnd Hrun Hc.
  pose proof (mapped_candidates _ _ _ _ Hnd Hrun i c Hc) as Hsel.
  split; [done|]. intros Hdistinct.
  destruct Hsel as [->|(csess & Hcs & Hsub)]; [constructor|].
  eapply sublist_NoDup; [|exact Hsub]. by apply Hdistinct.
Qed.

Lemma candidates_keep_session_order_witness :
  (["s1"; "s3"] = []
   ∨ ∃ csess, csess ∈ [three_scans]
              ∧ ["s1"; "s3"] `sublist_of` session_paths csess)
  ∧ ((∀ csess, csess ∈ [three_scans] → NoDup (session_paths csess)) →
     NoDup ["s1"; "s3"]).
Proof.
  apply (candidates_keep_session_order same_type [three_scans]
           (only_A ["foreach"] true) {["A" := ["s1"; "s3"]]} "A").
  - apply NoDup_singleton.
  - reflexivity.
  - reflexivity.
Defined.

(** X14.  An input that reads a prior session whose offset reaches past the
    sessions supplied has no governing session: that is not an error, and
    its candidate list stays empty. *)
Theorem prior_out_of_range_is_empty
    (regex_match : string → string → bool) (csesses : list Session)
    (inputs : Dict.t InputSpec) (i : string) (iv : InputSpec) :
  NoDup (Dict.keys inputs) →
  Dict.get inputs i = Some iv →
  mode (select_session iv) ∈ ["prior"; "prior-with"] →
  Z.of_nat (length csesses) ≤ delta (select_session iv) →
  governing_session csesses iv = Ok None
  ∧ ∀ abi, map_artefacts_to_inputs regex_match csesses inputs = Ok abi →
           abi !! i = Some [].
Proof.
  intros Hnd Hi Hmode Hdelta.
  assert (Hgov : governing_session csesses iv = Ok None).
  { unfold governing_session.
    rewrite decide_True by done. by rewrite decide_True by done. }
  split; [done|]. intros abi. unfold map_artefacts_to_inputs.
  apply (for_each_invariant_in
           (λ m : gmap string (list string), m !! i = Some [])).
  - intros m [k kv] m' Hin Hm Hbody.
    destruct (decide (k = i)) as [->|Hne].
    + apply (Dict_elem_of_get _ _ _ Hnd) in Hin.
      rewrite Hi in Hin. injection Hin as <-.
      rewrite Hgov in Hbody. by injection Hbody as <-.
    + apply bind_Ok_inv in Hbody as ([cs|] & _ & Hbody).
      * apply bind_Ok_inv in Hbody as (found & _ & [= <-]).
        by rewrite lookup_insert_ne.
      * by injection Hbody as <-.
  - apply elem_of_list_to_map_1.
    + rewrite <- list_fmap_compose. rewrite list_fmap_id.
      exact Hnd.
    + apply list_elem_of_fmap. exists i. split; [done|].
      unfold Dict.keys. apply list_elem_of_fmap. exists (i, iv).
      split; [done|]. by apply Dict_get_elem_of.
Qed.

Lemma prior_out_of_range_is_empty_witness :
  governing_session [three_scans] (prior_input 1) = Ok None
  ∧ ∀ abi, map_artefacts_to_inputs same_type [three_scans]
             [("P", prior_input 1)] = Ok abi →
           abi !! "P" = Some [].
Proof.
  apply (prior_out_of_range_is_empty same_type [three_scans]
           [("P", prior_input 1)] "P" (prior_input 1)).
  - apply NoDup_singleton.
  - reflexivity.
  - left.
  - simpl. lia.
Defined.

(** ** Resource variables *)

Lemma resource_variables_sound ik acc rs v vi :
  resource_variables ik acc rs !! v = Some vi →
  acc !! v = Some vi
  ∨ (v ≠ "" ∧ vi_input vi = ik
     ∧ ∃ r, r ∈ rs ∧ varname r = Some v ∧ resource r = vi_resource vi).
Proof.
  unfold resource_variables. revert acc.
  induction rs as [|r rs IH]; intros acc; simpl; [by left|].
  intros Hlook. destruct (IH _ Hlook) as [Hacc|(? & ? & r' & ? & ? & ?)].
  - destruct (varname r) as [w|] eqn:Hw; [|by left].
    destruct (decide (w = "")) as [->|Hne]; [by left|].
    destruct (decide (w = v)) as [->|Hwv].
    + rewrite lookup_insert_eq in Hacc. injection Hacc as <-.
      right. repeat split; try done. exists r. repeat split; [by left|done].
    + rewrite lookup_insert_ne in Hacc by done. by left.
  - right. repeat split; try done. exists r'. repeat split; [by right|done..].
Qed.

Lemma resource_variables_keeps ik acc rs v :
  is_Some (acc !! v) → is_Some (resource_variables ik acc rs !! v).
Proof.
  unfold resource_variables. revert acc.
  induction rs as [|r rs IH]; intros acc Hacc; simpl; [done|].
  apply IH. destruct (varname r) as [w|]; [|done].
  destruct (decide (w = "")); [done|].
  destruct (decide (w = v)) as [->|Hne].
  - rewrite lookup_insert_eq. eauto.
  - by rewrite lookup_insert_ne.
Qed.

Lemma resource_variables_complete ik acc rs r v :
  r ∈ rs → varname r = Some v → v ≠ "" →
  is_Some (resource_variables ik acc rs !! v).
Proof.
  revert acc. induction rs as [|x rs IH]; intros acc Hin Hv Hne.
  - by apply elem_of_nil in Hin.
  - apply elem_of_cons in Hin as [<-|Hin].
    + unfold resource_variables. simpl. rewrite Hv, decide_False by done.
      apply (resource_variables_keeps ik). rewrite lookup_insert_eq. eauto.
    + unfold resource_variables. simpl. by apply IH.
Qed.

(** X15.  [parse_variables] maps exactly the non-empty variable names that
    the resources of the inputs declare: each variable points to an input
    that declares a resource under that name, together with that resource's
    name, and no declared non-empty variable is missing. *)
Theorem parse_variables_spec (inputs : Dict.t InputSpec) :
  (∀ v vi, parse_variables inputs !! v = Some vi →
           v ≠ ""
           ∧ ∃ iv r, (vi_input vi, iv) ∈ inputs ∧ r ∈ resources iv
                     ∧ varname r = Some v ∧ resource r = vi_resource vi)
  ∧ (∀ ik iv r v, (ik, iv) ∈ inputs → r ∈ resources iv →
                  varname r = Some v → v ≠ "" →
                  is_Some (parse_variables inputs !! v)).
Proof.
  unfold parse_variables.
  assert (Hsound : ∀ l acc v vi,
    foldl (λ acc '(ik, iv), resource_variables ik acc (resources iv)) acc l
      !! v = Some vi →
    acc !! v = Some vi
    ∨ (v ≠ "" ∧ ∃ iv r, (vi_input vi, iv) ∈ l ∧ r ∈ resources iv
                        ∧ varname r = Some v ∧ resource r = vi_resource vi)).
  { induction l as [|[ik iv] l IH]; intros acc v vi; simpl; [by left|].
    intros Hlook. destruct (IH _ _ _ Hlook) as [Hacc|(? & jv & r & ? & ?)].
    - apply resource_variables_sound in Hacc
        as [?|(? & <- & r & ? & ? & ?)]; [by left|].
      right. split; [done|]. exists iv, r. repeat split; [by left|done..].
    - right. split; [done|]. exists jv, r. split; [by right|done]. }
  assert (Hkeeps : ∀ l acc v,
    is_Some (acc !! v) →
    is_Some (foldl (λ acc '(ik, iv), resource_variables ik acc (resources iv))
                   acc l !! v)).
  { induction l as [|[ik iv] l IH]; intros acc v Hacc; simpl; [done|].
    by apply IH, resource_variables_keeps. }
  split.
  - intros v vi Hlook. by destruct (Hsound _ _ _ _ Hlook) as [?|?].
  - intros ik iv r v Hin Hr Hv Hne. revert Hin. generalize (∅ : gmap string VariableInput).
    induction inputs as [|[jk jv] l IH]; intros acc Hin.
    + by apply elem_of_nil in Hin.
    + simpl. apply elem_of_cons in Hin as [[= <- <-]|Hin]; [|by apply IH].
      by eapply Hkeeps, resource_variables_complete.
Qed.

(** ** Inputs by type *)

Lemma register_input_types_spec types ibt name t n :
  registered_type (_register_input_types types ibt name) t n ↔
  registered_type ibt t n ∨ (n = name ∧ t ∈ types).
Proof.
  unfold _register_input_types, registered_type. revert ibt.
  induction types as [|u types IH]; intros ibt; simpl.
  - rewrite elem_of_nil. naive_solver.
  - rewrite IH, elem_of_cons. clear IH.
    destruct (decide (u = t)) as [->|Hne].
    + rewrite lookup_insert_eq. split.
      * intros [(names & [= <-] & Hn)|?]; [|naive_solver].
        apply elem_of_union in Hn as [->%elem_of_singleton|Hn];
          [naive_solver|].
        left. destruct (ibt !! t) as [s|]; simpl in Hn; [eauto|].
        by apply not_elem_of_empty in Hn.
      * intros [(names & Hnames & Hn)|[-> [_|?]]].
        -- left. eexists. split; [done|]. rewrite Hnames. simpl.
           apply elem_of_union. by right.
        -- left. eexists. split; [done|]. apply elem_of_union. left.
           by apply elem_of_singleton.
        -- by right.
    + rewrite lookup_insert_ne by done. naive_solver.
Qed.

Lemma parse_scan_types py_int st s st' :
  parse_scan py_int st s = Ok st' →
  ps_inputs_by_type st'
  = _register_input_types (split_types (y_types s)) (ps_inputs_by_type st)
                          (y_name s).
Proof.
  unfold parse_scan. intros Hrun.
  apply bind_Ok_inv in Hrun as (args & _ & Hrun).
  apply bind_Ok_inv in Hrun as (ss & _ & Hrun).
  by apply bind_Ok_inv in Hrun as (reg & _ & [= <-]).
Qed.

Lemma parse_assessor_types py_int st a st' :
  parse_assessor py_int st a = Ok st' →
  ps_inputs_by_type st'
  = _register_input_types (split_types (y_types a)) (ps_inputs_by_type st)
                          (y_name a).
Proof.
  unfold parse_assessor. intros Hrun.
  apply bind_Ok_inv in Hrun as (args & _ & Hrun).
  apply bind_Ok_inv in Hrun as (ss & _ & Hrun).
  apply bind_Ok_inv in Hrun as (reg & _ & Hrun).
  by apply bind_Ok_inv in Hrun as (req & _ & [= <-]).
Qed.

Lemma types_loop (body : ParseState → YamlInput → result ParseState) :
  (∀ st y st', body st y = Ok st' →
     ps_inputs_by_type st'
     = _register_input_types (split_types (y_types y)) (ps_inputs_by_type st)
                             (y_name y)) →
  ∀ l st st' t n,
    for_each body st l = Ok st' →
    (registered_type (ps_inputs_by_type st') t n ↔
     registered_type (ps_inputs_by_type st) t n
     ∨ ∃ y, y ∈ l ∧ y_name y = n ∧ t ∈ split_types (y_types y)).
Proof.
  intros Hbody l. induction l as [|y l IH]; intros st st' t n Hrun.
  - injection Hrun as <-. split; [by left|].
    intros [?|(y & ?%elem_of_nil & _)]; done.
  - simpl in Hrun. apply bind_Ok_inv in Hrun as (st1 & Hstep & Hrun).
    rewrite (IH _ _ _ _ Hrun), (Hbody _ _ _ Hstep), register_input_types_spec.
    split.
    + intros [[?|[-> ?]]|(z & ? & ?)]; [by left| |].
      * right. exists y. split; [by left|done].
      * right. exists z. split; [by right|done].
    + intros [?|(z & [->|?]%elem_of_cons & <- & ?)];
        [by left; left|by left; right|].
      right. by exists z.
Qed.

(** X16.  After a successful parse, a name is registered under a type
    exactly when some declared input of that name lists the type, the list
    being split at the commas and each type trimmed. *)
Theorem inputs_by_type_spec
    (py_int : string → option Z) (xnat : XnatSection) (st : ParseState)
    (t n : string) :
  parse_inputs py_int (Some xnat) = Ok st →
  (registered_type (ps_inputs_by_type st) t n ↔
   ∃ y, y ∈ x_scans xnat ++ x_assessors xnat ∧ y_name y = n
        ∧ t ∈ split_types (y_types y)).
Proof.
  unfold parse_inputs. intros Hrun.
  apply bind_Ok_inv in Hrun as (st1 & Hscans & Hasrs).
  rewrite (types_loop _ (parse_assessor_types py_int) _ _ _ t n Hasrs).
  rewrite (types_loop _ (parse_scan_types py_int) _ _ _ t n Hscans).
  split.
  - intros [[(names & Hnames & _)|(y & ? & ?)]|(y & ? & ?)].
    + done.
    + exists y. split; [|done]. apply elem_of_app. by left.
    + exists y. split; [|done]. apply elem_of_app. by right.
  - intros (y & [?|?]%elem_of_app & ?).
    + left. right. by exists y.
    + right. by exists y.
Qed.

Lemma inputs_by_type_spec_witness :
  ∃ st,
    parse_inputs (λ _, None) (Some scan_and_assessor) = Ok st
    ∧ (registered_type (ps_inputs_by_type st) "proc_v1" "asr" ↔
       ∃ y, y ∈ x_scans scan_and_assessor ++ x_assessors scan_and_assessor
            ∧ y_name y = "asr" ∧ "proc_v1" ∈ split_types (y_types y)).
Proof.
  eexists. split; [reflexivity|].
  apply (inputs_by_type_spec (λ _, None) scan_and_assessor).
  reflexivity.
Defined.

(** ** The keys of the rows *)

Lemma build_row_dom headers r row row' :
  build_row headers r row = Ok row' →
  dom row' = list_to_set headers ∪ dom row.
Proof.
  revert r row. induction headers as [|h hs IH]; intros [|x r] row; simpl;
    try done.
  - intros [= <-]. by rewrite union_empty_l_L.
  - intros [= <-]. by rewrite union_empty_l_L.
  - intros Hrun. rewrite (IH _ _ Hrun), dom_insert_L.
    apply set_eq. intros k. rewrite !elem_of_union. tauto.
Qed.

Lemma headers_content inputs imap artefacts san sources dimensions ds :
  (∀ k c, san !! k = Some c → c ≠ []) →
  Forall2 (λ s d, source_dimension inputs imap artefacts san s = Ok d)
          sources dimensions →
  Forall2 (λ d D, d.2 = Some D) dimensions ds →
  (∀ s, s ∈ sources → s ∈ concat dimensions.*1)
  ∧ (∀ k, k ∈ concat dimensions.*1 → k ∈ sources ∨ k ∈ Dict.keys imap).
Proof.
  intros Hsan Hdims. revert ds.
  induction Hdims as [|s [mapped d] sources dimensions Hd _ IH];
    intros ds Hds.
  - split; intros k Hk; by apply elem_of_nil in Hk.
  - apply Forall2_cons_inv_l in Hds as (D & ds' & HD & Hds & ->).
    simpl in HD. subst d.
    destruct (source_dimension_shape _ _ _ _ _ _ _ Hsan Hd)
      as (names & -> & Hnames & _).
    destruct (IH _ Hds) as [IH1 IH2]. simpl. split.
    + intros k [->|Hk]%elem_of_cons; [by left|].
      right. apply elem_of_app. right. by apply IH1.
    + intros k [->|[Hk|Hk]%elem_of_app]%elem_of_cons.
      * left. by left.
      * right. by eapply Forall_forall in Hnames.
      * destruct (IH2 k Hk); [left; by right | by right].
Qed.

(** X17.  All rows of a matrix have the same keys.  Every iteration source
    is a key of every row, and every key of a row is an iteration source
    or an input of the iteration map. *)
Theorem rows_share_their_keys
    (inputs : Dict.t InputSpec) (iteration_sources : list string)
    (iteration_map : Dict.t string)
    (artefacts : gmap string ParserArtefact)
    (artefacts_by_input : gmap string (list string)) (rows : list Row) :
  generate_parameter_matrix inputs iteration_sources iteration_map
                            artefacts artefacts_by_input = Ok rows →
  (∀ row, row ∈ rows →
     (∀ s, s ∈ iteration_sources → is_Some (row !! s))
     ∧ (∀ k, is_Some (row !! k) →
             k ∈ iteration_sources ∨ k ∈ Dict.keys iteration_map))
  ∧ (∀ row1 row2, row1 ∈ rows → row2 ∈ rows → dom row1 = dom row2).
Proof.
  intros Hrun.
  apply generate_parameter_matrix_Ok_inv in Hrun
    as [->|(san & dimensions & ds & Hsan & Hdims & Hds & Hrows)].
  { split; [intros row ?%elem_of_nil | intros r1 r2 ?%elem_of_nil]; done. }
  pose proof (sanitised_inputs_nonempty _ _ _ Hsan) as Hne.
  destruct (headers_content _ _ _ _ _ _ _ Hne Hdims Hds) as [Hsrc Hkeys].
  assert (Hdom : ∀ row, row ∈ rows →
            dom row = list_to_set (concat dimensions.*1)).
  { intros row Hrow. apply list_elem_of_lookup in Hrow as [k Hk].
    destruct (Forall2_lookup_r _ _ _ _ _ Hrows Hk) as (r & _ & Hbuild).
    rewrite (build_row_dom _ _ _ _ Hbuild), dom_empty_L.
    by rewrite union_empty_r_L. }
  split.
  - intros row Hrow. split.
    + intros s Hs. apply elem_of_dom. rewrite (Hdom row Hrow).
      apply elem_of_list_to_set. by apply Hsrc.
    + intros k Hk. apply elem_of_dom in Hk. rewrite (Hdom row Hrow) in Hk.
      apply elem_of_list_to_set in Hk. by apply Hkeys.
  - intros row1 row2 H1 H2. by rewrite (Hdom row1 H1), (Hdom row2 H2).
Qed.

Lemma rows_share_their_keys_witness :
  (∀ row, row ∈ [<["B" := VStr "b1"]> {["A" := VStr "a1"]};
                 <["B" := VStr "b2"]> ({["A" := VStr "a2"]} : Row)] →
     (∀ s, s ∈ ["A"] → is_Some (row !! s))
     ∧ (∀ k, is_Some (row !! k) →
             k ∈ ["A"] ∨ k ∈ Dict.keys [("B", "A")]))
  ∧ (∀ row1 row2,
       row1 ∈ [<["B" := VStr "b1"]> {["A" := VStr "a1"]};
               <["B" := VStr "b2"]> ({["A" := VStr "a2"]} : Row)] →
       row2 ∈ [<["B" := VStr "b1"]> {["A" := VStr "a1"]};
               <["B" := VStr "b2"]> ({["A" := VStr "a2"]} : Row)] →
       dom row1 = dom row2).
Proof.
  apply (rows_share_their_keys inputs_A_with_B ["A"] [("B", "A")] ∅
           candidates_AB).
  reflexivity.
Defined.

(** ** The consistency filter *)

Lemma filter_matrix_cons p pm fs arts :
  filter_matrix (p :: pm) fs arts =
    vs ← traverse (filter_holds p arts) fs;
    rest ← filter_matrix pm fs arts;
    Ok ((if forallb id vs then [p] else []) ++ rest).
Proof.
  unfold filter_matrix. simpl.
  destruct (traverse (filter_holds p arts) fs) as [vs|e]; simpl; [|done].
  by destruct (traverse _ pm) as [kept|e].
Qed.

Lemma filter_matrix_nil fs arts : filter_matrix [] fs arts = Ok [].
Proof. done. Qed.

(** X18.  The filter only removes rows: what it returns is a subsequence of
    the matrix, in the same order; without filters it returns the matrix
    itself; and filtering the result again returns it unchanged. *)
Theorem filter_matrix_only_removes
    (parameter_matrix : list Row) (match_filters : list (list string))
    (artefacts : gmap string ParserArtefact) (kept : list Row) :
  filter_matrix parameter_matrix match_filters artefacts = Ok kept →
  kept `sublist_of` parameter_matrix
  ∧ (match_filters = [] → kept = parameter_matrix)
  ∧ filter_matrix kept match_filters artefacts = Ok kept.
Proof.
  revert kept. induction parameter_matrix as [|p pm IH]; intros kept Hrun.
  - injection Hrun as <-. done.
  - rewrite filter_matrix_cons in Hrun.
    apply bind_Ok_inv in Hrun as (vs & Hvs & Hrun).
    apply bind_Ok_inv in Hrun as (rest & Hrest & [= <-]).
    destruct (IH _ Hrest) as (Hsub & Hid & Hagain).
    split; [|split].
    + destruct (forallb id vs); simpl.
      * by apply sublist_skip.
      * by apply sublist_cons.
    + intros ->. injection Hvs as <-. simpl. f_equal. by apply Hid.
    + destruct (forallb id vs) eqn:Hall; simpl; [|done].
      rewrite filter_matrix_cons, Hvs. simpl. rewrite Hagain. simpl.
      by rewrite Hall.
Qed.

Lemma filter_matrix_only_removes_witness :
  [row_AB "x" "x"] `sublist_of` [row_AB "x" "x"; row_AB "x" "y"]
  ∧ (filter_AB = [] → [row_AB "x" "x"] = [row_AB "x" "x"; row_AB "x" "y"])
  ∧ filter_matrix [row_AB "x" "x"] filter_AB ∅ = Ok [row_AB "x" "x"].
Proof.
  apply (filter_matrix_only_removes
           [row_AB "x" "x"; row_AB "x" "y"] filter_AB ∅ [row_AB "x" "x"]).
  reflexivity.
Defined.

Lemma get_input_value_plain name p arts :
  plain name → get_input_value name p arts = getitem p name.
Proof. unfold plain, get_input_value. by intros ->. Qed.

Lemma all_equal_plain v others (p : Row) arts :
  Forall plain others →
  (∀ name, name ∈ others → is_Some (p !! name)) →
  ∃ b, all_equal v others p arts = Ok b
       ∧ (b = true ↔ ∀ name, name ∈ others → p !! name = Some v).
Proof.
  induction 1 as [|name others Hplain _ IH]; intros Hkeys; simpl.
  - exists true. split; [done|]. split; [|done].
    intros _ name Hin. by apply elem_of_nil in Hin.
  - rewrite get_input_value_plain by done.
    destruct (Hkeys name) as [x Hx]; [by left|].
    rewrite (getitem_Some _ _ _ Hx). simpl.
    destruct (decide (x ≠ v)) as [Hne|Heq].
    + exists false. split; [done|]. split; [done|].
      intros Hall. specialize (Hall name ltac:(left)). congruence.
    + apply dec_stable in Heq. subst x.
      destruct IH as (b & Hb & Hiff).
      { intros n Hn. apply Hkeys. by right. }
      exists b. split; [done|]. rewrite Hiff. split.
      * intros Hall n [->|Hn]%elem_of_cons; [done | by apply Hall].
      * intros Hall n Hn. apply Hall. by right.
Qed.

Lemma filter_holds_plain (p : Row) arts group :
  group ≠ [] → Forall plain group →
  (∀ name, name ∈ group → is_Some (p !! name)) →
  ∃ b, filter_holds p arts group = Ok b ∧ (b = true ↔ agrees p group).
Proof.
  intros Hne Hplain Hkeys. destruct group as [|name others]; [done|].
  apply Forall_cons in Hplain as [Hname Hothers].
  unfold filter_holds. simpl.
  rewrite get_input_value_plain by done.
  destruct (Hkeys name) as [v Hv]; [by left|].
  rewrite (getitem_Some _ _ _ Hv). simpl. rewrite drop_0.
  destruct (all_equal_plain v others p arts Hothers) as (b & -> & Hiff).
  { intros n Hn. apply Hkeys. by right. }
  exists b. split; [done|]. rewrite Hiff. unfold agrees. split.
  - intros Hall a c Ha Hc.
    assert (Hval : ∀ n, n ∈ name :: others → p !! n = Some v).
    { intros n [->|Hn]%elem_of_cons; [done | by apply Hall]. }
    by rewrite (Hval a Ha), (Hval c Hc).
  - intros Hag n Hn. rewrite <- Hv. apply Hag; [by right | by left].
Qed.

Lemma verdicts_plain (p : Row) arts fs :
  Forall (λ group, group ≠ [] ∧ Forall plain group) fs →
  (∀ group name, group ∈ fs → name ∈ group → is_Some (p !! name)) →
  ∃ vs, traverse (filter_holds p arts) fs = Ok vs
        ∧ (forallb id vs = true ↔ ∀ group, group ∈ fs → agrees p group).
Proof.
  induction 1 as [|group fs [Hne Hplain] _ IH]; intros Hkeys; simpl.
  - exists []. split; [done|]. split; [|done].
    intros _ g Hg. by apply elem_of_nil in Hg.
  - destruct (filter_holds_plain p arts group Hne Hplain) as (b & -> & Hb).
    { intros n Hn. apply (Hkeys group); [by left | done]. }
    destruct IH as (vs & -> & Hvs).
    { intros g n Hg Hn. apply (Hkeys g); [by right | done]. }
    simpl. exists (b :: vs). split; [done|]. simpl.
    rewrite andb_true_iff, Hvs. change (id b) with b. rewrite Hb. split.
    + intros [H1 H2] g [->|Hg]%elem_of_cons; [done | by apply H2].
    + intros Hall. split; [apply Hall; by left|].
      intros g Hg. apply Hall. by right.
Qed.

(** X19.  When every filter group is non-empty and names only cells of the
    rows, and every row has a cell for every name, the filter returns, and
    it keeps exactly the rows that hold one value under all names of each
    group. *)
Theorem filter_matrix_keeps_agreeing_rows
    (parameter_matrix : list Row) (match_filters : list (list string))
    (artefacts : gmap string ParserArtefact) :
  Forall (λ group, group ≠ [] ∧ Forall plain group) match_filters →
  (∀ p group name, p ∈ parameter_matrix → group ∈ match_filters →
                   name ∈ group → is_Some (p !! name)) →
  ∃ kept,
    filter_matrix parameter_matrix match_filters artefacts = Ok kept
    ∧ ∀ p, p ∈ kept ↔
           p ∈ parameter_matrix
           ∧ ∀ group, group ∈ match_filters → agrees p group.
Proof.
  intros Hfs. induction parameter_matrix as [|p pm IH]; intros Hkeys.
  - exists []. split; [done|]. intros p. split.
    + by intros ?%elem_of_nil.
    + by intros [?%elem_of_nil _].
  - destruct IH as (rest & Hrest & Hiff).
    { intros q g n Hq. apply Hkeys. by right. }
    destruct (verdicts_plain p artefacts match_filters Hfs)
      as (vs & Hvs & Hall).
    { intros g n. apply Hkeys. by left. }
    rewrite filter_matrix_cons, Hvs. simpl. rewrite Hrest. simpl.
    eexists. split; [done|]. intros q.
    rewrite elem_of_app, Hiff, elem_of_cons.
    destruct (forallb id vs).
    + rewrite list_elem_of_singleton. split.
      * intros [->|[? ?]]; [|tauto]. split; [by left|]. by apply Hall.
      * intros [[->|?] ?]; tauto.
    + rewrite elem_of_nil. split.
      * intros [[]|[? ?]]. tauto.
      * intros [[->|?] Hq]; [|tauto]. apply Hall in Hq. done.
Qed.

Lemma filter_matrix_keeps_agreeing_rows_witness :
  ∃ kept,
    filter_matrix [row_AB "x" "x"; row_AB "x" "y"] filter_AB ∅ = Ok kept
    ∧ ∀ p, p ∈ kept ↔
           p ∈ [row_AB "x" "x"; row_AB "x" "y"]
           ∧ ∀ group, group ∈ filter_AB → agrees p group.
Proof.
  apply (filter_matrix_keeps_agreeing_rows
           [row_AB "x" "x"; row_AB "x" "y"] filter_AB ∅).
  - repeat constructor; done.
  - intros p group name Hp Hg Hn.
    apply list_elem_of_singleton in Hg as ->.
    rewrite !elem_of_cons, elem_of_nil in Hp.
    rewrite !elem_of_cons, elem_of_nil in Hn.
    destruct Hp as [->|[->|[]]], Hn as [->|[->|[]]]; by eexists.
Defined.

Lemma traverse_app_raise {A B} (f : A → result B) l1 x l2 ys e :
  traverse f l1 = Ok ys → f x = Raise e →
  traverse f (l1 ++ x :: l2) = Raise e.
Proof.
  revert ys. induction l1 as [|a l1 IH]; intros ys Hl1 Hx; simpl in *.
  - by rewrite Hx.
  - apply bind_Ok_inv in Hl1 as (y & -> & Hl1).
    apply bind_Ok_inv in Hl1 as (ys' & Hl1 & _).
    simpl. by rewrite (IH _ Hl1 Hx).
Qed.

(** X20.  A filter never drops a row for a missing cell.  When the rows and
    filters before it evaluate, a filter whose first name is a plain name
    with no cell in the row raises [KeyError], also when an earlier filter
    has already rejected that row. *)
Theorem filter_matrix_missing_cell
    (before after : list Row) (p : Row)
    (earlier later : list (list string)) (name : string)
    (others : list string)
    (artefacts : gmap string ParserArtefact)
    (kept : list Row) (verdicts : list bool) :
  let match_filters := earlier ++ (name :: others) :: later in
  filter_matrix before match_filters artefacts = Ok kept →
  traverse (filter_holds p artefacts) earlier = Ok verdicts →
  plain name →
  p !! name = None →
  filter_matrix (before ++ p :: after) match_filters artefacts
    = Raise KeyError.
Proof.
  intros fs Hbefore Hearlier Hplain Hmissing.
  assert (Hrow : traverse (filter_holds p artefacts) fs = Raise KeyError).
  { apply (traverse_app_raise _ _ _ _ verdicts); [done|].
    unfold filter_holds. simpl. rewrite get_input_value_plain by done.
    unfold getitem. by rewrite Hmissing. }
  unfold filter_matrix in *.
  apply bind_Ok_inv in Hbefore as (blocks & Hblocks & _).
  rewrite (traverse_app_raise _ _ _ _ blocks KeyError); [done..|].
  by rewrite Hrow.
Qed.

Lemma filter_matrix_missing_cell_witness :
  filter_matrix ([] ++ row_AB "x" "y" :: [row_AB "x" "x"])
                ([["A"; "B"]] ++ ["C"] :: []) ∅
    = Raise KeyError.
Proof.
  apply (filter_matrix_missing_cell [] [row_AB "x" "x"] (row_AB "x" "y")
           [["A"; "B"]] [] "C" [] ∅ [] [false]);
    reflexivity.
Defined.

(** ** The reconciler, whatever the entities record *)

Lemma compare_to_existing_Ok_inv csesses proc_type (m : list Row) pairs :
  compare_to_existing csesses proc_type m = Ok pairs →
  pairs = [] ∨
  ∃ csess rest,
    csesses = csess :: rest
    ∧ pairs = (λ p, (p, matching p (of_type proc_type (assessors csess))))
                <$> m.
Proof.
  unfold compare_to_existing. destruct csesses as [|csess rest]; [done|].
  simpl.
  destruct (decide (Forall (λ c, is_Some (get_inputs c))
                           (of_type proc_type (assessors csess))))
    as [Hall|Hnot].
  - rewrite reconcile_all_retrieved.
    + rewrite zip_fresh_columns. intros [= <-]. right. eauto.
    + intros casr Hin. by eapply Forall_forall in Hall.
    + by rewrite length_replicate.
  - apply not_Forall_Exists in Hnot; [|apply _].
    apply Exists_exists in Hnot as (casr & Hin & Hnone).
    rewrite (reconcile_not_retrieved _ _ _ casr Hin).
    + intros [= <-]. by left.
    + destruct (get_inputs casr) eqn:Hget; [|done].
      destruct Hnone. by eexists.
Qed.

Lemma matching_elem_of casr (p : Row) proc_type l :
  casr ∈ matching p (of_type proc_type l) →
  casr ∈ l ∧ type_ casr = proc_type
  ∧ ∃ recorded, get_inputs casr = Some recorded ∧ p = decoded recorded.
Proof.
  unfold matching, of_type. rewrite !list_elem_of_filter.
  intros (Heq & Hty & Hin). split; [done|]. split; [done|].
  destruct (get_inputs casr) as [recorded|]; [|done].
  injection Heq as <-. eauto.
Qed.

(** X21.  Whenever reconciliation returns, an entity is listed only under a
    row that equals its recorded mapping, decoded: the entity is an assessor
    of the first session, has the target type and records the row it is
    listed under, so the row holds a plain string in every cell, and two
    rows that both list the entity are equal.  A row with a null or list
    cell lists no entity. *)
Theorem entity_listed_under_its_row
    (csesses : list Session) (proc_type : string)
    (parameter_matrix : list Row) (pairs : list (Row * list Entity))
    (i j : nat) (p1 p2 : Row) (found1 found2 : list Entity)
    (casr : Entity) :
  compare_to_existing csesses proc_type parameter_matrix = Ok pairs →
  pairs !! i = Some (p1, found1) →
  pairs !! j = Some (p2, found2) →
  casr ∈ found1 → casr ∈ found2 →
  (∃ csess recorded,
     csesses !! 0%nat = Some csess
     ∧ casr ∈ assessors csess
     ∧ get_inputs casr = Some recorded
     ∧ parameter_matrix !! i = Some p1
     ∧ dom p1 = dom recorded
     ∧ ∀ k, p1 !! k = VAtom <$> (Some <$> recorded !! k))
  ∧ p1 = p2
  ∧ type_ casr = proc_type
  ∧ ∀ k v, p1 !! k = Some v → ∃ s, v = VStr s.
Proof.
  intros Hrun Hi Hj H1 H2.
  apply compare_to_existing_Ok_inv in Hrun as [->|(csess & rest & -> & ->)];
    [done|].
  rewrite list_lookup_fmap in Hi, Hj.
  destruct (parameter_matrix !! i) as [q1|] eqn:Hq1; [|done].
  destruct (parameter_matrix !! j) as [q2|]; [|done].
  simpl in Hi, Hj. injection Hi as -> <-. injection Hj as -> <-.
  apply matching_elem_of in H1 as (Hin & Hty & r1 & Hr1 & ->).
  apply matching_elem_of in H2 as (_ & _ & r2 & Hr2 & ->).
  rewrite Hr1 in Hr2. injection Hr2 as <-.
  split; [|split; [done|]; split; [done|]].
  - exists csess, r1. split; [done|]. split; [done|]. split; [done|].
    split; [done|]. unfold decoded. split.
    + by rewrite dom_fmap_L.
    + intros k. rewrite lookup_fmap. by destruct (r1 !! k).
  - intros k v. unfold decoded. rewrite lookup_fmap.
    destruct (r1 !! k) as [s|]; [|done]. intros [= <-]. eauto.
Qed.

Lemma entity_listed_under_its_row_witness :
  (∃ csess recorded,
     [session_with
        [assessor_with "x1" (Some (<["B" := "x"]> {["A" := "x"]}))]]
       !! 0%nat = Some csess
     ∧ assessor_with "x1" (Some (<["B" := "x"]> {["A" := "x"]}))
         ∈ assessors csess
     ∧ get_inputs (assessor_with "x1" (Some (<["B" := "x"]> {["A" := "x"]})))
       = Some recorded
     ∧ [row_AB "x" "x"; row_AB "x" "y"] !! 0%nat = Some (row_AB "x" "x")
     ∧ dom (row_AB "x" "x") = dom recorded
     ∧ ∀ k, row_AB "x" "x" !! k = VAtom <$> (Some <$> recorded !! k))
  ∧ row_AB "x" "x" = row_AB "x" "x"
  ∧ type_ (assessor_with "x1" (Some (<["B" := "x"]> {["A" := "x"]}))) = "proc"
  ∧ ∀ k v, row_AB "x" "x" !! k = Some v → ∃ s, v = VStr s.
Proof.
  apply (entity_listed_under_its_row
           [session_with
              [assessor_with "x1" (Some (<["B" := "x"]> {["A" := "x"]}))]]
           "proc" [row_AB "x" "x"; row_AB "x" "y"]
           [(row_AB "x" "x",
             [assessor_with "x1" (Some (<["B" := "x"]> {["A" := "x"]}))]);
            (row_AB "x" "y", [])]
           0%nat 0%nat (row_AB "x" "x") (row_AB "x" "x")
           [assessor_with "x1" (Some (<["B" := "x"]> {["A" := "x"]}))]
           [assessor_with "x1" (Some (<["B" := "x"]> {["A" := "x"]}))]
           (assessor_with "x1" (Some (<["B" := "x"]> {["A" := "x"]}))));
    try reflexivity; by left.
Defined.

(** ** The sessions [parse_session] reads *)

Lemma list_index_app newer csess older :
  csess ∉ newer →
  list_index (newer ++ csess :: older) csess = Ok (length newer).
Proof.
  induction newer as [|s newer IH]; intros Hnot; simpl.
  - by rewrite decide_True.
  - rewrite decide_False by (intros ->; apply Hnot; by left).
    rewrite IH; [done|]. intros Hin. apply Hnot. by right.
Qed.

Lemma list_index_missing sessions csess :
  csess ∉ sessions →
  list_index sessions csess = Raise (ValueError "is not in list").
Proof.
  induction sessions as [|s sessions IH]; intros Hnot; simpl; [done|].
  rewrite decide_False by (intros ->; apply Hnot; by left).
  rewrite IH; [done|]. intros Hin. apply Hnot. by right.
Qed.

Lemma list_index_Ok_inv sessions csess n :
  list_index sessions csess = Ok n → sessions !! n = Some csess.
Proof.
  revert n. induction sessions as [|s sessions IH]; intros n; simpl; [done|].
  destruct (decide (s = csess)) as [->|Hne].
  - by intros [= <-].
  - destruct (list_index sessions csess) as [k|e] eqn:Hk; [|done].
    intros [= <-]. by apply IH.
Qed.

Lemma non_increasing_app_r l1 l2 :
  non_increasing (l1 ++ l2) → non_increasing l2.
Proof.
  unfold non_increasing. intros H i j a b Hij Ha Hb.
  apply (H (length l1 + i)%nat (length l1 + j)%nat); [lia|..];
    by rewrite lookup_app_r, Nat.add_comm, Nat.add_sub by lia.
Qed.

(** X22.  For a parser that is not longitudinal, the session list is only
    checked for its order: on an ordered list the outcome is that of the
    empty list, whatever the list holds, the session of interest included
    or not. *)
Theorem parse_session_reads_current_only
    (regex_match : string → string → bool)
    (set_iter : gset string → list string)
    (self : ProcessorParser) (csess : Session) (sessions : list Session) :
  is_longitudinal_ self = false →
  non_increasing sessions →
  parse_session regex_match set_iter self csess sessions
    = parse_session regex_match set_iter self csess [].
Proof.
  intros Hflag Hord. apply check_order_Ok_iff in Hord.
  unfold parse_session. rewrite Hord, Hflag. done.
Qed.

Lemma parse_session_reads_current_only_witness :
  parse_session (λ _ _, false) elements bare_parser (session_at 7)
                [session_at 3; session_at 2]
    = parse_session (λ _ _, false) elements bare_parser (session_at 7) [].
Proof.
  apply (parse_session_reads_current_only (λ _ _, false) elements
           bare_parser (session_at 7) [session_at 3; session_at 2]).
  - reflexivity.
  - apply check_order_Ok_iff. reflexivity.
Defined.

(** X23.  For a longitudinal parser and an ordered session list: a session
    of interest that is not in the list ends the call in the [ValueError]
    of [list.index]; otherwise the sessions listed before its first
    occurrence play no part, the outcome is that of the list that starts
    at it. *)
Theorem parse_session_reads_history
    (regex_match : string → string → bool)
    (set_iter : gset string → list string)
    (self : ProcessorParser) (csess : Session) (sessions : list Session) :
  is_longitudinal_ self = true →
  non_increasing sessions →
  (csess ∉ sessions →
   parse_session regex_match set_iter self csess sessions
     = Raise (ValueError "is not in list"))
  ∧ (∀ newer older,
       sessions = newer ++ csess :: older → csess ∉ newer →
       parse_session regex_match set_iter self csess sessions
         = parse_session regex_match set_iter self csess (csess :: older)).
Proof.
  intros Hflag Hord. split.
  - intros Hnot. apply check_order_Ok_iff in Hord.
    unfold parse_session. rewrite Hord, Hflag. simpl.
    by rewrite list_index_missing.
  - intros newer older -> Hnot.
    pose proof (non_increasing_app_r _ _ Hord) as Hord'.
    apply check_order_Ok_iff in Hord, Hord'.
    unfold parse_session. rewrite Hord, Hord', Hflag.
    rewrite list_index_app by done.
    assert (Hfirst : list_index (csess :: older) csess = Ok 0%nat).
    { simpl. by rewrite decide_True. }
    rewrite Hfirst. simpl. by rewrite drop_app_length.
Qed.

Lemma parse_session_reads_history_witness :
  (session_at 2 ∉ [session_at 3; session_at 2; session_at 1] →
   parse_session (λ _ _, false) elements history_parser (session_at 2)
                 [session_at 3; session_at 2; session_at 1]
     = Raise (ValueError "is not in list"))
  ∧ (∀ newer older,
       [session_at 3; session_at 2; session_at 1]
         = newer ++ session_at 2 :: older →
       session_at 2 ∉ newer →
       parse_session (λ _ _, false) elements history_parser (session_at 2)
                     [session_at 3; session_at 2; session_at 1]
         = parse_session (λ _ _, false) elements history_parser
                         (session_at 2) (session_at 2 :: older)).
Proof.
  apply (parse_session_reads_history (λ _ _, false) elements history_parser
           (session_at 2) [session_at 3; session_at 2; session_at 1]).
  - reflexivity.
  - apply check_order_Ok_iff. reflexivity.
Defined.

(** X24.  What a completed [parse_session] stores hangs together: the
    reconciliation list is empty or has the stored matrix as its rows, in
    order; every entity it lists is an assessor of the session of interest,
    also for a longitudinal parser, has the parser's process type and
    records exactly the row it is listed under; and every artefact of the
    session of interest is in the stored catalogue. *)
Theorem parse_session_result_coherent
    (regex_match : string → string → bool)
    (set_iter : gset string → list string)
    (self : ProcessorParser) (csess : Session) (sessions : list Session)
    (r : ParsedSession) :
  parse_session regex_match set_iter self csess sessions = Ok r →
  (assessor_parameter_map r = []
   ∨ (assessor_parameter_map r).*1 = parameter_matrix r)
  ∧ (∀ p found casr,
       (p, found) ∈ assessor_parameter_map r → casr ∈ found →
       casr ∈ assessors csess ∧ type_ casr = proctype self
       ∧ decoded <$> get_inputs casr = Some p)
  ∧ (∀ e, e ∈ scans csess ++ assessors csess →
          is_Some (artefacts r !! full_path e)).
Proof.
  unfold parse_session. intros Hrun.
  apply bind_Ok_inv in Hrun as ([] & _ & Hrun).
  apply bind_Ok_inv in Hrun as (relevant & Hrel & Hrun).
  apply bind_Ok_inv in Hrun as (abi & _ & Hrun).
  apply bind_Ok_inv in Hrun as (generated & _ & Hrun).
  apply bind_Ok_inv in Hrun as (m & _ & Hrun).
  apply bind_Ok_inv in Hrun as (pairs & Hpairs & [= <-]). simpl.
  assert (Hhead : ∃ rest, relevant = csess :: rest).
  { destruct (is_longitudinal_ self); simpl in Hrel.
    - apply bind_Ok_inv in Hrel as (ix & Hix & [= <-]).
      apply list_index_Ok_inv in Hix.
      exists (drop (S ix) sessions). by apply drop_S.
    - injection Hrel as <-. by exists []. }
  destruct Hhead as [rest ->].
  split; [|split].
  - apply compare_to_existing_Ok_inv in Hpairs
      as [->|(c & rest' & _ & ->)]; [by left|].
    right. rewrite <- list_fmap_compose. apply list_fmap_id.
  - intros p found casr Hin Hcasr.
    apply compare_to_existing_Ok_inv in Hpairs
      as [->|(c & rest' & [= <- <-] & ->)]; [by apply elem_of_nil in Hin|].
    apply list_elem_of_fmap in Hin as (q & [= -> ->] & _).
    apply matching_elem_of in Hcasr as (? & ? & recorded & -> & ->).
    done.
  - intros e He. apply (catalogue_has_session_paths _ csess); [by left|].
    unfold session_paths. apply list_elem_of_fmap. eauto.
Qed.

Lemma parse_session_result_coherent_witness :
  ([(∅ : Row, [assessor_with "x1" (Some ∅)])] = []
   ∨ [(∅ : Row, [assessor_with "x1" (Some ∅)])].*1 = [∅])
  ∧ (∀ p found casr,
       (p, found) ∈ [(∅ : Row, [assessor_with "x1" (Some ∅)])] →
       casr ∈ found →
       casr ∈ assessors (session_with [assessor_with "x1" (Some ∅)])
       ∧ type_ casr = proctype history_parser
       ∧ decoded <$> get_inputs casr = Some p)
  ∧ (∀ e, e ∈ scans (session_with [assessor_with "x1" (Some ∅)])
              ++ assessors (session_with [assessor_with "x1" (Some ∅)]) →
          is_Some (parse_artefacts
                     [session_with [assessor_with "x1" (Some ∅)]]
                   !! full_path e)).
Proof.
  apply (parse_session_result_coherent (λ _ _, false) elements
           history_parser (session_with [assessor_with "x1" (Some ∅)])
           [session_with [assessor_with "x1" (Some ∅)]]
           {| artefacts :=
                parse_artefacts [session_with [assessor_with "x1" (Some ∅)]];
              artefacts_by_input := ∅;
              parameter_matrix := [∅];
              assessor_parameter_map :=
                [(∅, [assessor_with "x1" (Some ∅)])] |}).
  reflexivity.
Defined.

(** ** The size of a matrix without dependents *)

Lemma length_sanitise c : length (sanitise c) = Nat.max 1 (length c).
Proof.
  unfold sanitise. destruct c as [|x c]; [done|].
  rewrite decide_False by done. rewrite length_fmap. simpl. lia.
Qed.

Lemma length_product {A} (dims : list (list A)) :
  length (product dims) = foldr (λ d n, (length d * n)%nat) 1%nat dims.
Proof.
  induction dims as [|d dims IH]; simpl; [done|].
  rewrite (length_bind_blocks _ _ (length (product dims))).
  - by rewrite IH.
  - intros y. by rewrite length_fmap.
Qed.

Lemma source_dimension_size inputs abi artefacts san s sv g c :
  Dict.get inputs s = Some sv →
  select sv !! 0%nat = Some g →
  g ∈ ["foreach"; "one"; "all"] →
  abi !! s = Some c →
  san !! s = Some (sanitise c) →
  ∃ frags,
    source_dimension inputs [] artefacts san s = Ok ([s], Some frags)
    ∧ Forall (λ frag, length frag = 1%nat) frags
    ∧ length frags = dimension_size inputs abi s.
Proof.
  intros Hs Hg Hin Hc Hcur. unfold dimension_size. rewrite Hs, Hc, Hg.
  rewrite !elem_of_cons, elem_of_nil in Hin.
  destruct Hin as [->|[->|[->|[]]]].
  - rewrite (foreach_alone _ _ _ _ sv (sanitise c)) by done.
    eexists. split; [done|]. split.
    + apply Forall_fmap. by apply Forall_true.
    + rewrite decide_True by done. by rewrite length_fmap, length_sanitise.
  - unfold source_dimension.
    rewrite (Dict_getitem_Some _ _ _ Hs). simpl.
    rewrite (index_Some _ _ _ Hg). simpl.
    rewrite (getitem_Some _ _ _ Hcur). simpl.
    eexists. split; [done|]. split.
    + repeat constructor. pose proof (sanitise_not_nil c).
      by destruct (sanitise c).
    + done.
  - unfold source_dimension.
    rewrite (Dict_getitem_Some _ _ _ Hs). simpl.
    rewrite (index_Some _ _ _ Hg). simpl.
    rewrite (getitem_Some _ _ _ Hcur). simpl.
    eexists. split; [done|]. split; [by repeat constructor|]. done.
Qed.

(** X25.  Without dependents, when every required input has a candidate and
    every iteration source is selected by [foreach], [one] or [all], the
    generator returns and the number of rows is the product over the
    sources of their sizes: the number of candidates for a [foreach]
    source, one if it has none, and one for a [one] or [all] source. *)
Theorem row_count_without_dependents
    (inputs : Dict.t InputSpec) (iteration_sources : list string)
    (artefacts : gmap string ParserArtefact)
    (artefacts_by_input : gmap string (list string)) :
  covers inputs artefacts_by_input →
  (∀ j jv, (j, jv) ∈ inputs → required jv = true →
           artefacts_by_input !! j ≠ Some []) →
  (∀ s, s ∈ iteration_sources →
        ∃ sv g, Dict.get inputs s = Some sv ∧ select sv !! 0%nat = Some g
                ∧ g ∈ ["foreach"; "one"; "all"]) →
  ∃ rows,
    generate_parameter_matrix inputs iteration_sources [] artefacts
                              artefacts_by_input = Ok rows
    ∧ length rows = matrix_size inputs artefacts_by_input iteration_sources.
Proof.
  intros Hcov Hgate Hsrc. unfold generate_parameter_matrix.
  rewrite (inputs_present_true _ _ Hcov Hgate). simpl.
  destruct (sanitised_inputs_spec _ _ Hcov) as (san & Hsan & Hlook).
  rewrite Hsan. simpl.
  assert (Hdims : ∃ dimensions ds,
    traverse (source_dimension inputs [] artefacts san) iteration_sources
      = Ok dimensions
    ∧ Forall2 (λ d D, ∃ s, d = ([s], Some D)
                           ∧ Forall (λ frag, length frag = 1%nat) D)
              dimensions ds
    ∧ foldr (λ d n, (length d * n)%nat) 1%nat ds
      = matrix_size inputs artefacts_by_input iteration_sources).
  { clear Hgate. induction iteration_sources as [|s sources IH]; simpl.
    - exists [], []. by repeat constructor.
    - destruct (Hsrc s) as (sv & g & Hs & Hg & Hin); [by left|].
      destruct (Hcov s sv (Dict_get_elem_of _ _ _ Hs)) as [c Hc].
      destruct (source_dimension_size inputs artefacts_by_input artefacts
                  san s sv g c Hs Hg Hin Hc (Hlook _ _ _ Hs Hc))
        as (frags & -> & Hone & Hsize).
      destruct IH as (dimensions & ds & -> & Hd & Hds).
      { intros z Hz. apply Hsrc. by right. }
      simpl. exists (([s], Some frags) :: dimensions), (frags :: ds).
      split; [done|]. split; [constructor; eauto|].
      simpl. by rewrite Hsize, Hds. }
  destruct Hdims as (dimensions & ds & -> & Hd & Hsize). simpl.
  assert (Hunpack : unpack_dimensions dimensions.*2 = Ok ds).
  { apply unpack_dimensions_Ok, Forall2_fmap_l.
    eapply Forall2_impl; [exact Hd|]. simpl. by intros d D (s & -> & _). }
  rewrite Hunpack. simpl.
  destruct (traverse_total (λ r, build_row (concat dimensions.*1) r ∅)
              ((λ x, concat x) <$> product ds)) as [rows Hrows].
  { intros r Hr. apply list_elem_of_fmap in Hr as (x & -> & Hx).
    apply build_row_total. apply elem_of_product in Hx.
    by eapply single_cell_fragments. }
  exists rows. split; [done|].
  apply traverse_Ok_iff, Forall2_length in Hrows.
  by rewrite <- Hrows, length_fmap, length_product.
Qed.

Lemma row_count_without_dependents_witness :
  ∃ rows,
    generate_parameter_matrix inputs_AB ["A"; "B"] [] ∅ candidates_AB
      = Ok rows
    ∧ length rows = matrix_size inputs_AB candidates_AB ["A"; "B"].
Proof.
  apply (row_count_without_dependents inputs_AB ["A"; "B"] ∅ candidates_AB).
  - apply covers_Forall. repeat constructor; by eexists.
  - intros j jv Hin _. unfold inputs_AB in Hin.
    rewrite !elem_of_cons, elem_of_nil in Hin.
    destruct Hin as [[= -> _]|[[= -> _]|[]]]; done.
  - intros s Hs. rewrite !elem_of_cons, elem_of_nil in Hs.
    destruct Hs as [->|[->|[]]];
      exists (input_with ["foreach"] true), "foreach";
      (split; [reflexivity|]); (split; [reflexivity|]); by left.
Defined.

(** ** A dependent read from recorded inputs *)

Lemma from_column_aligned artefacts fas t col :
  (∀ path a, artefacts !! path = Some a → is_Some (get_inputs (entity a))) →
  from_column artefacts fas t = Ok col →
  Forall2 (λ fa v, ∃ path a recorded x,
             fa = Some path ∧ artefacts !! path = Some a
             ∧ get_inputs (entity a) = Some recorded
             ∧ recorded !! t = Some x ∧ v = VStr x)
          fas col.
Proof.
  intros Hrec. unfold from_column. intros Hrun.
  apply bind_Ok_inv in Hrun as (entries & Hent & [= <-]).
  apply traverse_Ok_iff in Hent.
  induction Hent as [|fa e fas entries He _ IH]; simpl; [constructor|].
  destruct fa as [path|]; [|done].
  apply bind_Ok_inv in He as (a & Ha & He). apply getitem_Ok_inv in Ha.
  destruct (Hrec _ _ Ha) as [recorded Hr]. rewrite Hr in He.
  apply bind_Ok_inv in He as (x & Hx & [= <-]). apply getitem_Ok_inv in Hx.
  simpl. constructor; [|done]. eauto 10.
Qed.

(** X26.  One [foreach] source [s] and one dependent [k] that is read from
    the recorded input [t] of [s], when every catalogued entity records its
    inputs: in every returned row the cell of [s] is a catalogued path and
    the cell of [k] is the input that this very artefact records under
    [t]. *)
Theorem from_dependent_follows_source
    (inputs : Dict.t InputSpec) (artefacts : gmap string ParserArtefact)
    (artefacts_by_input : gmap string (list string))
    (s k t ref g : string) (sv kv : InputSpec) (rows : list Row) :
  Dict.get inputs s = Some sv → select sv !! 0%nat = Some "foreach" →
  Dict.get inputs k = Some kv → select kv !! 0%nat = Some g →
  g ≠ "foreach" →
  Str.split "/" ref = [s; t] →
  (∀ path a, artefacts !! path = Some a → is_Some (get_inputs (entity a))) →
  generate_parameter_matrix inputs [s] [(k, ref)] artefacts
                            artefacts_by_input = Ok rows →
  ∀ row, row ∈ rows →
    ∃ path a recorded x,
      row !! s = Some (VStr path)
      ∧ artefacts !! path = Some a
      ∧ get_inputs (entity a) = Some recorded
      ∧ recorded !! t = Some x
      ∧ row !! k = Some (VStr x).
Proof.
  intros Hs Hsel Hk Hg Hnf Hsplit Hrec Hrun row Hrow.
  assert (Hsk : s ≠ k).
  { intros ->. rewrite Hs in Hk. injection Hk as <-.
    rewrite Hsel in Hg. congruence. }
  apply generate_parameter_matrix_Ok_inv in Hrun
    as [->|(san & dimensions & ds & Hsan & Hdims & Hds & Hrows)];
    [by apply elem_of_nil in Hrow|].
  apply Forall2_cons_inv_l in Hdims as (d & dims' & Hd & Hnil & ->).
  apply Forall2_nil_inv_l in Hnil as ->.
  apply Forall2_cons_inv_l in Hds as (D & ds' & HD & Hnil & ->).
  apply Forall2_nil_inv_l in Hnil as ->.
  unfold source_dimension in Hd.
  rewrite (Dict_getitem_Some _ _ _ Hs) in Hd. simpl in Hd.
  rewrite (index_Some _ _ _ Hsel) in Hd. simpl in Hd.
  apply bind_Ok_inv in Hd as (cur & Hcur & Hd).
  apply bind_Ok_inv in Hd as ([mp combined] & Hcomb & Hd).
  apply bind_Ok_inv in Hd as (n & Hn & Hd).
  apply bind_Ok_inv in Hd as (merged & Hm & [= <-]).
  simpl in HD. injection HD as <-.
  unfold combined_input_vector in Hcomb.
  apply bind_Ok_inv in Hcomb as (attached & Hatt & [= <- <-]).
  simpl in Hatt. apply bind_Ok_inv in Hatt as (att & Ha & [= <-]).
  unfold attach in Ha.
  rewrite (Dict_getitem_Some _ _ _ Hk) in Ha. simpl in Ha.
  rewrite (index_Some _ _ _ Hg) in Ha. simpl in Ha.
  rewrite decide_False in Ha by done.
  unfold split_reference in Ha. rewrite Hsplit in Ha. simpl in Ha.
  rewrite decide_True in Ha by done.
  apply bind_Ok_inv in Ha as (fa & Hfa & Ha).
  rewrite Hcur in Hfa. injection Hfa as <-.
  apply bind_Ok_inv in Ha as (col & Hcol & [= <-]).
  pose proof (from_column_aligned _ _ _ _ Hrec Hcol) as Hal.
  destruct (merged_input_vector_spec _ _ _ Hm) as [_ Hfrag].
  apply list_elem_of_lookup in Hrow as [j Hj].
  destruct (Forall2_lookup_r _ _ _ _ _ Hrows Hj) as (r & Hr & Hbuild).
  apply list_elem_of_lookup_2, list_elem_of_fmap in Hr as (x & -> & Hx).
  apply elem_of_product in Hx.
  apply Forall2_cons_inv_l in Hx as (frag & x' & Hin & Hnil & ->).
  apply Forall2_nil_inv_l in Hnil as ->.
  apply list_elem_of_lookup in Hin as [i Hi]. apply Hfrag in Hi.
  simpl in Hi.
  apply Forall2_cons_inv_l in Hi as (c1 & frag1 & Hc1 & Hi & ->).
  apply Forall2_cons_inv_l in Hi as (c2 & frag2 & Hc2 & Hi & ->).
  apply Forall2_nil_inv_l in Hi as ->.
  simpl in Hbuild. injection Hbuild as <-.
  unfold cells in Hc1. rewrite list_lookup_fmap in Hc1.
  destruct (cur !! i) as [o|] eqn:Ho; [|done]. injection Hc1 as <-.
  destruct (Forall2_lookup_l _ _ _ _ _ Hal Ho)
    as (v & Hv & path & a & recorded & y & -> & Hpath & Hget & Hy & ->).
  rewrite Hc2 in Hv. injection Hv as ->.
  exists path, a, recorded, y.
  rewrite lookup_insert_ne, !lookup_insert_eq by done. done.
Qed.

Lemma from_dependent_follows_source_witness :
  ∃ path a recorded x,
    (<["C" := VStr "p1"]> ({["A" := VStr "a1"]} : Row)) !! "A"
      = Some (VStr path)
    ∧ catalogue_a1 !! path = Some a
    ∧ get_inputs (entity a) = Some recorded
    ∧ recorded !! "t1" = Some x
    ∧ (<["C" := VStr "p1"]> ({["A" := VStr "a1"]} : Row)) !! "C"
      = Some (VStr x).
Proof.
  apply (from_dependent_follows_source inputs_A_from_C catalogue_a1
           (<["C" := []]> {["A" := ["a1"]]}) "A" "C" "t1" "A/t1" "from"
           (input_with ["foreach"] true) (input_with ["from"; "A/t1"] false)
           [<["C" := VStr "p1"]> {["A" := VStr "a1"]}]);
    try reflexivity.
  - discriminate.
  - intros path a Ha. unfold catalogue_a1 in Ha.
    apply lookup_singleton_Some in Ha as [_ <-]. by eexists.
  - by left.
Defined.

(** ** The filters read from the document *)

Lemma join_cons sep x l :
  l ≠ [] → join sep (x :: l) = x +:+ sep +:+ join sep l.
Proof. by destruct l. Qed.

Lemma join_split sep s :
  join (String sep "") (Str.split sep s) = s.
Proof.
  induction s as [|c s IH]; [done|]. simpl Str.split.
  pose proof (split_nonempty sep s) as Hne.
  destruct (decide (c = sep)) as [->|Hc].
  - rewrite join_cons, IH by done.
    by rewrite append_nil, append_cons, append_nil.
  - destruct (Str.split sep s) as [|w ws] eqn:Hsplit; [done|].
    destruct ws as [|w' ws].
    + simpl in *. by rewrite IH.
    + rewrite join_cons by done. rewrite join_cons in IH by done.
      by rewrite append_cons, IH.
Qed.

Lemma split_comma_free sep t :
  Str.find sep t = None → Str.split sep t = [t].
Proof.
  induction t as [|c t IH]; [done|]. simpl.
  destruct (decide (c = sep)) as [->|Hc]; [done|].
  destruct (Str.find sep t) eqn:Hf; [done|]. intros _. by rewrite IH.
Qed.

Lemma split_app sep t s :
  Str.find sep t = None →
  Str.split sep (t +:+ String sep s) = t :: Str.split sep s.
Proof.
  induction t as [|c t IH].
  - intros _. rewrite append_nil. simpl. by rewrite decide_True.
  - simpl Str.find. destruct (decide (c = sep)) as [->|Hc]; [done|].
    destruct (Str.find sep t) eqn:Hf; [done|]. intros _.
    rewrite append_cons. simpl Str.split. rewrite decide_False by done.
    by rewrite IH.
Qed.

(** Cutting at the separator undoes joining with it, for names that do not
    hold it. *)
Lemma split_join sep (l : list string) :
  l ≠ [] → Forall (λ name, Str.find sep name = None) l →
  Str.split sep (join (String sep "") l) = l.
Proof.
  intros Hne Hfree. induction Hfree as [|t l Ht Hl IH]; [done|].
  destruct l as [|t' l].
  - simpl. by apply split_comma_free.
  - rewrite join_cons by done. rewrite append_cons, append_nil.
    rewrite split_app by done. by rewrite IH.
Qed.

Lemma bind_no_IndexError {A B} (r : result A) (f : A → result B) :
  r ≠ Raise IndexError → (∀ a, f a ≠ Raise IndexError) →
  r ≫= f ≠ Raise IndexError.
Proof. destruct r as [a|e]; simpl; [auto | congruence]. Qed.

Lemma getitem_no_IndexError {V} (d : gmap string V) k :
  getitem d k ≠ Raise IndexError.
Proof. unfold getitem. by destruct (d !! k). Qed.

Lemma traverse_no_IndexError {A B} (f : A → result B) (l : list A) :
  (∀ x, x ∈ l → f x ≠ Raise IndexError) → traverse f l ≠ Raise IndexError.
Proof.
  induction l as [|x l IH]; intros Hf; simpl; [done|].
  apply bind_no_IndexError; [apply Hf; by left|]. intros y.
  apply bind_no_IndexError; [|done].
  apply IH. intros z Hz. apply Hf. by right.
Qed.

Lemma get_input_value_no_IndexError name p arts :
  get_input_value name p arts ≠ Raise IndexError.
Proof.
  unfold get_input_value. destruct (Str.find "/" name).
  - apply bind_no_IndexError.
    { unfold split_reference. by repeat case_match. }
    intros [parent child].
    apply bind_no_IndexError; [apply getitem_no_IndexError|]. intros v.
    apply bind_no_IndexError; [by repeat case_match|]. intros path.
    apply bind_no_IndexError; [apply getitem_no_IndexError|]. intros a.
    by destruct (get_inputs (entity a)).
  - apply getitem_no_IndexError.
Qed.

Lemma all_equal_no_IndexError v others p arts :
  all_equal v others p arts ≠ Raise IndexError.
Proof.
  induction others as [|name others IH]; simpl; [done|].
  apply bind_no_IndexError; [apply get_input_value_no_IndexError|].
  intros x. by destruct (decide (x ≠ v)).
Qed.

(** X27.  The filters of the document: only entries of type [match] give a
    group, in document order; a group is the entry's input string cut at
    every comma, so no name of a group holds a comma, and nothing is
    stripped or lost, so joining the group with commas gives the string
    back; these two facts fix the group.  No group is empty, and therefore
    the filter never fails with [IndexError] on the groups read from a
    document. *)
Theorem parse_match_filters_groups (xnat : XnatSection) :
  join "," <$> parse_match_filters xnat
    = (filter (λ f, f.1 = "match") (default [] (x_filters xnat))).*2
  ∧ Forall (λ group,
              group ≠ [] ∧ Forall (λ name, Str.find "," name = None) group)
           (parse_match_filters xnat)
  ∧ (∀ groups,
       join "," <$> groups = join "," <$> parse_match_filters xnat →
       Forall (λ group,
                 group ≠ []
                 ∧ Forall (λ name, Str.find "," name = None) group)
              groups →
       groups = parse_match_filters xnat)
  ∧ ∀ parameter_matrix artefacts,
      filter_matrix parameter_matrix (parse_match_filters xnat) artefacts
        ≠ Raise IndexError.
Proof.
  assert (Hne : Forall (λ group,
                   group ≠ []
                   ∧ Forall (λ name, Str.find "," name = None) group)
                  (parse_match_filters xnat)).
  { unfold parse_match_filters. destruct (x_filters xnat) as [fs|]; [|done].
    induction fs as [|[type names] fs IH]; simpl; [done|].
    destruct (decide (type = "match")); [|done].
    constructor; [|done]. split; [apply split_nonempty | apply split_free]. }
  split; [|split; [done|split]].
  - unfold parse_match_filters. destruct (x_filters xnat) as [fs|]; [|done].
    simpl. induction fs as [|[type names] fs IH]; [done|].
    rewrite filter_cons. simpl.
    destruct (decide (type = "match")); simpl; [|done].
    f_equal; [apply (join_split ","%char) | exact IH].
  - intros groups Hjoin Hgroups. revert Hjoin Hne.
    generalize (parse_match_filters xnat). intros groups'.
    revert groups'.
    induction Hgroups as [|g groups [Hg Hfree] _ IH];
      intros [|g' groups'] Hjoin Hne; simplify_eq/=; [done|].
    apply Forall_cons in Hne as [[Hg' Hfree'] Hne].
    f_equal; [|by apply IH].
    rewrite <- (split_join ","%char g), <- (split_join ","%char g') by done.
    by f_equal.
  - intros pm arts. unfold filter_matrix.
    apply bind_no_IndexError; [|done].
    apply traverse_no_IndexError. intros p _.
    apply bind_no_IndexError; [|done].
    apply traverse_no_IndexError. intros group Hgroup.
    eapply Forall_forall in Hne; [|exact Hgroup]. destruct Hne as [Hne _].
    destruct group as [|name others]; [done|].
    unfold filter_holds. simpl.
    apply bind_no_IndexError; [apply get_input_value_no_IndexError|].
    intros v. apply all_equal_no_IndexError.
Qed.

(** ** Two readings the code makes *)

(** A [select-session] key that holds the null value: [parse_inputs] takes
    it for no statement and stores the policy of the current session,
    [is_longitudinal] compares the null value with ['current'] and answers
    yes. *)
Example null_select_session_is_longitudinal py_int :
  is_longitudinal
    {| x_scans :=
         [{| y_name := "A"; y_select := None; y_select_session := Some None;
             y_types := "T1"; y_needs_qc := None; y_resources := [] |}];
       x_assessors := []; x_filters := None |} = true
  ∧ ∃ st,
      parse_inputs py_int
        (Some {| x_scans :=
                   [{| y_name := "A"; y_select := None;
                       y_select_session := Some None;
                       y_types := "T1"; y_needs_qc := None;
                       y_resources := [] |}];
                 x_assessors := []; x_filters := None |}) = Ok st
      ∧ ps_prior_session_count st = 0
      ∧ select_session <$> Dict.get (ps_inputs st) "A"
        = Some {| mode := "current"; delta := 0 |}.
Proof. split; [reflexivity|]. eexists. by repeat split. Qed.

(** A filter name with a slash: the child name is a [str] and the recorded
    inputs are keyed by [bytes], so the filter raises [KeyError] although
    the artefact in the cell records the child. *)
Example filter_on_recorded_input_raises :
  filter_matrix [{["A" := VStr "a1"]}] [["A/t1"; "A/t1"]] catalogue_a1
    = Raise KeyError.
Proof. reflexivity. Qed.
